(** * Koopman learning and control: bilinear EDMD and the MPC controllers

    A shallow embedding of
      - [koopman_core/learning/bilinear_edmd.py]       (class BilinearEdmd),
      - [koopman_core/controllers/nonlinear_mpc_controller.py]
                                                        (class NonlinearMPCController),
      - [koopman_core/controllers/bilinear_mpc_controller.py]
                                                        (class BilinearMpcController),
      - [koopman_core/util.py]                          (class KoopPdOutput).

    Conventions.  A numpy vector is a [list Z], a 2-D array a list of rows,
    a 3-D array a list of 2-D arrays.  Array entries are exact integers: the
    properties verified here are about layout, indexing, support of nonzero
    entries and the order of updates, none depends on rounding.  The one
    float that decides control flow, the norm compared with [eps], is a
    [pyfloat]: a number, an infinity or NaN.  External
    collaborators (regression optimizer, standardizer, basis, linearization
    provider, QP solver, linear solver) are parameters.  Python exceptions
    raised by explicit assertions and by indexed stores are results of type
    [result]; shape mismatches that numpy rejects are excluded by the shape
    hypotheses of the theorems. *)

From Stdlib Require Import String QArith.
From Stdlib Require Import ZArith Lia Bool Arith PeanoNat List Sorted.
Import ListNotations.
Close Scope Q_scope.
Open Scope Z_scope.
Open Scope nat_scope.
Open Scope list_scope.

Set Implicit Arguments.

(** ** Exceptions *)

Inductive exn : Type :=
| AssertionError (msg : string)
| AttributeError
| IndexError
| ValueError
| LinAlgError.

Inductive result (A : Type) : Type :=
| Ok (a : A)
| Raise (e : exn).

Arguments Ok {A} a.
Arguments Raise {A} e.

Definition bind {A B : Type} (r : result A) (k : A -> result B) : result B :=
  match r with
  | Ok a => k a
  | Raise e => Raise e
  end.

Notation "x <- r ;; k" := (bind r (fun x => k))
  (at level 61, r at next level, right associativity).

(** ** Arrays *)

(** Python floats that only stand for a time. *)
Definition rational : Type := Q.

(** A Python float as a comparison sees it ([eps], the value of
    [np.linalg.norm]): a number, an infinity or NaN.  [a > b] and [a <= b]
    are both [False] as soon as one side is NaN. *)
Inductive pyfloat : Type :=
| Num (q : Q)
| PosInf
| NegInf
| NaN.

Definition float_gt (a b : pyfloat) : bool :=
  match a, b with
  | NaN, _ | _, NaN => false
  | PosInf, PosInf => false
  | PosInf, _ => true
  | NegInf, _ => false
  | Num _, PosInf => false
  | Num _, NegInf => true
  | Num x, Num y => negb (Qle_bool x y)
  end.

Definition float_le (a b : pyfloat) : bool :=
  match a, b with
  | NaN, _ | _, NaN => false
  | NegInf, _ => true
  | _, PosInf => true
  | PosInf, _ => false
  | Num _, NegInf => false
  | Num x, Num y => Qle_bool x y
  end.

Abbreviation vec := (list Z).
Abbreviation matrix := (list (list Z)).
Abbreviation tensor3 := (list (list (list Z))).

Module Np.

(** [np.zeros(k)], [np.ones(k)], [np.zeros((r, c))], [np.ones((r, c))]. *)
Definition zeros (k : nat) : vec := repeat 0%Z k.
Definition ones (k : nat) : vec := repeat 1%Z k.
Definition zeros2 (r c : nat) : matrix := repeat (zeros c) r.
Definition ones2 (r c : nat) : matrix := repeat (ones c) r.

(** Row [i] of [np.eye(k)] and [np.eye(k)] itself. *)
Definition unit_row (k i : nat) : vec :=
  map (fun j => if Nat.eqb i j then 1%Z else 0%Z) (seq 0 k).
Definition eye (k : nat) : matrix := map (unit_row k) (seq 0 k).

(** [M.shape[0]], [M.shape[1]] of a 2-D array. *)
Definition nrows (M : matrix) : nat := length M.
Definition ncols (M : matrix) : nat := length (hd [] M).

(** [M[:, j]]. *)
Definition column (j : nat) (M : matrix) : vec := map (fun r => nth j r 0%Z) M.

(** [M.T]. *)
Definition T (M : matrix) : matrix := map (fun j => column j M) (seq 0 (ncols M)).

(** [v[a:b]] and [M[:, a:b]]. *)
Definition slice {A : Type} (a b : nat) (v : list A) : list A := firstn (b - a) (skipn a v).
Definition cols (a b : nat) (M : matrix) : matrix := map (slice a b) M.

(** [np.concatenate((M1, M2, ...), axis=1)] for arrays with the same
    number of rows. *)
Fixpoint hcat2 (M1 M2 : matrix) : matrix :=
  match M1, M2 with
  | r1 :: t1, r2 :: t2 => (r1 ++ r2) :: hcat2 t1 t2
  | _, _ => []
  end.
Definition hcat3 (M1 M2 M3 : matrix) : matrix := hcat2 (hcat2 M1 M2) M3.

(** Elementwise [a - b], [a + b], [-a] on vectors of equal length and on
    2-D arrays of equal shape. *)
Fixpoint zip_with {A B C : Type} (f : A -> B -> C) (a : list A) (b : list B) : list C :=
  match a, b with
  | x :: a', y :: b' => f x y :: zip_with f a' b'
  | _, _ => []
  end.
Definition vsub (a b : vec) : vec := zip_with Z.sub a b.
Definition vadd (a b : vec) : vec := zip_with Z.add a b.
Definition vneg (a : vec) : vec := map Z.opp a.
Definition msub (a b : matrix) : matrix := zip_with vsub a b.
Definition madd (a b : matrix) : matrix := zip_with vadd a b.

(** [a @ b] for vectors, [M @ v], [M1 @ M2]. *)
Definition dot (a b : vec) : Z := fold_right Z.add 0%Z (zip_with Z.mul a b).
Definition matvec (M : matrix) (v : vec) : vec := map (fun r => dot r v) M.
Definition matmul (M1 M2 : matrix) : matrix :=
  map (fun r => map (fun j => dot r (column j M2)) (seq 0 (ncols M2))) M1.

(** [np.tile(v, k)] for a vector. *)
Definition tile (v : vec) (k : nat) : vec := concat (repeat v k).

(** [M.flatten()] (row-major) and [M.flatten(order='F')] (column-major). *)
Definition flatten (M : matrix) : vec := concat M.
Definition flatten_F (M : matrix) : vec := concat (T M).

(** [v.reshape(r, c, order='F')] for a vector of length [r * c]:
    entry [(i, j)] is [v[j * r + i]]. *)
Definition reshape_F (r c : nat) (v : vec) : matrix :=
  map (fun i => map (fun j => nth (j * r + i) v 0%Z) (seq 0 c)) (seq 0 r).

(** Column indices of the nonzero entries of a row, left to right. *)
Definition nonzero_row (r : vec) : list nat :=
  map fst (filter (fun p => negb (Z.eqb (snd p) 0)) (combine (seq 0 (length r)) r)).

(** [np.nonzero(M)[1]]: column indices of the nonzero entries in row-major
    order. *)
Definition nonzero_cols (M : matrix) : list nat := flat_map nonzero_row M.

(** [np.nonzero(M)[0].size]: number of nonzero entries. *)
Definition count_nonzero (M : matrix) : nat := length (nonzero_cols M).

(** [np.unique(l)]: the sorted list of the distinct elements. *)
Fixpoint insert_unique (x : nat) (l : list nat) : list nat :=
  match l with
  | [] => [x]
  | y :: l' =>
      if Nat.ltb x y then x :: l
      else if Nat.eqb x y then l
      else y :: insert_unique x l'
  end.
Definition unique (l : list nat) : list nat := fold_right insert_unique [] l.

(** [M[idx, :]] and [M[:, idx]] with an index array. *)
Definition take_rows (idx : list nat) (M : matrix) : matrix := map (fun i => nth i M []) idx.
Definition take_cols (idx : list nat) (M : matrix) : matrix :=
  map (fun r => map (fun j => nth j r 0%Z) idx) M.

End Np.

(** ** BilinearEdmd *)

Module BilinearEdmd.

(** The regression optimizer contract: [fit(X, y)] followed by a read of
    [coef_]. *)
Record Regressor : Type := { reg_fit : matrix -> matrix -> matrix }.

(** The standardizer contract; [fit] is only used by [process]. *)
Record Standardizer : Type := {
  transform : matrix -> matrix;
  inverse_transform : matrix -> matrix
}.

(** The fields of the object. [A] and [C] are [None] while unset. *)
Record t : Type := mk {
  n : nat;
  m : nat;
  basis : matrix -> matrix;
  n_lift : nat;
  n_traj : nat;
  optimizer : Regressor;
  cv : option Regressor;
  standardizer : option Standardizer;
  C : option matrix;
  A : option matrix;
  B : list matrix;
  basis_reduced : option (matrix -> matrix);
  n_lift_reduced : option nat;
  obs_in_use : option (list nat)
}.

(** [__init__]: the base class stores its arguments, this class adds an
    empty [B] and the three unset reduction fields. *)
Definition init (n m : nat) (basis : matrix -> matrix) (n_lift n_traj : nat)
    (optimizer : Regressor) (cv : option Regressor)
    (standardizer : option Standardizer) (C : option matrix) : t :=
  {| n := n; m := m; basis := basis; n_lift := n_lift; n_traj := n_traj;
     optimizer := optimizer; cv := cv; standardizer := standardizer; C := C;
     A := None; B := [];
     basis_reduced := None; n_lift_reduced := None; obs_in_use := None |}.

Definition set_A_B (self : t) (a : matrix) (b : list matrix) : t :=
  {| n := n self; m := m self; basis := basis self; n_lift := n_lift self;
     n_traj := n_traj self; optimizer := optimizer self; cv := cv self;
     standardizer := standardizer self; C := C self;
     A := Some a; B := b;
     basis_reduced := basis_reduced self; n_lift_reduced := n_lift_reduced self;
     obs_in_use := obs_in_use self |}.

(** Lines 19-25 of [fit]: the raw coefficients of the regression. *)
Definition regress (self : t) (X y : matrix) (use_cv : bool) : result matrix :=
  if use_cv then
    match cv self with
    | None => Raise (AssertionError "No cross validation method specified.")
    | Some c => Ok (reg_fit c X y)
    end
  else Ok (reg_fit (optimizer self) X y).

(** Lines 27-30 of [fit]. *)
Definition scale_coefs (self : t) (mdl_coefs : matrix) : matrix :=
  match standardizer self with
  | None => mdl_coefs
  | Some s => transform s mdl_coefs
  end.

(** Lines 33-35 of [fit]. *)
Definition kin_dyn (self : t) (first_obs_const : bool) : matrix :=
  let half := n self / 2 in
  let foc := Nat.b2n first_obs_const in
  Np.hcat3 (Np.zeros2 half (half + foc))
           (Np.eye half)
           (Np.zeros2 half (n_lift self - n self - foc)).

(** Lines 32-47 of [fit]: the model blocks read off the coefficients. The
    loop over [range(m)] appends to the list held by the object. *)
Definition assemble (self : t) (coefs : matrix)
    (override_kinematics first_obs_const : bool) : t :=
  let half := n self / 2 in
  let foc := Nat.b2n first_obs_const in
  let nl := n_lift self in
  if override_kinematics then
    let a :=
      if first_obs_const
      then Np.zeros2 1 nl ++ kin_dyn self first_obs_const ++ Np.cols 0 nl coefs
      else kin_dyn self first_obs_const ++ Np.cols 0 nl coefs in
    let b :=
      fold_left
        (fun acc ii =>
           acc ++ [Np.zeros2 (half + foc) nl
                     ++ Np.cols (nl * (ii + 1)) (nl * (ii + 2)) coefs])
        (seq 0 (m self)) (B self) in
    set_A_B self a b
  else
    let a := Np.cols 0 nl coefs in
    let b :=
      fold_left
        (fun acc ii => acc ++ [Np.cols (nl * (ii + 1)) (nl * (ii + 2)) coefs])
        (seq 0 (m self)) (B self) in
    set_A_B self a b.

(** [fit(X, y, cv, override_kinematics, first_obs_const)]. *)
Definition fit (self : t) (X y : matrix)
    (use_cv override_kinematics first_obs_const : bool) : result t :=
  let y :=
    if override_kinematics
    then map (skipn (n self / 2 + Nat.b2n first_obs_const)) y
    else y in
  mdl_coefs <- regress self X y use_cv ;;
  Ok (assemble self (scale_coefs self mdl_coefs) override_kinematics first_obs_const).


(** The base class's [lift] (edmd.py) is a parameter of [lift]:
    [base_lift x_traj u_traj] is the plain lift of one trajectory, an array
    with one row per time step. *)
Definition plain_lift (base_lift : matrix -> matrix -> matrix) (self : t)
    (x u : tensor3) : tensor3 :=
  map (fun ii => base_lift (removelast (nth ii x [])) (nth ii u []))
      (seq 0 (n_traj self)).

(** [z.shape[2]]. *)
Definition shape2 (z : tensor3) : nat := length (hd [] (hd [] z)).

(** [np.tile(u[:, :, ii:ii+1], (1, 1, k))]. *)
Definition tile_channel (u : tensor3) (ii k : nat) : tensor3 :=
  map (map (fun r => concat (repeat (Np.slice ii (ii + 1) r) k))) u.

(** [np.multiply(a, b)] and [np.concatenate((a, b), axis=2)] on 3-D arrays
    of matching shapes. *)
Definition multiply3 (a b : tensor3) : tensor3 :=
  Np.zip_with (Np.zip_with (Np.zip_with Z.mul)) a b.
Definition concat_axis2 (a b : tensor3) : tensor3 := Np.zip_with Np.hcat2 a b.

(** [lift(x, u)]. *)
Definition lift (base_lift : matrix -> matrix -> matrix) (self : t)
    (x u : tensor3) : tensor3 :=
  let z := plain_lift base_lift self x u in
  fold_left
    (fun z_bilinear ii =>
       concat_axis2 z_bilinear (multiply3 z (tile_channel u ii (shape2 z))))
    (seq 0 (m self)) z.

(** [M[idx, :]]; an index past the last row raises. *)
Definition index_rows (idx : list nat) (M : matrix) : result matrix :=
  if forallb (fun i => Nat.ltb i (length M)) idx
  then Ok (Np.take_rows idx M)
  else Raise IndexError.

(** [M[:, idx]]; an index past the last column raises. *)
Definition index_cols (idx : list nat) (M : matrix) : result matrix :=
  if forallb (fun j => Nat.ltb j (Np.ncols M)) idx
  then Ok (Np.take_cols idx M)
  else Raise IndexError.

(** [B[ii]] of a Python list. *)
Definition list_get {X : Type} (l : list X) (ii : nat) : result X :=
  match nth_error l ii with
  | Some x => Ok x
  | None => Raise IndexError
  end.

(** Lines 85-87: one pass of the body of the while loop. *)
Definition expand_in_use (a : matrix) (b : list matrix) (m : nat)
    (in_use : list nat) : result (list nat) :=
  rows <- index_rows in_use a ;;
  fold_left
    (fun acc ii =>
       in_use <- acc ;;
       bi <- list_get b ii ;;
       rows <- index_rows in_use bi ;;
       Ok (Np.unique (in_use ++ Np.nonzero_cols rows)))
    (seq 0 m) (Ok (Np.unique (Np.nonzero_cols rows))).

(** Lines 83-87: the while loop. [n_obs_used] grows strictly with every
    pass, so the recursion is on an upper bound of the passes left; [None]
    stands for an exhausted bound. *)
Fixpoint in_use_loop (fuel : nat) (a : matrix) (b : list matrix) (m : nat)
    (n_obs_used : nat) (in_use : list nat) : option (result (list nat)) :=
  if Nat.ltb n_obs_used (length in_use) then
    match fuel with
    | 0 => None
    | S fuel' =>
        match expand_in_use a b m in_use with
        | Ok in_use' => in_use_loop fuel' a b m (length in_use) in_use'
        | Raise e => Some (Raise e)
        end
    end
  else Some (Ok in_use).

(** Lines 91-93: [B[ii]] is replaced in place for [ii < m]. *)
Fixpoint reduce_B (in_use : list nat) (k : nat) (b : list matrix) : result (list matrix) :=
  match k with
  | 0 => Ok b
  | S k' =>
      match b with
      | [] => Raise IndexError
      | bi :: rest =>
          r <- index_rows in_use bi ;;
          rc <- index_cols in_use r ;;
          rest' <- reduce_B in_use k' rest ;;
          Ok (rc :: rest')
      end
  end.

(** What the final assignments of [reduce_mdl] store. *)
Definition set_reduced (self : t) (a : matrix) (b : list matrix) (c : matrix)
    (in_use : list nat) : t :=
  {| n := n self; m := m self; basis := basis self; n_lift := n_lift self;
     n_traj := n_traj self; optimizer := optimizer self; cv := cv self;
     standardizer := standardizer self; C := Some c;
     A := Some a; B := b;
     basis_reduced := Some (fun x => Np.take_cols in_use (basis self x));
     n_lift_reduced := Some (length in_use);
     obs_in_use := Some in_use |}.

(** [reduce_mdl()] with an explicit bound on the passes of the loop. *)
Definition reduce_mdl_fuel (fuel : nat) (self : t) : option (result t) :=
  match A self, C self with
  | Some a, Some c =>
      match in_use_loop fuel a (B self) (m self) 0 (Np.unique (Np.nonzero_cols c)) with
      | None => None
      | Some (Raise e) => Some (Raise e)
      | Some (Ok in_use) =>
          Some (ar <- index_rows in_use a ;;
                arc <- index_cols in_use ar ;;
                b' <- reduce_B in_use (m self) (B self) ;;
                c' <- index_cols in_use c ;;
                Ok (set_reduced self arc b' c' in_use))
      end
  | _, _ => Some (Raise AttributeError)
  end.

(** [reduce_mdl()]: the loop makes at most [max 1 (ncols A)] passes. *)
Definition reduce_mdl (self : t) : option (result t) :=
  reduce_mdl_fuel (S (match A self with Some a => Np.ncols a | None => 0 end)) self.

(** The reachability closure in the spec's words (section 4.1): the least
    set of lifted coordinates that contains the nonzero-column support of
    [C] and, with a coordinate [i], every [j] that has a nonzero
    coefficient in row [i] of [A] or of some [B_k], [k < m]. *)
Inductive in_closure (a : matrix) (b : list matrix) (m : nat) (c : matrix) : nat -> Prop :=
| closure_C : forall j, In j (Np.nonzero_cols c) -> in_closure a b m c j
| closure_A : forall i j,
    in_closure a b m c i -> In j (Np.nonzero_row (nth i a [])) ->
    in_closure a b m c j
| closure_B : forall i j k,
    in_closure a b m c i -> k < m -> In j (Np.nonzero_row (nth i (nth k b []) [])) ->
    in_closure a b m c j.

(** One discrete step of the bilinear model of the glossary,
    [z' = A z + sum_i u_i (B_i z)], and the output [C z']. *)
Definition bilinear_step (a : matrix) (b : list matrix) (z u : vec) : vec :=
  fold_left
    (fun acc p => Np.vadd acc (map (Z.mul (snd p)) (Np.matvec (fst p) z)))
    (combine b u) (Np.matvec a z).
Definition predict_output (a : matrix) (b : list matrix) (c : matrix) (z u : vec) : vec :=
  Np.matvec c (bilinear_step a b z u).

End BilinearEdmd.

(** ** Sparse matrices

    A scipy sparse matrix is represented by the dense array of its entries;
    the stored pattern is handled separately (see [csc_data] and
    [kron_stored]). *)

Module Sp.

(** [sparse.csc_matrix((r, c))], [sparse.eye(k)]. *)
Definition empty (r c : nat) : matrix := Np.zeros2 r c.
Definition eye (k : nat) : matrix := Np.eye k.

(** [sparse.vstack] and [sparse.hstack]. *)
Definition vstack (Ms : list matrix) : matrix := concat Ms.
Definition hstack (Ms : list matrix) : matrix :=
  match Ms with
  | [] => []
  | M :: rest => fold_left Np.hcat2 rest M
  end.

(** [sparse.block_diag]. *)
Fixpoint block_diag (Ms : list matrix) : matrix :=
  match Ms with
  | [] => []
  | M :: rest =>
      let bd := block_diag rest in
      map (fun r => r ++ Np.zeros (Np.ncols bd)) M
        ++ map (fun r => Np.zeros (Np.ncols M) ++ r) bd
  end.

(** [sparse.kron(A, B)]. *)
Definition kron (A B : matrix) : matrix :=
  flat_map (fun ar => map (fun br => flat_map (fun a => map (Z.mul a) br) ar) B) A.

(** [-M] and [M1 + M2]. *)
Definition neg (M : matrix) : matrix := map Np.vneg M.
Definition add (M1 M2 : matrix) : matrix := Np.madd M1 M2.

(** The [data] array of a CSC matrix with stored pattern [pattern] (an
    entry is stored where [pattern] is nonzero) and entries [M]: column by
    column, rows increasing. *)
Definition select (p v : vec) : vec :=
  map snd (filter (fun e => negb (Z.eqb (fst e) 0)) (combine p v)).
Definition csc_data (pattern M : matrix) : vec :=
  flat_map (fun j => select (Np.column j pattern) (Np.column j M))
           (seq 0 (Np.ncols M)).

(** The nonzero pattern of a dense array: a one where the entry is
    nonzero. *)
Definition support (B : matrix) : matrix :=
  map (map (fun e => if Z.eqb e 0 then 0%Z else 1%Z)) B.

(** The entries of a dense block [B] that [sparse.kron(A, B)] stores for
    every stored entry of [A], marked by a one: when [B] is fairly dense
    ([2 * nnz(B) >= B.size]) and not zero, [kron] builds dense blocks and
    the whole of [B] is stored, its zeros included; otherwise only the
    nonzero entries of [B] are. *)
Definition kron_stored (B : matrix) : matrix :=
  if Nat.leb (Np.nrows B * Np.ncols B) (2 * Np.count_nonzero B)
     && negb (Nat.eqb (Np.count_nonzero B) 0)
  then Np.ones2 (Np.nrows B) (Np.ncols B)
  else support B.

End Sp.

(** ** NonlinearMPCController *)

Module NonlinearMPC.

(** The dynamics contract: dimensions, whether the object is a
    [BilinearLiftedDynamics] (then it carries an output matrix), and
    [get_linearization(z, z_next, u, None)]. *)
Record Dynamics : Type := {
  dyn_n : nat;
  dyn_m : nat;
  is_bilinear_lifted : bool;
  dyn_C : matrix;
  get_linearization : vec -> vec -> vec -> matrix * matrix * vec
}.

(** What the solver is given at [setup] and at each [update]. *)
Record qp_setup : Type := {
  setup_P : matrix; setup_q : vec; setup_A : matrix; setup_l : vec; setup_u : vec
}.
Record qp_update : Type := {
  update_q : vec; update_Ax : vec; update_l : vec; update_u : vec
}.

(** The solver workspace: the problem of [setup] and the updates since,
    oldest first.  [solve] maps a workspace to [res.x]; warm starts make the
    answer depend on the whole history. *)
Record Osqp : Type := { problem : qp_setup; updates : list qp_update }.

(** The arguments of [__init__] read by the methods below, and the solver
    in use. *)
Record config : Type := {
  dynamics_object : Dynamics;
  N : nat;
  umin : vec; umax : vec; xmin : vec; xmax : vec;
  Q : matrix; R : matrix; QN : matrix;
  xr : vec;
  terminal_constraint : bool;
  solve : Osqp -> vec
}.

Definition nx (cfg : config) : nat := dyn_n (dynamics_object cfg).
Definition nu (cfg : config) : nat := dyn_m (dynamics_object cfg).
Definition ns (cfg : config) : nat := length (xr cfg).
Definition C (cfg : config) : matrix :=
  if is_bilinear_lifted (dynamics_object cfg)
  then dyn_C (dynamics_object cfg)
  else Np.eye (nx cfg).

(** The attributes the methods assign. [osqp_A_data] and [prob] are [None]
    until [construct_controller] has run. *)
Record state : Type := {
  x_iter : list matrix;
  u_iter : list matrix;
  cur_z : matrix;
  cur_u : matrix;
  osqp_P : matrix;
  osqp_q : vec;
  osqp_A : matrix;
  osqp_l : vec;
  osqp_u : vec;
  osqp_A_data : option vec;
  osqp_A_data_A_inds : list nat;
  osqp_A_data_B_inds : list nat;
  prob : option Osqp;
  res_x : vec
}.

(** The state after [__init__]. *)
Definition init : state :=
  {| x_iter := []; u_iter := []; cur_z := []; cur_u := [];
     osqp_P := []; osqp_q := []; osqp_A := []; osqp_l := []; osqp_u := [];
     osqp_A_data := None; osqp_A_data_A_inds := []; osqp_A_data_B_inds := [];
     prob := None; res_x := [] |}.

Definition set_objective (st : state) (P : matrix) (q : vec) : state :=
  {| x_iter := x_iter st; u_iter := u_iter st; cur_z := cur_z st; cur_u := cur_u st;
     osqp_P := P; osqp_q := q; osqp_A := osqp_A st;
     osqp_l := osqp_l st; osqp_u := osqp_u st;
     osqp_A_data := osqp_A_data st;
     osqp_A_data_A_inds := osqp_A_data_A_inds st;
     osqp_A_data_B_inds := osqp_A_data_B_inds st;
     prob := prob st; res_x := res_x st |}.

Definition set_bounds (st : state) (l u : vec) : state :=
  {| x_iter := x_iter st; u_iter := u_iter st; cur_z := cur_z st; cur_u := cur_u st;
     osqp_P := osqp_P st; osqp_q := osqp_q st; osqp_A := osqp_A st;
     osqp_l := l; osqp_u := u;
     osqp_A_data := osqp_A_data st;
     osqp_A_data_A_inds := osqp_A_data_A_inds st;
     osqp_A_data_B_inds := osqp_A_data_B_inds st;
     prob := prob st; res_x := res_x st |}.

Definition set_matrix (st : state) (A : matrix) : state :=
  {| x_iter := x_iter st; u_iter := u_iter st; cur_z := cur_z st; cur_u := cur_u st;
     osqp_P := osqp_P st; osqp_q := osqp_q st; osqp_A := A;
     osqp_l := osqp_l st; osqp_u := osqp_u st;
     osqp_A_data := osqp_A_data st;
     osqp_A_data_A_inds := osqp_A_data_A_inds st;
     osqp_A_data_B_inds := osqp_A_data_B_inds st;
     prob := prob st; res_x := res_x st |}.

Definition set_data (st : state) (data : vec) (A_inds B_inds : list nat) : state :=
  {| x_iter := x_iter st; u_iter := u_iter st; cur_z := cur_z st; cur_u := cur_u st;
     osqp_P := osqp_P st; osqp_q := osqp_q st; osqp_A := osqp_A st;
     osqp_l := osqp_l st; osqp_u := osqp_u st;
     osqp_A_data := Some data;
     osqp_A_data_A_inds := A_inds;
     osqp_A_data_B_inds := B_inds;
     prob := prob st; res_x := res_x st |}.

Definition set_solver (st : state) (p : Osqp) (x : vec) : state :=
  {| x_iter := x_iter st; u_iter := u_iter st; cur_z := cur_z st; cur_u := cur_u st;
     osqp_P := osqp_P st; osqp_q := osqp_q st; osqp_A := osqp_A st;
     osqp_l := osqp_l st; osqp_u := osqp_u st;
     osqp_A_data := osqp_A_data st;
     osqp_A_data_A_inds := osqp_A_data_A_inds st;
     osqp_A_data_B_inds := osqp_A_data_B_inds st;
     prob := Some p; res_x := x |}.

Definition set_guess (st : state) (z u : matrix) : state :=
  {| x_iter := x_iter st; u_iter := u_iter st; cur_z := z; cur_u := u;
     osqp_P := osqp_P st; osqp_q := osqp_q st; osqp_A := osqp_A st;
     osqp_l := osqp_l st; osqp_u := osqp_u st;
     osqp_A_data := osqp_A_data st;
     osqp_A_data_A_inds := osqp_A_data_A_inds st;
     osqp_A_data_B_inds := osqp_A_data_B_inds st;
     prob := prob st; res_x := res_x st |}.

Definition log_iter (st : state) : state :=
  {| x_iter := x_iter st ++ [Np.T (cur_z st)];
     u_iter := u_iter st ++ [Np.T (cur_u st)];
     cur_z := cur_z st; cur_u := cur_u st;
     osqp_P := osqp_P st; osqp_q := osqp_q st; osqp_A := osqp_A st;
     osqp_l := osqp_l st; osqp_u := osqp_u st;
     osqp_A_data := osqp_A_data st;
     osqp_A_data_A_inds := osqp_A_data_A_inds st;
     osqp_A_data_B_inds := osqp_A_data_B_inds st;
     prob := prob st; res_x := res_x st |}.

(** [M - v.reshape(-1, 1)]: the vector is subtracted from every column. *)
Definition sub_col (M : matrix) (v : vec) : matrix :=
  Np.zip_with (fun row x => map (fun e => (e - x)%Z) row) M v.

(** The linear objective shared by [construct_objective_] and
    [update_objective_]. *)
Definition linear_objective (cfg : config) (z_init u_init : matrix) : vec :=
  let Ct := Np.T (C cfg) in
  Np.flatten_F
    (Np.matmul Ct (Np.matmul (Q cfg)
       (sub_col (Np.matmul (C cfg) (Np.T (removelast z_init))) (xr cfg))))
  ++ Np.matvec Ct (Np.matvec (QN cfg)
       (Np.vsub (Np.matvec (C cfg) (last z_init [])) (xr cfg)))
  ++ Np.flatten_F (Np.matmul (R cfg) (Np.T u_init)).

(** [construct_objective_(z_init, u_init)]. *)
Definition construct_objective_ (cfg : config) (st : state) (z_init u_init : matrix) : state :=
  let Ct := Np.T (C cfg) in
  let P :=
    Sp.block_diag
      [Sp.kron (Sp.eye (N cfg)) (Np.matmul Ct (Np.matmul (Q cfg) (C cfg)));
       Np.matmul Ct (Np.matmul (QN cfg) (C cfg));
       Sp.kron (Sp.eye (N cfg)) (R cfg)] in
  set_objective st P (linear_objective cfg z_init u_init).

(** [update_objective_(z_init, u_init)]. *)
Definition update_objective_ (cfg : config) (st : state) (z_init u_init : matrix) : state :=
  set_objective st (osqp_P st) (linear_objective cfg z_init u_init).

(** [construct_constraint_matrix_(A_lst, B_lst)]. *)
Definition constraint_matrix (cfg : config) (A_lst B_lst : list matrix) : matrix :=
  let n := nx cfg in
  let k := N cfg in
  let A_dyn :=
    Sp.vstack [Sp.empty n ((k + 1) * n);
               Sp.hstack [Sp.block_diag A_lst; Sp.empty (k * n) n]] in
  let Ax := Sp.add (Sp.neg (Sp.eye ((k + 1) * n))) A_dyn in
  let Bu := Sp.vstack [Sp.empty n (k * nu cfg); Sp.block_diag B_lst] in
  let Aeq := Sp.hstack [Ax; Bu] in
  let Aineq_u := Sp.hstack [Sp.empty (k * nu cfg) ((k + 1) * n); Sp.eye (k * nu cfg)] in
  let Aineq_x :=
    Sp.hstack [Sp.kron (Sp.eye (k + 1)) (C cfg);
               Sp.empty ((k + 1) * ns cfg) (k * nu cfg)] in
  Sp.vstack [Aeq; Aineq_u; Aineq_x].

Definition construct_constraint_matrix_ (cfg : config) (st : state)
    (A_lst B_lst : list matrix) : state :=
  set_matrix st (constraint_matrix cfg A_lst B_lst).

(** [a[-k:] = v] for [v] as long as the slice (the whole of [a] when
    [k = 0]). *)
Definition assign_tail (k : nat) (a v : vec) : vec :=
  if Nat.eqb k 0 then v else firstn (length a - k) a ++ v.

(** [a[-k:]]. *)
Definition tail_slice (k : nat) (a : vec) : vec :=
  if Nat.eqb k 0 then a else skipn (length a - k) a.

(** [construct_constraint_vecs_(z, t, z_init, u_init, r_lst)]. *)
Definition constraint_vecs (cfg : config) (z : vec) (z_init u_init : matrix)
    (r_lst : list vec) : vec * vec :=
  let dz0 := Np.vsub z (nth 0 z_init []) in
  let r_vec := Np.flatten r_lst in
  let leq := Np.vneg dz0 ++ Np.vneg r_vec in
  let ueq := leq in
  let lineq_u := Np.vsub (Np.tile (umin cfg) (N cfg)) (Np.flatten u_init) in
  let uineq_u := Np.vsub (Np.tile (umax cfg) (N cfg)) (Np.flatten u_init) in
  let Cz := Np.flatten_F (Np.matmul (C cfg) (Np.T z_init)) in
  let lineq_x := Np.vsub (Np.tile (xmin cfg) (N cfg + 1)) Cz in
  let uineq_x := Np.vsub (Np.tile (xmax cfg) (N cfg + 1)) Cz in
  let lineq_x' :=
    if terminal_constraint cfg
    then assign_tail (ns cfg) lineq_x
           (Np.vsub (xr cfg) (Np.matvec (C cfg) (last z_init [])))
    else lineq_x in
  let uineq_x' :=
    if terminal_constraint cfg
    then assign_tail (ns cfg) uineq_x (tail_slice (ns cfg) lineq_x')
    else uineq_x in
  (leq ++ lineq_u ++ lineq_x', ueq ++ uineq_u ++ uineq_x').

Definition construct_constraint_vecs_ (cfg : config) (st : state) (z : vec)
    (z_init u_init : matrix) (r_lst : list vec) : state :=
  let lu := constraint_vecs cfg z z_init u_init r_lst in
  set_bounds st (fst lu) (snd lu).

(** The nonzero entries of column [i] of [C], for [i] in [range(nx)]. *)
Definition C_data (cfg : config) : list vec :=
  map (fun i => filter (fun e => negb (Z.eqb e 0)) (Np.column i (C cfg)))
      (seq 0 (nx cfg)).

(** The accumulators of the loops of [construct_constraint_matrix_data_]:
    the pieces of [data], the index ranges, and the running start index. *)
Definition acc : Type := (list vec * list (list nat) * nat)%type.

(** Lines 186-190: the state columns of the stages [0 .. N-1]. *)
Definition state_columns (cfg : config) (A_lst : list matrix) (a0 : acc) : acc :=
  fold_left
    (fun a t =>
       fold_left
         (fun (a : acc) i =>
            let '(data, A_inds, start_ind_A) := a in
            let cd := nth i (C_data cfg) [] in
            (data ++ [[(-1)%Z] ++ Np.column i (nth t A_lst []) ++ cd],
             A_inds ++ [seq start_ind_A (nx cfg)],
             start_ind_A + nx cfg + 1 + length cd))
         (seq 0 (nx cfg)) a)
    (seq 0 (N cfg)) a0.

(** Lines 192-193: the state columns of the last stage. *)
Definition final_columns (cfg : config) (data : list vec) : list vec :=
  fold_left (fun data i => data ++ [[(-1)%Z] ++ nth i (C_data cfg) []])
            (seq 0 (nx cfg)) data.

(** Lines 198-202: the input columns. *)
Definition input_columns (cfg : config) (B_lst : list matrix) (a0 : acc) : acc :=
  fold_left
    (fun a t =>
       fold_left
         (fun (a : acc) i =>
            let '(data, B_inds, start_ind_B) := a in
            (data ++ [Np.column i (nth t B_lst []) ++ [1%Z]],
             B_inds ++ [seq start_ind_B (nx cfg)],
             start_ind_B + nx cfg + 1))
         (seq 0 (nu cfg)) a)
    (seq 0 (N cfg)) a0.

(** [construct_constraint_matrix_data_(A_lst, B_lst)]: the flat data and
    the two index lists. *)
Definition constraint_matrix_data (cfg : config) (A_lst B_lst : list matrix)
    : vec * list nat * list nat :=
  let '(data, A_inds, start_ind_A) := state_columns cfg A_lst ([], [], 1) in
  let data := final_columns cfg data in
  let start_ind_B := start_ind_A + nx cfg + Np.count_nonzero (C cfg) - 1 in
  let '(data, B_inds, _) := input_columns cfg B_lst (data, [], start_ind_B) in
  (concat data, concat A_inds, concat B_inds).

Definition construct_constraint_matrix_data_ (cfg : config) (st : state)
    (A_lst B_lst : list matrix) : state :=
  let '(data, A_inds, B_inds) := constraint_matrix_data cfg A_lst B_lst in
  set_data st data A_inds B_inds.

(** [data[i] = v] for one position. *)
Fixpoint store (i : nat) (v : Z) (data : vec) : vec :=
  match data, i with
  | [], _ => []
  | _ :: rest, 0 => v :: rest
  | d :: rest, S i' => d :: store i' v rest
  end.

(** [data[inds] = vals] with an index list: one store per index, in
    order; an index out of range raises. *)
Fixpoint store_all (inds : list nat) (vals : vec) (data : vec) : result vec :=
  match inds, vals with
  | i :: inds', v :: vals' =>
      if Nat.ltb i (length data)
      then store_all inds' vals' (store i v data)
      else Raise IndexError
  | _, _ => Ok data
  end.

(** [data[inds] = vals]: a single value is broadcast to every index, any
    other length has to agree with the number of indices. *)
Definition assign_at (inds : list nat) (vals : vec) (data : vec) : result vec :=
  match vals with
  | [v] => store_all inds (repeat v (length inds)) data
  | _ =>
      if Nat.eqb (length inds) (length vals)
      then store_all inds vals data
      else Raise ValueError
  end.

(** [np.hstack(lst).flatten(order='F')]; an empty list raises. *)
Definition hstack_flatten_F (lst : list matrix) : result vec :=
  match lst with
  | [] => Raise ValueError
  | _ :: _ => Ok (Np.flatten_F (Sp.hstack lst))
  end.

(** [update_constraint_matrix_data_(A_lst, B_lst)]. *)
Definition update_data (A_inds B_inds : list nat) (A_lst B_lst : list matrix)
    (data : vec) : result vec :=
  a_vals <- hstack_flatten_F A_lst ;;
  data <- assign_at A_inds a_vals data ;;
  b_vals <- hstack_flatten_F B_lst ;;
  assign_at B_inds b_vals data.

Definition update_constraint_matrix_data_ (st : state) (A_lst B_lst : list matrix)
    : result state :=
  match osqp_A_data st with
  | None => Raise AttributeError
  | Some data =>
      data' <- update_data (osqp_A_data_A_inds st) (osqp_A_data_B_inds st) A_lst B_lst data ;;
      Ok (set_data st data' (osqp_A_data_A_inds st) (osqp_A_data_B_inds st))
  end.

(** [solve_mpc_()]: hands the current numeric data to the solver, solves,
    and splits the solution into [dz] ([nx] by [N+1]) and [du] ([nu] by [N]);
    the two [reshape] calls raise unless the solution has
    [(N+1) * nx + N * nu] entries. *)
Definition solve_mpc_ (cfg : config) (st : state) : result (state * matrix * matrix) :=
  match prob st, osqp_A_data st with
  | Some p, Some data =>
      let p' :=
        {| problem := problem p;
           updates := updates p ++
             [{| update_q := osqp_q st; update_Ax := data;
                 update_l := osqp_l st; update_u := osqp_u st |}] |} in
      let x := solve cfg p' in
      let k := (N cfg + 1) * nx cfg in
      if Nat.eqb (length x) (k + N cfg * nu cfg) then
        let dz := Np.reshape_F (nx cfg) (N cfg + 1) (firstn k x) in
        let du := Np.reshape_F (nu cfg) (N cfg) (skipn k x) in
        Ok (set_solver st p' x, dz, du)
      else Raise ValueError
  | _, _ => Raise AttributeError
  end.

(** [construct_controller(z_init, u_init)]. *)
Definition construct_controller (cfg : config) (st : state) (z_init u_init : matrix) : state :=
  let z0 := nth 0 z_init [] in
  let A_lst := repeat (Np.ones2 (nx cfg) (nx cfg)) (N cfg) in
  let B_lst := repeat (Np.ones2 (nx cfg) (nu cfg)) (N cfg) in
  let r_lst := repeat (Np.ones (nx cfg)) (N cfg) in
  let st := construct_objective_ cfg st z_init u_init in
  let st := construct_constraint_vecs_ cfg st z0 z_init u_init r_lst in
  let st := construct_constraint_matrix_ cfg st A_lst B_lst in
  let st := construct_constraint_matrix_data_ cfg st A_lst B_lst in
  let p :=
    {| problem :=
         {| setup_P := osqp_P st; setup_q := osqp_q st; setup_A := osqp_A st;
            setup_l := osqp_l st; setup_u := osqp_u st |};
       updates := [] |} in
  set_solver st p (res_x st).

(** The controller [cfg] with [Cm] as its output matrix. *)
Definition with_C (cfg : config) (Cm : matrix) : config :=
  {| dynamics_object :=
       {| dyn_n := nx cfg; dyn_m := nu cfg; is_bilinear_lifted := true; dyn_C := Cm;
          get_linearization := get_linearization (dynamics_object cfg) |};
     N := N cfg;
     umin := umin cfg; umax := umax cfg; xmin := xmin cfg; xmax := xmax cfg;
     Q := Q cfg; R := R cfg; QN := QN cfg;
     xr := xr cfg;
     terminal_constraint := terminal_constraint cfg;
     solve := solve cfg |}.

(** The entries [_osqp_A] stores, marked by a nonzero value: the matrix
    [construct_controller] has [construct_constraint_matrix_] build from
    blocks of ones, with the entries of [C] that [sparse.kron] stores.  The
    solver is set up with this pattern and reads every later [Ax] update
    against it. *)
Definition stored_pattern (cfg : config) : matrix :=
  constraint_matrix (with_C cfg (Sp.kron_stored (C cfg)))
    (repeat (Np.ones2 (nx cfg) (nx cfg)) (N cfg))
    (repeat (Np.ones2 (nx cfg) (nu cfg)) (N cfg)).

(** [zip(z_init[:-1, :], z_init[1:, :], u_init)]. *)
Definition stages (z_init u_init : matrix) : list (vec * vec * vec) :=
  combine (combine (removelast z_init) (tl z_init)) u_init.

(** Lines 88-111: the body of the loop of [solve_to_convergence], without
    the counter. *)
Definition iteration (cfg : config) (z : vec) (st : state) : result state :=
  let z_init := cur_z st in
  let u_init := cur_u st in
  let lin :=
    map (fun s => get_linearization (dynamics_object cfg) (fst (fst s)) (snd (fst s)) (snd s))
        (stages z_init u_init) in
  let A_lst := map (fun l => fst (fst l)) lin in
  let B_lst := map (fun l => snd (fst l)) lin in
  let r_lst := map snd lin in
  let st := update_objective_ cfg st z_init u_init in
  let st := construct_constraint_vecs_ cfg st z z_init u_init r_lst in
  st <- update_constraint_matrix_data_ st A_lst B_lst ;;
  sol <- solve_mpc_ cfg st ;;
  let '(st, dz, du) := sol in
  let st := set_guess st (Np.madd z_init (Np.T dz)) (Np.madd u_init (Np.T du)) in
  Ok (log_iter st).

(** The loop of [solve_to_convergence]; [norm] is [np.linalg.norm], whose
    value is a float: NaN when the array holds a NaN, and then the test
    [norm > eps] is [False].  The counter only grows and the loop stops at
    [max_iter], so the recursion is on a bound of the iterations left;
    [None] stands for an exhausted bound. The result carries the final
    value of the counter [iter]. *)
Fixpoint loop (norm : matrix -> pyfloat) (cfg : config) (z : vec) (eps : pyfloat)
    (max_iter : nat) (left : nat) (iter : nat) (u_prev : matrix) (st : state)
    : option (result (state * nat)) :=
  if (Nat.eqb iter 0 || float_gt (norm (Np.msub u_prev (cur_u st))) eps)
       && Nat.ltb iter max_iter
  then
    match left with
    | 0 => None
    | S left' =>
        let u_prev := cur_u st in
        match iteration cfg z st with
        | Ok st' => loop norm cfg z eps max_iter left' (iter + 1) u_prev st'
        | Raise e => Some (Raise e)
        end
    end
  else Some (Ok (st, iter)).

(** [solve_to_convergence(z, t, z_init_0, u_init_0, eps=1e-3, max_iter=1)]. *)
Definition solve_to_convergence (norm : matrix -> pyfloat) (cfg : config) (st : state)
    (z : vec) (z_init_0 u_init_0 : matrix) (eps : option pyfloat) (max_iter : option nat)
    : option (result (state * nat)) :=
  let eps := match eps with Some e => e | None => Num (1 # 1000) end in
  let max_iter := match max_iter with Some k => k | None => 1 end in
  let st := set_guess st z_init_0 u_init_0 in
  let u_prev := map (fun r => Np.zeros (length r)) u_init_0 in
  loop norm cfg z eps max_iter max_iter 0 u_prev st.

(** [get_state_prediction()] and [get_control_prediction()]. *)
Definition get_state_prediction (st : state) : matrix := cur_z st.
Definition get_control_prediction (st : state) : matrix := cur_u st.

End NonlinearMPC.

(** ** BilinearMpcController *)

Module BilinearMpc.

(** The bilinear dynamics contract as [eval] uses it. *)
Record BilinearDynamics : Type := {
  F : matrix;
  Cx : matrix;
  phi_fun : vec -> vec;
  eval_dot : vec -> vec -> rational -> vec;
  act : vec -> rational -> matrix
}.

(** The values of the parameters of the cvxpy problem. *)
Record params : Type := {
  eta_z_init : vec;
  eta_z_d : vec;
  zd : vec;
  zd_dot : vec;
  zd_ddot : vec
}.

(** The arguments of [__init__] read by [eval], the embedded QP solver and
    [np.linalg.solve].  The problem object keeps the parameter values it
    was solved with, oldest first; [solve_qp] maps them to the status and
    to the value of [variables()[1]] (warm starts make the answer depend
    on the whole history). *)
Record config : Type := {
  n_lift : nat;
  bilinear_dynamics : BilinearDynamics;
  set_pt : vec;
  solve_qp : list params -> string * matrix;
  linalg_solve : matrix -> vec -> result vec
}.

(** The calls to the two solvers, in the order they are made. *)
Inductive call : Type :=
| SolveQP (p : params)
| LinalgSolve (a : matrix) (b : vec).

(** The attributes [eval] assigns, and the log of solver calls. [mpc_prob]
    is [None] until [construct_controller] has run. *)
Record state : Type := {
  mpc_prob : option (list params);
  status : string;
  u_prev : vec;
  calls : list call
}.

(** The state after [__init__] for [m] controls. *)
Definition init (m : nat) : state :=
  {| mpc_prob := None; status := ""; u_prev := Np.zeros m; calls := [] |}.

(** [construct_controller()]: the static problem is built, nothing is
    solved yet. *)
Definition construct_controller (st : state) : state :=
  {| mpc_prob := Some []; status := status st; u_prev := u_prev st; calls := calls st |}.

(** [eval(x, t)]: the outcome (the control action or the exception) and
    the state left behind. *)
Definition eval (cfg : config) (st : state) (x : vec) (t : rational)
    : result vec * state :=
  match mpc_prob st with
  | None => (Raise AttributeError, st)
  | Some history =>
      let dyn := bilinear_dynamics cfg in
      let zd := phi_fun dyn (set_pt cfg) in
      let zd_dot := Np.zeros (n_lift cfg) in
      let zd_ddot := Np.zeros (n_lift cfg) in
      let z := phi_fun dyn x in
      let z_dot := eval_dot dyn z (u_prev st) t in
      let p :=
        {| eta_z_init := Np.vsub z zd ++ Np.vsub z_dot zd_dot;
           eta_z_d := zd ++ zd_dot;
           zd := zd; zd_dot := zd_dot; zd_ddot := zd_ddot |} in
      let history' := history ++ [p] in
      let '(stat, value) := solve_qp cfg history' in
      let st1 :=
        {| mpc_prob := Some history'; status := stat; u_prev := u_prev st;
           calls := calls st ++ [SolveQP p] |} in
      if String.eqb stat "optimal" then
        let nu := Np.column 0 value in
        let a := Np.matmul (Np.matmul (Cx dyn) (F dyn)) (act dyn z t) in
        let b :=
          Np.matvec (Cx dyn)
            (Np.vadd (Np.vsub zd_ddot (Np.matvec (Np.matmul (F dyn) (F dyn)) zd)) nu) in
        let st2 :=
          {| mpc_prob := Some history'; status := stat; u_prev := u_prev st;
             calls := calls st1 ++ [LinalgSolve a b] |} in
        match linalg_solve cfg a b with
        | Ok u =>
            (Ok u,
             {| mpc_prob := Some history'; status := stat; u_prev := u;
                calls := calls st2 |})
        | Raise e => (Raise e, st2)
        end
      else (Raise (AssertionError "MPC not solved to optimality"), st1)
  end.

End BilinearMpc.

(** ** BilinearEdmd.process *)

Module BilinearEdmdProcess.
Import BilinearEdmd.







End BilinearEdmdProcess.

(** ** util.KoopPdOutput *)

Module Util.

(** The fields of a [KoopPdOutput] read by its two methods: the set point
    [xd] and the state dimension [n]. *)
Record KoopPdOutput : Type := { xd : vec; n : nat }.

(** [a - b] for 1-D arrays: entry by entry when the lengths agree, an
    array of length one is broadcast, any other pair of lengths raises. *)
Definition np_sub (a b : vec) : result vec :=
  if Nat.eqb (length a) (length b) then Ok (Np.vsub a b)
  else
    match a, b with
    | [x], _ => Ok (map (fun y => (x - y)%Z) b)
    | _, [y] => Ok (map (fun x => (x - y)%Z) a)
    | _, _ => Raise ValueError
    end.

(** [proportional(x, t)]: the position error. *)
Definition proportional (self : KoopPdOutput) (x : vec) (t : rational) : result vec :=
  let q := firstn (n self / 2) x in
  let q_d := firstn (n self / 2) (xd self) in
  np_sub q q_d.

(** [derivative(x, t)]: the velocity error. *)
Definition derivative (self : KoopPdOutput) (x : vec) (t : rational) : result vec :=
  let q_dot := skipn (n self / 2) x in
  let q_dot_d := skipn (n self / 2) (xd self) in
  np_sub q_dot q_dot_d.

End Util.

(** * Properties *)

(** ** Arrays *)

Module NpFacts.
Import Np.

Lemma length_zeros (k : nat) : length (zeros k) = k.
Proof. apply repeat_length. Qed.

Lemma nth_zeros (k j : nat) : nth j (zeros k) 0%Z = 0%Z.
Proof.
  unfold zeros. revert j. induction k as [|k IH]; intros [|j]; simpl; auto.
Qed.

Lemma nth_map_seq {X : Type} (f : nat -> X) (d : X) (a k j : nat) :
  j < k -> nth j (map f (seq a k)) d = f (a + j).
Proof.
  revert a j. induction k as [|k IH]; intros a [|j] Hj; simpl; try lia.
  - now rewrite Nat.add_0_r.
  - rewrite IH by lia. f_equal. lia.
Qed.

Lemma length_unit_row (k i : nat) : length (unit_row k i) = k.
Proof. unfold unit_row. now rewrite length_map, length_seq. Qed.

Lemma nth_unit_row (k i j : nat) :
  j < k -> nth j (unit_row k i) 0%Z = if Nat.eqb i j then 1%Z else 0%Z.
Proof.
  intros Hj. unfold unit_row. now rewrite nth_map_seq.
Qed.

Lemma length_eye (k : nat) : length (eye k) = k.
Proof. unfold eye. now rewrite length_map, length_seq. Qed.

Lemma nth_eye (k i : nat) : i < k -> nth i (eye k) [] = unit_row k i.
Proof.
  intros Hi. unfold eye. now rewrite nth_map_seq.
Qed.

Lemma length_zeros2 (r c : nat) : length (zeros2 r c) = r.
Proof. apply repeat_length. Qed.

Lemma nth_zeros2 (r c i : nat) : i < r -> nth i (zeros2 r c) [] = zeros c.
Proof.
  unfold zeros2. revert i. induction r as [|r IH]; intros [|i] Hi; simpl; try lia; auto.
  apply IH. lia.
Qed.

Lemma length_hcat2 (M1 M2 : matrix) :
  length (hcat2 M1 M2) = Nat.min (length M1) (length M2).
Proof.
  revert M2. induction M1 as [|r1 M1 IH]; intros [|r2 M2]; simpl; auto.
Qed.

Lemma nth_hcat2 (M1 M2 : matrix) (i : nat) :
  i < length M1 -> i < length M2 ->
  nth i (hcat2 M1 M2) [] = nth i M1 [] ++ nth i M2 [].
Proof.
  revert M2 i. induction M1 as [|r1 M1 IH]; intros [|r2 M2] [|i]; simpl; intros; try lia; auto.
  apply IH; lia.
Qed.

Lemma length_zip_with {X Y W : Type} (f : X -> Y -> W) (a : list X) (b : list Y) :
  length (zip_with f a b) = Nat.min (length a) (length b).
Proof.
  revert b. induction a as [|x a IH]; intros [|y b]; simpl; auto.
Qed.

Lemma nth_zip_with {X Y W : Type} (f : X -> Y -> W) (a : list X) (b : list Y)
    (i : nat) (dx : X) (dy : Y) (dw : W) :
  i < length a -> i < length b ->
  nth i (zip_with f a b) dw = f (nth i a dx) (nth i b dy).
Proof.
  revert b i. induction a as [|x a IH]; intros [|y b] [|i]; simpl; intros; try lia; auto.
  apply IH; lia.
Qed.

Lemma nth_map_lt {X Y : Type} (f : X -> Y) (l : list X) (i : nat) (dx : X) (dy : Y) :
  i < length l -> nth i (map f l) dy = f (nth i l dx).
Proof.
  revert i. induction l as [|x l IH]; intros [|i]; simpl; intros; try lia; auto.
  apply IH; lia.
Qed.

Lemma zip_with_repeat_r {X Y W : Type} (f : X -> Y -> W) (a : list X) (y : Y) :
  zip_with f a (repeat y (length a)) = map (fun x => f x y) a.
Proof. induction a as [|x a IH]; simpl; congruence. Qed.

Lemma concat_repeat_singleton {X : Type} (x : X) (k : nat) :
  concat (repeat [x] k) = repeat x k.
Proof. induction k as [|k IH]; simpl; congruence. Qed.

(** Block [j] of a concatenation of blocks of length [L]. *)
Lemma skipn_concat_blocks {X : Type} (L : nat) (bs : list (list X)) (j : nat) :
  Forall (fun b => length b = L) bs ->
  skipn (j * L) (concat bs) = concat (skipn j bs).
Proof.
  intros H. revert j. induction H as [|b bs Hb Hbs IH]; intros [|j]; simpl; auto.
  - apply skipn_nil.
  - rewrite skipn_app, <- Hb.
    rewrite (skipn_all2 b) by lia.
    replace (length b + j * length b - length b) with (j * length b) by lia.
    rewrite Hb. simpl. apply IH.
Qed.

Lemma block_of_concat {X : Type} (L : nat) (bs : list (list X)) (j : nat) :
  Forall (fun b => length b = L) bs ->
  j < length bs ->
  firstn L (skipn (j * L) (concat bs)) = nth j bs [].
Proof.
  intros H Hj. rewrite skipn_concat_blocks by assumption.
  revert j Hj. induction H as [|b bs Hb Hbs IH]; intros [|j] Hj; simpl in *; try lia.
  - rewrite firstn_app, <- Hb, firstn_all, Nat.sub_diag. simpl. apply app_nil_r.
  - apply IH. lia.
Qed.

Lemma length_concat_blocks {X : Type} (L : nat) (bs : list (list X)) :
  Forall (fun b => length b = L) bs -> length (concat bs) = length bs * L.
Proof.
  induction 1 as [|b bs Hb Hbs IH]; simpl; auto.
  rewrite length_app, IH, Hb. reflexivity.
Qed.

Lemma fold_left_snoc {X Y : Type} (f : Y -> X) (l : list Y) (acc : list X) :
  fold_left (fun a y => a ++ [f y]) l acc = acc ++ map f l.
Proof.
  revert acc. induction l as [|y l IH]; intros acc; simpl.
  - now rewrite app_nil_r.
  - rewrite IH, <- app_assoc. reflexivity.
Qed.

Lemma zip_with_app {X Y W : Type} (f : X -> Y -> W) (a1 a2 : list X) (b1 b2 : list Y) :
  length a1 = length b1 ->
  zip_with f (a1 ++ a2) (b1 ++ b2) = zip_with f a1 b1 ++ zip_with f a2 b2.
Proof.
  revert b1. induction a1 as [|x a1 IH]; intros [|y b1] H; simpl in *; try discriminate; auto.
  f_equal. apply IH. lia.
Qed.

Lemma map_nth_seq {X : Type} (l : list X) (d : X) :
  map (fun i => nth i l d) (seq 0 (length l)) = l.
Proof.
  induction l as [|x l IH]; simpl; auto.
  f_equal. rewrite <- seq_shift, map_map. exact IH.
Qed.

Lemma map_f_nth_seq {X Y : Type} (f : X -> Y) (l : list X) (d : X) :
  map (fun i => f (nth i l d)) (seq 0 (length l)) = map f l.
Proof.
  induction l as [|x l IH]; simpl; auto.
  f_equal. rewrite <- seq_shift, map_map. exact IH.
Qed.

Lemma concat_all_nil {X Y : Type} (l : list Y) :
  concat (map (fun _ => @nil X) l) = [].
Proof. induction l; simpl; auto. Qed.

Lemma ncols_rows (w : nat) (M : matrix) :
  Forall (fun r => length r = w) M -> M <> [] -> ncols M = w.
Proof.
  intros H Hne. destruct M as [|r M]; [congruence|].
  unfold ncols. simpl. now inversion H.
Qed.

Lemma length_column (j : nat) (M : matrix) : length (column j M) = length M.
Proof. apply length_map. Qed.

Lemma column_app (j : nat) (M1 M2 : matrix) :
  column j (M1 ++ M2) = column j M1 ++ column j M2.
Proof. apply map_app. Qed.

(** Column [j] of the transpose is row [j]. *)
Lemma column_T (w : nat) (M : matrix) (j : nat) :
  Forall (fun r => length r = w) M -> j < length M ->
  column j (T M) = nth j M [].
Proof.
  intros H Hj. unfold T.
  rewrite (@ncols_rows w M H) by (intros ->; simpl in Hj; lia).
  unfold column at 1. rewrite map_map.
  assert (Hw : length (nth j M []) = w).
  { rewrite Forall_forall in H. apply H, nth_In, Hj. }
  transitivity (map (fun i => nth i (nth j M []) 0%Z) (seq 0 w)).
  - apply map_ext. intros i. unfold column.
    now rewrite nth_map_lt with (dx := []).
  - rewrite <- Hw. apply map_nth_seq.
Qed.

(** [(C @ Z.T).flatten(order='F')] lists [C @ z] for the rows [z] of [Z]. *)
Lemma flatten_F_matmul_T (w : nat) (Cm Zm : matrix) :
  0 < w -> Forall (fun r => length r = w) Zm ->
  flatten_F (matmul Cm (T Zm)) = concat (map (matvec Cm) Zm).
Proof.
  intros Hw HZ. destruct Cm as [|c Cm].
  - unfold flatten_F, matmul, T, matvec. simpl. symmetry. apply concat_all_nil.
  - assert (Hn : ncols (T Zm) = length Zm).
    { unfold T. destruct Zm as [|z0 Zm]; [reflexivity|].
      rewrite (@ncols_rows w (z0 :: Zm) HZ) by discriminate.
      destruct w as [|w]; [lia|]. unfold ncols. simpl. now rewrite length_column. }
    unfold flatten_F. f_equal.
    unfold T at 1.
    assert (Hc : ncols (matmul (c :: Cm) (T Zm)) = length Zm).
    { unfold matmul, ncols. simpl. now rewrite length_map, length_seq. }
    rewrite Hc. rewrite <- (map_f_nth_seq (matvec (c :: Cm)) Zm []).
    apply map_ext_in. intros t Ht. apply in_seq in Ht.
    unfold column at 1, matmul, matvec. rewrite map_map.
    apply map_ext. intros r. rewrite Hn.
    rewrite nth_map_seq by lia. simpl.
    now rewrite (@column_T w) by (auto; lia).
Qed.

(** [np.tile(a, k) - concatenation of k blocks]. *)
Lemma vsub_tile_concat (a : vec) (bs : list vec) :
  Forall (fun b => length b = length a) bs ->
  vsub (tile a (length bs)) (concat bs) = concat (map (vsub a) bs).
Proof.
  unfold tile, vsub. induction 1 as [|b bs Hb Hbs IH]; simpl; auto.
  rewrite zip_with_app by auto. now rewrite IH.
Qed.

Lemma length_vsub (a b : vec) : length (vsub a b) = Nat.min (length a) (length b).
Proof. apply length_zip_with. Qed.

Lemma length_vneg (a : vec) : length (vneg a) = length a.
Proof. apply length_map. Qed.

Lemma length_matvec (M : matrix) (v : vec) : length (matvec M v) = length M.
Proof. apply length_map. Qed.

Lemma slice_0_app {X : Type} (p q : list X) : slice 0 (length p) (p ++ q) = p.
Proof.
  unfold slice. rewrite Nat.sub_0_r. simpl.
  now rewrite firstn_app, firstn_all, Nat.sub_diag, app_nil_r.
Qed.

Lemma slice_app_r {X : Type} (p q : list X) (a b : nat) :
  slice (length p + a) (length p + b) (p ++ q) = slice a b q.
Proof.
  unfold slice. rewrite skipn_app, skipn_all2 by lia. simpl.
  f_equal; [lia|]. f_equal. lia.
Qed.

Lemma slice_block {X : Type} (L : nat) (bs : list (list X)) (j : nat) (q : list X) :
  Forall (fun b => length b = L) bs -> j < length bs ->
  slice (j * L) ((j + 1) * L) (concat bs ++ q) = nth j bs [].
Proof.
  intros H Hj. unfold slice.
  replace ((j + 1) * L - j * L) with L by nia.
  rewrite skipn_app, (skipn_concat_blocks j H).
  rewrite (length_concat_blocks H).
  replace (j * L - length bs * L) with 0 by nia. simpl.
  rewrite <- (firstn_skipn j bs) in H. apply Forall_app in H as [_ H].
  rewrite <- (firstn_skipn j bs) at 2.
  rewrite app_nth2 by (rewrite length_firstn; lia).
  rewrite length_firstn. replace (j - Nat.min j (length bs)) with 0 by lia.
  destruct (skipn j bs) as [|b rest] eqn:E.
  - apply (f_equal (@length _)) in E. rewrite length_skipn in E. simpl in E. lia.
  - simpl. rewrite <- app_assoc, firstn_app.
    inversion H as [|? ? Hb _]. subst.
    now rewrite firstn_all, Nat.sub_diag, app_nil_r.
Qed.

Lemma seq_add_map (a b k : nat) : seq (a + b) k = map (Nat.add a) (seq b k).
Proof.
  revert b. induction k as [|k IH]; intros b; simpl; auto.
  f_equal. rewrite <- IH. f_equal. lia.
Qed.

Lemma map_const_seq {X : Type} (f : nat -> X) (c : X) (a k : nat) :
  (forall j, a <= j < a + k -> f j = c) -> map f (seq a k) = repeat c k.
Proof.
  revert a. induction k as [|k IH]; intros a H; simpl; auto.
  rewrite H by lia. f_equal. apply IH. intros j Hj. apply H. lia.
Qed.

Lemma unit_row_split (k i : nat) :
  i < k -> unit_row k i = zeros i ++ 1%Z :: zeros (k - S i).
Proof.
  intros Hi. unfold unit_row, zeros.
  replace k with (i + S (k - S i)) at 1 by lia.
  rewrite seq_app, map_app. simpl. rewrite Nat.eqb_refl. f_equal.
  - apply map_const_seq. intros j Hj. destruct (Nat.eqb_spec i j); [lia|reflexivity].
  - f_equal. apply map_const_seq. intros j Hj.
    destruct (Nat.eqb_spec i j); [lia|reflexivity].
Qed.

Lemma vneg_zeros (k : nat) : vneg (zeros k) = zeros k.
Proof. unfold vneg, zeros. induction k; simpl; congruence. Qed.

Lemma vadd_zeros_r (v : vec) : vadd v (zeros (length v)) = v.
Proof.
  unfold vadd, zeros. rewrite zip_with_repeat_r.
  induction v as [|x v IH]; simpl; auto. rewrite IH. f_equal. lia.
Qed.

Lemma vadd_zeros_l (v : vec) : vadd (zeros (length v)) v = v.
Proof.
  unfold vadd, zeros. induction v as [|x v IH]; simpl; auto. now rewrite IH.
Qed.

Lemma dot_zeros (k : nat) (x : vec) : dot (zeros k) x = 0%Z.
Proof.
  unfold dot, zeros. revert x.
  induction k as [|k IH]; intros [|x0 x]; simpl; auto; try (now rewrite IH).
Qed.

Lemma dot_cons (a : Z) (v : vec) (x0 : Z) (x : vec) :
  dot (a :: v) (x0 :: x) = (a * x0 + dot v x)%Z.
Proof. reflexivity. Qed.

Lemma dot_nil_r (v : vec) : dot v [] = 0%Z.
Proof. destruct v; reflexivity. Qed.

Lemma dot_unit (a r : nat) (c : Z) (x : vec) :
  dot (zeros a ++ c :: zeros r) x = (c * nth a x 0)%Z.
Proof.
  revert x. induction a as [|a IH]; intros [|x0 x].
  - rewrite dot_nil_r. simpl. lia.
  - change (zeros 0 ++ c :: zeros r) with (c :: zeros r).
    rewrite dot_cons, dot_zeros. simpl. lia.
  - rewrite dot_nil_r. simpl. lia.
  - change (zeros (S a) ++ c :: zeros r) with (0%Z :: (zeros a ++ c :: zeros r)).
    rewrite dot_cons, IH. simpl. lia.
Qed.

Lemma dot_app_zeros (v : vec) (k : nat) (x : vec) :
  dot (v ++ zeros k) x = dot v x.
Proof.
  revert x. induction v as [|a v IH]; intros x.
  - simpl. rewrite dot_zeros. reflexivity.
  - destruct x as [|x0 x]; [now rewrite !dot_nil_r|].
    change ((a :: v) ++ zeros k) with (a :: (v ++ zeros k)).
    now rewrite !dot_cons, IH.
Qed.

End NpFacts.

(** ** BilinearEdmd *)

Module EdmdFacts.
Import Np NpFacts BilinearEdmd.

(** The blocks [fit] appends to [B]. *)
Lemma assemble_B (self : t) (coefs : matrix) (ok foc : bool) :
  exists new, B (assemble self coefs ok foc) = B self ++ new /\ length new = m self.
Proof.
  unfold assemble. destruct ok; simpl; rewrite fold_left_snoc;
    eexists; (split; [reflexivity|]); now rewrite length_map, length_seq.
Qed.

Lemma fit_inv (self self' : t) (X y : matrix) (use_cv ok foc : bool) :
  fit self X y use_cv ok foc = Ok self' ->
  exists coefs, self' = assemble self coefs ok foc.
Proof.
  unfold fit, bind. destruct (regress self _ _ use_cv) as [c|e]; [|discriminate].
  intros H. injection H as <-. eauto.
Qed.

Lemma assemble_fields (self : t) (coefs : matrix) (ok foc : bool) :
  m (assemble self coefs ok foc) = m self
  /\ n (assemble self coefs ok foc) = n self
  /\ n_lift (assemble self coefs ok foc) = n_lift self
  /\ optimizer (assemble self coefs ok foc) = optimizer self
  /\ cv (assemble self coefs ok foc) = cv self
  /\ standardizer (assemble self coefs ok foc) = standardizer self.
Proof. unfold assemble. destruct ok; simpl; auto 10. Qed.

(** [A] after [fit] does not depend on the [B] the object held before. *)
Lemma assemble_A_indep (self other : t) (coefs : matrix) (ok foc : bool) :
  n self = n other -> n_lift self = n_lift other ->
  A (assemble self coefs ok foc) = A (assemble other coefs ok foc).
Proof.
  intros Hn Hl. unfold assemble, kin_dyn. rewrite Hn, Hl.
  destruct ok, foc; reflexivity.
Qed.

(** C10. [fit] appends its [m] control-coupling matrices to [B] without
    clearing it.  After two calls on a freshly constructed object [B] has
    length [2 * m]; its entries [0 .. m-1], the ones [reduce_mdl] and any
    other consumer index, are the matrices of the first call, the matrices
    of the second call come after them, while [A] is the one a fit of the
    second data on a fresh object gives. *)
Theorem fit_twice_appends
    (n0 m0 : nat) (basis0 : matrix -> matrix) (n_lift0 n_traj0 : nat)
    (opt : Regressor) (cv0 : option Regressor) (std : option Standardizer)
    (C0 : option matrix)
    (X1 y1 X2 y2 : matrix) (cv1 ok1 foc1 cv2 ok2 foc2 : bool)
    (self1 self2 fresh2 : t) :
  let self0 := init n0 m0 basis0 n_lift0 n_traj0 opt cv0 std C0 in
  fit self0 X1 y1 cv1 ok1 foc1 = Ok self1 ->
  fit self1 X2 y2 cv2 ok2 foc2 = Ok self2 ->
  fit self0 X2 y2 cv2 ok2 foc2 = Ok fresh2 ->
  length (B self1) = m0
  /\ length (B self2) = 2 * m0
  /\ firstn m0 (B self2) = B self1
  /\ (forall ii, ii < m0 -> list_get (B self2) ii = list_get (B self1) ii)
  /\ skipn m0 (B self2) = B fresh2
  /\ A self2 = A fresh2.
Proof.
  intros self0 H1 H2 H3.
  assert (Hreg : forall X y c, regress self1 X y c = regress self0 X y c).
  { intros X y c. apply fit_inv in H1 as [c1 ->].
    unfold regress. destruct (assemble_fields self0 c1 ok1 foc1) as (_ & _ & _ & -> & -> & _).
    reflexivity. }
  assert (Hsc : forall c, scale_coefs self1 c = scale_coefs self0 c).
  { intros c. apply fit_inv in H1 as [c1 ->].
    unfold scale_coefs. destruct (assemble_fields self0 c1 ok1 foc1) as (_ & _ & _ & _ & _ & ->).
    reflexivity. }
  assert (Hn : n self1 = n self0 /\ n_lift self1 = n_lift self0 /\ m self1 = m0).
  { apply fit_inv in H1 as [c1 ->].
    destruct (assemble_fields self0 c1 ok1 foc1) as (-> & -> & -> & _). auto. }
  destruct Hn as (Hn & Hl & Hm).
  unfold fit, bind in H2, H3. rewrite Hn, Hreg in H2.
  destruct (regress self0 X2 _ cv2) as [c2|e]; [|discriminate].
  injection H2 as <-. injection H3 as <-. rewrite Hsc.
  pose proof (fit_inv _ _ _ _ _ _ H1) as [c1 E1].
  destruct (assemble_B self0 c1 ok1 foc1) as (new1 & HB1 & Hlen1).
  rewrite <- E1 in HB1. simpl in HB1, Hlen1.
  destruct (assemble_B self1 (scale_coefs self0 c2) ok2 foc2) as (new2 & HB2 & Hlen2).
  destruct (assemble_B self0 (scale_coefs self0 c2) ok2 foc2) as (new0 & HB0 & Hlen0).
  simpl in HB0, Hlen0. rewrite Hm in Hlen2.
  assert (Hnew : new2 = new0).
  { clear - HB2 HB0 Hn Hl Hm. unfold assemble in HB2, HB0.
    rewrite Hl, Hn, Hm in HB2. simpl in HB0.
    destruct ok2; simpl in HB2, HB0; rewrite fold_left_snoc in HB2, HB0;
      apply app_inv_head in HB2; simpl in HB0; congruence. }
  assert (L1 : length (B self1) = m0) by (rewrite HB1; exact Hlen1).
  repeat split.
  - exact L1.
  - rewrite HB2, length_app. lia.
  - rewrite HB2, firstn_app, <- L1, firstn_all, Nat.sub_diag. simpl. apply app_nil_r.
  - intros ii Hii. unfold list_get. rewrite HB2, nth_error_app1 by lia. reflexivity.
  - rewrite HB2, skipn_app, <- L1, skipn_all, Nat.sub_diag. simpl. congruence.
  - apply assemble_A_indep; assumption.
Qed.

(** A regressor that returns fixed coefficients, an object without
    standardizer and the data used in the examples. *)
Definition const_regressor (coefs : matrix) : Regressor :=
  {| reg_fit := fun _ _ => coefs |}.

Definition example_fresh (coefs : matrix) : t :=
  init 2 1 (fun x => x) 3 1 (const_regressor coefs) None None
       (Some [[0; 1; 0]; [0; 0; 1]]%Z).

Lemma fit_twice_appends_witness :
  let c1 := [[1; 2; 3; 4; 5; 6]]%Z in
  let c2 := [[7; 8; 9; 10; 11; 12]]%Z in
  let self1 := assemble (example_fresh c1) c1 true true in
  let self2 := assemble self1 c1 false true in
  length (B self1) = 1
  /\ length (B self2) = 2 * 1
  /\ firstn 1 (B self2) = B self1
  /\ (forall ii, ii < 1 -> list_get (B self2) ii = list_get (B self1) ii)
  /\ skipn 1 (B self2) = B (assemble (example_fresh c1) c1 false true)
  /\ A self2 = A (assemble (example_fresh c1) c1 false true).
Proof.
  intros c1 c2 self1 self2.
  apply (@fit_twice_appends 2 1 (fun x => x) 3 1 (const_regressor c1) None None
           (Some [[0; 1; 0]; [0; 0; 1]]%Z) [] [] [] [] false true true false false true);
    reflexivity.
Defined.

(** C8 as stated: with a standardizer configured, [fit] reads the model
    blocks off the inverse transform of the raw coefficients. *)
Definition inverse_transform_claim : Prop :=
  forall (self : t) (s : Standardizer) (X y : matrix) (mdl_coefs : matrix),
    standardizer self = Some s ->
    regress self X y false = Ok mdl_coefs ->
    fit self X y false false true
      = Ok (assemble self (inverse_transform s mdl_coefs) false true).

(** A standardizer that scales by 2: [transform] divides, the inverse
    multiplies. *)
Definition halving : Standardizer :=
  {| transform := map (map (fun v => (v / 2)%Z));
     inverse_transform := map (map (fun v => (v * 2)%Z)) |}.

(** C8, counterexample. With the scale-by-2 standardizer and raw
    coefficients [[4; 8]] the fitted [A] is [[2]], the forward transform
    of the coefficients, not [[8]]. *)
Lemma inverse_transform_claim_fails : ~ inverse_transform_claim.
Proof.
  intros H.
  specialize (H (init 1 1 (fun x => x) 1 1 (const_regressor [[4; 8]]%Z) None
                      (Some halving) None)
                halving [] [] [[4; 8]]%Z eq_refl eq_refl).
  vm_compute in H. discriminate H.
Qed.

(** C8, amended. When a standardizer is configured [fit] applies its
    forward [transform] to the raw regression coefficients before they are
    sliced into [A] and the [B_i]; without a standardizer the raw
    coefficients are used unchanged.  With [override_kinematics] the
    arrays [fit] concatenates have to agree in width: [n] is even,
    [n + first_obs_const <= n_lift] and the coefficients have at least
    [(m + 1) * n_lift] columns; otherwise a concatenation raises. *)
Theorem fit_applies_transform (self : t) (X y : matrix)
    (use_cv override_kinematics first_obs_const : bool) (mdl_coefs : matrix) (w : nat) :
  regress self X
    (if override_kinematics
     then map (skipn (n self / 2 + Nat.b2n first_obs_const)) y else y)
    use_cv = Ok mdl_coefs ->
  (override_kinematics = true ->
   Nat.even (n self) = true
   /\ n self + Nat.b2n first_obs_const <= n_lift self
   /\ (m self + 1) * n_lift self <= w
   /\ Forall (fun r => length r = w) (scale_coefs self mdl_coefs)) ->
  fit self X y use_cv override_kinematics first_obs_const
    = Ok (assemble self
            (match standardizer self with
             | Some s => transform s mdl_coefs
             | None => mdl_coefs
             end)
            override_kinematics first_obs_const).
Proof.
  intros H _. unfold fit. cbv zeta.
  destruct override_kinematics; rewrite H; reflexivity.
Qed.

Lemma fit_applies_transform_witness :
  let self := init 2 1 (fun x => x) 3 1 (const_regressor [[4; 8; 2; 6; 0; 2]]%Z) None
                   (Some halving) None in
  fit self [] [] false true true = Ok (assemble self [[2; 4; 1; 3; 0; 1]]%Z true true)
  /\ fit self [] [] false false true = Ok (assemble self [[2; 4; 1; 3; 0; 1]]%Z false true).
Proof.
  intros self. split.
  - apply (@fit_applies_transform self [] [] false true true [[4; 8; 2; 6; 0; 2]]%Z 6).
    + reflexivity.
    + intros _. split; [reflexivity|]. split; [simpl; lia|]. split; [simpl; lia|].
      repeat constructor.
  - apply (@fit_applies_transform self [] [] false false true [[4; 8; 2; 6; 0; 2]]%Z 6).
    + reflexivity.
    + intros H. discriminate H.
Defined.

(** Row [k] of [kin_dyn]. *)
Lemma nth_kin_dyn (self : t) (foc : bool) (k : nat) :
  k < n self / 2 ->
  nth k (kin_dyn self foc) []
    = zeros (n self / 2 + Nat.b2n foc) ++ unit_row (n self / 2) k
        ++ zeros (n_lift self - n self - Nat.b2n foc).
Proof.
  intros Hk. unfold kin_dyn, hcat3.
  rewrite nth_hcat2, nth_hcat2, nth_zeros2, nth_eye, nth_zeros2, <- app_assoc;
    rewrite ?length_hcat2, ?length_zeros2, ?length_eye; try lia.
  reflexivity.
Qed.

Lemma length_kin_dyn (self : t) (foc : bool) : length (kin_dyn self foc) = n self / 2.
Proof.
  unfold kin_dyn, hcat3.
  rewrite !length_hcat2, !length_zeros2, length_eye. lia.
Qed.

Lemma nth_zeros_unit_zeros (a h k c j : nat) :
  k < h ->
  nth j (zeros a ++ unit_row h k ++ zeros c) 0%Z
    = if Nat.eqb j (a + k) then 1%Z else 0%Z.
Proof.
  intros Hk.
  destruct (Nat.lt_ge_cases j a) as [Hj|Hj].
  - rewrite app_nth1 by now rewrite length_zeros.
    rewrite nth_zeros. destruct (Nat.eqb_spec j (a + k)); [lia|reflexivity].
  - rewrite app_nth2 by now rewrite length_zeros.
    rewrite length_zeros.
    destruct (Nat.lt_ge_cases (j - a) h) as [Hj2|Hj2].
    + rewrite app_nth1 by now rewrite length_unit_row.
      rewrite nth_unit_row by assumption.
      destruct (Nat.eqb_spec k (j - a)), (Nat.eqb_spec j (a + k)); try reflexivity; lia.
    + rewrite app_nth2 by now rewrite length_unit_row.
      rewrite nth_zeros. destruct (Nat.eqb_spec j (a + k)); [lia|reflexivity].
Qed.

Lemma assemble_A_override (self : t) (coefs : matrix) (foc : bool) :
  A (assemble self coefs true foc)
    = Some (if foc
            then zeros2 1 (n_lift self) ++ kin_dyn self foc ++ cols 0 (n_lift self) coefs
            else kin_dyn self foc ++ cols 0 (n_lift self) coefs).
Proof. unfold assemble. destruct foc; reflexivity. Qed.

Lemma assemble_B_override (self : t) (coefs : matrix) (foc : bool) :
  B (assemble self coefs true foc)
    = B self ++ map (fun ii => zeros2 (n self / 2 + Nat.b2n foc) (n_lift self)
                       ++ cols (n_lift self * (ii + 1)) (n_lift self * (ii + 2)) coefs)
                    (seq 0 (m self)).
Proof. unfold assemble. simpl. apply fold_left_snoc. Qed.

(** C4. With [override_kinematics=True], physical state size [n] (even, as
    the shapes concatenated by [fit] require) and bias flag
    [first_obs_const], the rows of [A] for the first [n/2] physical
    coordinates after the bias offset have length [n_lift] and are zero
    except for a one at column [n/2 + first_obs_const + k] in the row of
    coordinate [k]; the rows [0 .. n/2 + first_obs_const - 1] of every
    [B_i] this call fits (the bias row included) are zero. *)
Theorem fit_kinematic_rows (self self' : t) (X y : matrix) (use_cv foc : bool) :
  Nat.even (n self) = true ->
  n self + Nat.b2n foc <= n_lift self ->
  fit self X y use_cv true foc = Ok self' ->
  exists a,
    A self' = Some a
    /\ (forall k, k < n self / 2 ->
          length (nth (Nat.b2n foc + k) a []) = n_lift self
          /\ forall j,
               nth j (nth (Nat.b2n foc + k) a []) 0%Z
                 = if Nat.eqb j (n self / 2 + Nat.b2n foc + k) then 1%Z else 0%Z)
    /\ length (B self') = length (B self) + m self
    /\ (forall ii r, ii < m self -> r < n self / 2 + Nat.b2n foc ->
          nth r (nth (length (B self) + ii) (B self') []) [] = zeros (n_lift self)).
Proof.
  intros Heven Hle Hfit.
  assert (H2 : 2 * (n self / 2) = n self).
  { apply Nat.even_spec in Heven. destruct Heven as [h Hh].
    rewrite Hh, (Nat.mul_comm 2 h), Nat.div_mul by lia. lia. }
  apply fit_inv in Hfit as [coefs ->].
  rewrite assemble_A_override, assemble_B_override.
  eexists. split; [reflexivity|]. split; [|split].
  - intros k Hk.
    assert (Hrow : nth (Nat.b2n foc + k)
                     (if foc
                      then zeros2 1 (n_lift self) ++ kin_dyn self foc ++ cols 0 (n_lift self) coefs
                      else kin_dyn self foc ++ cols 0 (n_lift self) coefs) []
                   = nth k (kin_dyn self foc) []).
    { destruct foc; simpl Nat.b2n.
      - rewrite app_nth2 by (rewrite length_zeros2; lia).
        rewrite length_zeros2, app_nth1 by (rewrite length_kin_dyn; lia).
        f_equal. lia.
      - rewrite app_nth1 by (rewrite length_kin_dyn; lia). reflexivity. }
    rewrite Hrow, nth_kin_dyn by assumption. split.
    + rewrite !length_app, !length_zeros, length_unit_row. lia.
    + intros j. apply nth_zeros_unit_zeros. assumption.
  - rewrite length_app, length_map, length_seq. reflexivity.
  - intros ii r Hii Hr.
    rewrite app_nth2 by lia.
    replace (length (B self) + ii - length (B self)) with ii by lia.
    rewrite nth_map_seq by assumption.
    rewrite app_nth1 by now rewrite length_zeros2.
    now apply nth_zeros2.
Qed.

Lemma fit_kinematic_rows_witness :
  let coefs := [[1; 2; 3; 4; 5; 6]]%Z in
  exists a,
    A (assemble (example_fresh coefs) coefs true true) = Some a
    /\ (forall k, k < 1 ->
          length (nth (1 + k) a []) = 3
          /\ forall j, nth j (nth (1 + k) a []) 0%Z = if Nat.eqb j (1 + 1 + k) then 1%Z else 0%Z)
    /\ length (B (assemble (example_fresh coefs) coefs true true)) = 0 + 1
    /\ (forall ii r, ii < 1 -> r < 1 + 1 ->
          nth r (nth (0 + ii) (B (assemble (example_fresh coefs) coefs true true)) []) []
            = zeros 3).
Proof.
  intros coefs.
  apply (@fit_kinematic_rows (example_fresh coefs) _ [] [] false true);
    [reflexivity | simpl; lia | reflexivity].
Defined.

(** The row of trajectory [ii] at time [t] after the first [k] control
    channels have been appended by the loop of [lift]. *)
Definition lifted_row (zrow urow : vec) (k : nat) : vec :=
  zrow ++ concat (map (fun i => map (fun v => (v * nth i urow 0)%Z) zrow) (seq 0 k)).

Section Lift.

Variable base_lift : matrix -> matrix -> matrix.
Variable self : t.
Variables x u : tensor3.
Variable T1 : nat.

Local Abbreviation z := (plain_lift base_lift self x u).

Hypothesis z_shape : forall ii, ii < n_traj self ->
  length (nth ii z []) = T1
  /\ Forall (fun r => length r = n_lift self) (nth ii z []).
Hypothesis u_trajs : length u = n_traj self.
Hypothesis u_shape : forall ii, ii < n_traj self ->
  length (nth ii u []) = T1
  /\ Forall (fun r => m self <= length r) (nth ii u []).

Lemma length_plain_lift : length z = n_traj self.
Proof. unfold plain_lift. now rewrite length_map, length_seq. Qed.

Lemma z_row_length (ii t : nat) :
  ii < n_traj self -> t < T1 -> length (nth t (nth ii z []) []) = n_lift self.
Proof.
  intros Hii Ht. destruct (z_shape Hii) as [Hl Hf].
  rewrite Forall_forall in Hf. apply Hf, nth_In. lia.
Qed.

Lemma shape2_z (ii t : nat) : ii < n_traj self -> t < T1 -> shape2 z = n_lift self.
Proof.
  intros Hii Ht. unfold shape2.
  assert (H0 : 0 < n_traj self) by lia.
  pose proof (z_row_length H0 (t := 0) ltac:(lia)) as Hr.
  destruct (z_shape H0) as [Hl _].
  pose proof length_plain_lift as Hz.
  destruct z as [|z0 zs]; simpl in *; [lia|].
  destruct z0 as [|r0 z0]; simpl in *; [lia|]. exact Hr.
Qed.

(** The loop invariant of [lift]. *)
Lemma lift_loop (k : nat) :
  k <= m self ->
  let zb :=
    fold_left
      (fun z_bilinear ii =>
         concat_axis2 z_bilinear (multiply3 z (tile_channel u ii (shape2 z))))
      (seq 0 k) z in
  length zb = n_traj self
  /\ forall ii, ii < n_traj self ->
       length (nth ii zb []) = T1
       /\ forall t, t < T1 ->
            nth t (nth ii zb []) []
              = lifted_row (nth t (nth ii z []) []) (nth t (nth ii u []) []) k.
Proof.
  induction k as [|k IH]; intros Hk zb.
  - subst zb. simpl. split; [apply length_plain_lift|].
    intros ii Hii. split; [apply (z_shape Hii)|].
    intros t Ht. unfold lifted_row. simpl. now rewrite app_nil_r.
  - subst zb. rewrite seq_S, fold_left_app. simpl.
    destruct (IH ltac:(lia)) as [Hlen Hrows]. clear IH.
    set (zb := fold_left _ (seq 0 k) z) in *.
    set (w := multiply3 z (tile_channel u k (shape2 z))).
    assert (Hw : length w = n_traj self).
    { unfold w, multiply3, tile_channel.
      rewrite length_zip_with, length_plain_lift, length_map, u_trajs. lia. }
    assert (Hwi : forall ii, ii < n_traj self ->
              nth ii w [] = zip_with (zip_with Z.mul) (nth ii z [])
                              (map (fun r => concat (repeat (slice k (k + 1) r) (shape2 z)))
                                   (nth ii u []))).
    { intros ii Hii. unfold w, multiply3, tile_channel.
      rewrite nth_zip_with with (dx := []) (dy := [])
        by (rewrite ?length_plain_lift, ?length_map; lia).
      f_equal. now rewrite nth_map_lt with (dx := []) by lia. }
    unfold concat_axis2. split.
    + rewrite length_zip_with. lia.
    + intros ii Hii.
      destruct (Hrows ii Hii) as [HT Hrow].
      destruct (z_shape Hii) as [HzT _]. destruct (u_shape Hii) as [HuT Hu].
      rewrite nth_zip_with with (dx := []) (dy := []) by lia.
      rewrite (Hwi ii Hii). split.
      * rewrite length_hcat2, length_zip_with, length_map. lia.
      * intros t Ht.
        rewrite nth_hcat2 by (rewrite ?length_zip_with, ?length_map; lia).
        rewrite Hrow by assumption.
        rewrite nth_zip_with with (dx := []) (dy := []) by (rewrite ?length_map; lia).
        rewrite nth_map_lt with (dx := []) by lia.
        unfold lifted_row. rewrite seq_S, map_app, concat_app, app_assoc. simpl.
        rewrite app_nil_r. f_equal.
        assert (Hul : k < length (nth t (nth ii u []) [])).
        { rewrite Forall_forall in Hu.
          specialize (Hu (nth t (nth ii u []) []) ltac:(apply nth_In; lia)). lia. }
        assert (Hs : slice k (k + 1) (nth t (nth ii u []) []) = [nth k (nth t (nth ii u []) []) 0%Z]).
        { unfold slice. replace (k + 1 - k) with 1 by lia.
          generalize dependent (nth t (nth ii u []) []). clear.
          induction k as [|k IHk]; intros [|a l] Hl; simpl in *; try lia; auto.
          apply IHk. lia. }
        rewrite Hs, concat_repeat_singleton, (shape2_z Hii Ht).
        rewrite <- (z_row_length Hii Ht). apply zip_with_repeat_r.
Qed.

(** C5. For [m] control channels and lifted dimension [n_lift],
    [lift(x, u)] has one array per trajectory and one row per time step;
    each row has length [(m + 1) * n_lift], starts with the plain lift, and
    its block [k] ([1 <= k <= m]) is the plain lift multiplied entry by
    entry by control channel [k - 1] at that time step. *)
Theorem lift_blocks :
  let zb := lift base_lift self x u in
  length zb = n_traj self
  /\ forall ii t, ii < n_traj self -> t < T1 ->
       let row := nth t (nth ii zb []) [] in
       let zrow := nth t (nth ii z []) [] in
       let urow := nth t (nth ii u []) [] in
       length (nth ii zb []) = T1
       /\ length row = (m self + 1) * n_lift self
       /\ firstn (n_lift self) row = zrow
       /\ forall k, 1 <= k <= m self ->
            firstn (n_lift self) (skipn (k * n_lift self) row)
              = map (fun v => (v * nth (k - 1) urow 0)%Z) zrow.
Proof.
  destruct (lift_loop (k := m self) (le_n _)) as [Hlen Hrows].
  intros zb. split; [exact Hlen|].
  intros ii t Hii Ht row zrow urow.
  destruct (Hrows ii Hii) as [HT Hrow]. specialize (Hrow t Ht).
  change (row = lifted_row zrow urow (m self)) in Hrow.
  pose proof (z_row_length Hii Ht) as Hz. fold zrow in Hz.
  assert (Hblocks : Forall (fun b : vec => length b = n_lift self)
            (map (fun i => map (fun v => (v * nth i urow 0)%Z) zrow) (seq 0 (m self)))).
  { apply Forall_forall. intros b Hb. apply in_map_iff in Hb as (i & <- & _).
    now rewrite length_map. }
  split; [exact HT|]. rewrite Hrow. unfold lifted_row. split; [|split].
  - rewrite length_app, (length_concat_blocks Hblocks), length_map, length_seq. lia.
  - rewrite firstn_app, <- Hz, firstn_all, Nat.sub_diag. simpl. apply app_nil_r.
  - intros k Hk.
    rewrite skipn_app, skipn_all2 by nia. simpl.
    replace (k * n_lift self - length zrow) with ((k - 1) * n_lift self) by nia.
    rewrite block_of_concat by (rewrite ?length_map, ?length_seq; auto; lia).
    rewrite nth_map_lt with (dx := 0) by (rewrite length_seq; lia).
    rewrite seq_nth by lia. reflexivity.
Qed.

End Lift.

Lemma lift_blocks_witness :
  let self := example_fresh [] in
  let base_lift := fun (xs us : matrix) => map (fun r => 1%Z :: r) xs in
  let x := [[[2; 3]; [4; 5]; [6; 7]]]%Z in
  let u := [[[10]; [20]]]%Z in
  lift base_lift self x u
    = [[[1; 2; 3; 10; 20; 30]; [1; 4; 5; 20; 80; 100]]]%Z
  /\ forall ii t, ii < 1 -> t < 2 ->
       length (nth t (nth ii (lift base_lift self x u) []) []) = (1 + 1) * 3.
Proof.
  intros self base_lift x u. split; [reflexivity|].
  intros ii t Hii Ht.
  refine (proj1 (proj2 (proj2 (@lift_blocks base_lift self x u 2 _ _ _) ii t Hii Ht))).
  - intros j Hj. assert (j = 0) by (simpl in Hj; lia). subst j.
    split; [reflexivity|]. repeat constructor.
  - reflexivity.
  - intros j Hj. assert (j = 0) by (simpl in Hj; lia). subst j.
    split; [reflexivity|]. repeat constructor.
Defined.

(** *** [reduce_mdl] returns *)

Lemma in_insert_unique (x z : nat) (l : list nat) :
  In z (insert_unique x l) <-> z = x \/ In z l.
Proof.
  induction l as [|y l IH]; simpl.
  - intuition.
  - destruct (Nat.ltb_spec x y); [simpl; intuition|].
    destruct (Nat.eqb_spec x y); [subst; simpl; intuition|].
    simpl. rewrite IH. intuition.
Qed.

Lemma in_unique (z : nat) (l : list nat) : In z (unique l) <-> In z l.
Proof.
  unfold unique. induction l as [|x l IH]; simpl; [reflexivity|].
  rewrite in_insert_unique, IH. intuition.
Qed.

Lemma insert_unique_sorted (x : nat) (l : list nat) :
  StronglySorted lt l -> StronglySorted lt (insert_unique x l).
Proof.
  induction 1 as [|y l Hs IH Hy]; simpl.
  - repeat constructor.
  - destruct (Nat.ltb_spec x y).
    + constructor; [now constructor|]. constructor; [assumption|].
      eapply Forall_impl; [|exact Hy]. simpl. intros. lia.
    + destruct (Nat.eqb_spec x y); [now constructor|].
      constructor; [assumption|].
      apply Forall_forall. intros z Hz. apply (proj1 (in_insert_unique _ _ _)) in Hz as [->|Hz]; [lia|].
      rewrite Forall_forall in Hy. now apply Hy.
Qed.

Lemma unique_sorted (l : list nat) : StronglySorted lt (unique l).
Proof.
  unfold unique. induction l as [|x l IH]; simpl; [constructor|].
  now apply insert_unique_sorted.
Qed.

Lemma sorted_NoDup (l : list nat) : StronglySorted lt l -> NoDup l.
Proof.
  induction 1 as [|y l Hs IH Hy]; constructor; [|assumption].
  intros Hin. rewrite Forall_forall in Hy. specialize (Hy y Hin). lia.
Qed.

(** A sorted list of distinct indices below [w] has at most [w] entries. *)
Definition in_range (w : nat) (l : list nat) : Prop :=
  StronglySorted lt l /\ forall z, In z l -> z < w.

Lemma in_range_length (w : nat) (l : list nat) : in_range w l -> length l <= w.
Proof.
  intros [Hs Hb]. rewrite <- (length_seq w 0).
  apply NoDup_incl_length; [now apply sorted_NoDup|].
  intros z Hz. apply in_seq. specialize (Hb z Hz). lia.
Qed.

Lemma unique_in_range (w : nat) (l : list nat) :
  (forall z, In z l -> z < w) -> in_range w (unique l).
Proof.
  intros H. split; [apply unique_sorted|].
  intros z Hz. apply (proj1 (in_unique _ _)) in Hz. now apply H.
Qed.

Lemma nonzero_row_bound (r : vec) (j : nat) : In j (nonzero_row r) -> j < length r.
Proof.
  unfold nonzero_row. intros H. apply in_map_iff in H as ([i v] & <- & H).
  apply filter_In in H as [H _]. apply in_combine_l in H. apply in_seq in H. simpl. lia.
Qed.

Lemma nonzero_cols_bound (w : nat) (M : matrix) (j : nat) :
  Forall (fun r => length r <= w) M -> In j (nonzero_cols M) -> j < w.
Proof.
  intros HM H. unfold nonzero_cols in H. apply in_flat_map in H as (r & Hr & Hj).
  rewrite Forall_forall in HM. specialize (HM r Hr).
  apply nonzero_row_bound in Hj. lia.
Qed.

Lemma index_rows_bound (w : nat) (idx : list nat) (M rows : matrix) :
  Forall (fun r => length r <= w) M -> index_rows idx M = Ok rows ->
  Forall (fun r => length r <= w) rows.
Proof.
  intros HM H. unfold index_rows in H.
  destruct (forallb _ idx) eqn:E; [|discriminate]. injection H as <-.
  rewrite forallb_forall in E. unfold take_rows.
  apply Forall_forall. intros r Hr. apply in_map_iff in Hr as (i & <- & Hi).
  rewrite Forall_forall in HM. apply HM, nth_In. apply Nat.ltb_lt. now apply E.
Qed.

Section ReduceReturns.

Variable w : nat.
Variable a : matrix.
Variable b : list matrix.
Variable m : nat.
Hypothesis a_width : Forall (fun r => length r <= w) a.
Hypothesis b_width : Forall (Forall (fun r => length r <= w)) b.

(** A pass of the loop leaves a sorted list of indices below [w]. *)
Lemma expand_in_use_range (in_use in_use' : list nat) :
  expand_in_use a b m in_use = Ok in_use' -> in_range w in_use'.
Proof.
  unfold expand_in_use, bind.
  destruct (index_rows in_use a) as [rows|e] eqn:Erows; [|discriminate].
  pose proof (@index_rows_bound w in_use a rows a_width Erows) as Hrows.
  assert (Hinit : forall l, Ok (unique (nonzero_cols rows)) = Ok l -> in_range w l).
  { intros l Hl. injection Hl as <-. apply unique_in_range.
    intros zc Hz. now apply (@nonzero_cols_bound w rows). }
  revert Hinit. generalize (Ok (A := list nat) (unique (nonzero_cols rows))) as acc0.
  generalize (seq 0 m) as iis.
  induction iis as [|ii iis IH]; intros acc0 Hacc H; simpl in H.
  - now apply Hacc.
  - eapply IH; [|exact H]. clear IH H. intros l0 Hl0.
    destruct acc0 as [l|e]; [|discriminate].
    destruct (Hacc l eq_refl) as [_ Hl].
    unfold list_get in Hl0.
    destruct (nth_error b ii) as [bi|] eqn:Ebi; [|discriminate].
    destruct (index_rows l bi) as [rows_b|e] eqn:Eb; [|discriminate].
    injection Hl0 as <-. apply unique_in_range.
    intros zc Hz. apply in_app_or in Hz as [Hz|Hz]; [now apply Hl|].
    apply nth_error_In in Ebi. rewrite Forall_forall in b_width.
    pose proof (@index_rows_bound w l bi rows_b (b_width bi Ebi) Eb) as Hrb.
    now apply (@nonzero_cols_bound w rows_b).
Qed.

(** The loop does not exhaust a bound of [w - n_obs_used] passes. *)
Lemma in_use_loop_returns (fuel : nat) :
  forall (n_obs_used : nat) (in_use : list nat),
    length in_use <= w -> w - n_obs_used <= fuel ->
    in_use_loop fuel a b m n_obs_used in_use <> None.
Proof.
  induction fuel as [|fuel IH]; intros n_obs_used in_use Hlen Hfuel; simpl.
  - destruct (Nat.ltb_spec n_obs_used (length in_use)); [lia|discriminate].
  - destruct (Nat.ltb_spec n_obs_used (length in_use)); [|discriminate].
    destruct (expand_in_use a b m in_use) as [in_use'|e] eqn:E; [|discriminate].
    apply IH; [|lia]. now apply in_range_length, (expand_in_use_range in_use).
Qed.

End ReduceReturns.

(** X14. [reduce_mdl] returns (a reduced object or an exception) on every
    fitted model whose [A], [B_i] and [C] have rows no longer than the first
    row of [A]: the bound on the passes of its loop is never exhausted. *)
Lemma reduce_mdl_returns (self : t) (a c : matrix) :
  A self = Some a -> C self = Some c ->
  Forall (fun r => length r <= ncols a) a ->
  Forall (Forall (fun r => length r <= ncols a)) (B self) ->
  Forall (fun r => length r <= ncols a) c ->
  reduce_mdl self <> None.
Proof.
  intros HA HC Ha Hb Hc. unfold reduce_mdl, reduce_mdl_fuel. rewrite HA, HC.
  pose proof (@in_use_loop_returns (ncols a) a (B self) (m self) Ha Hb (S (ncols a)) 0
                (unique (nonzero_cols c))) as H.
  destruct (in_use_loop (S (ncols a)) a (B self) (m self) 0 (unique (nonzero_cols c)))
    as [[in_use|e]|]; try discriminate.
  exfalso. apply H; [|lia|reflexivity].
  apply in_range_length, unique_in_range. intros zc Hz. now apply (@nonzero_cols_bound _ c).
Qed.

(** A model fitted with the kinematic override ([n = 2], [n_lift = 3],
    bias coordinate first) whose learned row does not couple to the
    position: [A = [[0;0;0]; [0;0;1]; [2;0;3]]], [B_0] has the single
    entry [1] at row 2, column 0, and [C] reads coordinates 1 and 2. *)
Definition damped_model : t :=
  assemble (example_fresh [[2; 0; 3; 1; 0; 0]]%Z) [[2; 0; 3; 1; 0; 0]]%Z true true.

(** C1, evaluation at the failing input. On [damped_model] the loop
    replaces [in_use = [1; 2]] by the columns [[0; 2]] coupled to it, the
    size does not grow and the loop stops: coordinate 1 belongs to the
    closure (it is in the support of [C]) but is absent from [obs_in_use],
    the reduced [C] has lost the column that reads the position, and the
    reduced model predicts output [0; 23] where the original predicts
    [7; 23]. *)
Theorem reduce_mdl_drops_output_coordinate :
  exists a b c self',
    A damped_model = Some a /\ B damped_model = b /\ C damped_model = Some c
    /\ reduce_mdl damped_model = Some (Ok self')
    /\ obs_in_use self' = Some [0; 2]
    /\ in_closure a b 1 c 1
    /\ C self' = Some [[0; 0]; [0; 1]]%Z
    /\ A self' = Some [[0; 0]; [2; 3]]%Z
    /\ predict_output a b c [1; 5; 7]%Z [0%Z] = [7; 23]%Z
    /\ (forall a' b' c',
          A self' = Some a' -> B self' = b' -> C self' = Some c' ->
          predict_output a' b' c' [1; 7]%Z [0%Z] = [0; 23]%Z).
Proof.
  eexists _, _, _, _.
  split; [reflexivity|]. split; [reflexivity|]. split; [reflexivity|].
  split; [vm_compute; reflexivity|].
  split; [reflexivity|].
  split; [apply closure_C; simpl; auto|].
  split; [reflexivity|]. split; [reflexivity|]. split; [reflexivity|].
  intros a' b' c' Ha Hb Hc. simpl in Ha, Hb, Hc.
  injection Ha as <-. injection Hc as <-. subst b'. reflexivity.
Qed.

End EdmdFacts.

(** ** BilinearMpcController *)

Module BilinearMpcFacts.
Import Np BilinearMpc.

(** The parameter values [eval] hands to the QP, and the linear system it
    solves afterwards: the matrix [C @ F @ act(z, t)] at the lifted current
    state [z = phi_fun(x)] and the right-hand side built from the auxiliary
    input [nu]. *)
Definition qp_params (cfg : config) (st : state) (x : vec) (t : rational) : params :=
  let dyn := bilinear_dynamics cfg in
  let zd := phi_fun dyn (set_pt cfg) in
  let z := phi_fun dyn x in
  {| eta_z_init := vsub z zd ++ vsub (eval_dot dyn z (u_prev st) t) (zeros (n_lift cfg));
     eta_z_d := zd ++ zeros (n_lift cfg);
     zd := zd; zd_dot := zeros (n_lift cfg); zd_ddot := zeros (n_lift cfg) |}.

Definition local_jacobian (cfg : config) (x : vec) (t : rational) : matrix :=
  let dyn := bilinear_dynamics cfg in
  matmul (matmul (Cx dyn) (F dyn)) (act dyn (phi_fun dyn x) t).

Definition recovery_rhs (cfg : config) (nu : vec) : vec :=
  let dyn := bilinear_dynamics cfg in
  matvec (Cx dyn)
    (vadd (vsub (zeros (n_lift cfg))
             (matvec (matmul (F dyn) (F dyn)) (phi_fun dyn (set_pt cfg))))
          nu).

(** C9. On a constructed controller every call to [eval] first solves the
    auxiliary QP.  If the status is not ["optimal"] the call raises the
    assertion error, the linear solver is never called and [u_prev] is
    unchanged; no control action is returned.  If the status is
    ["optimal"], the outcome is that of [np.linalg.solve] on the system
    built from the local Jacobian [C @ F @ act(z, t)] of the current state
    and the [nu] just computed, and the QP solve precedes the linear solve
    in the log of calls. *)
Theorem eval_asserts_then_recovers (cfg : config) (st : state) (x : vec)
    (t : rational) (history : list params) :
  mpc_prob st = Some history ->
  let p := qp_params cfg st x t in
  let stat := fst (solve_qp cfg (history ++ [p])) in
  let nu := column 0 (snd (solve_qp cfg (history ++ [p]))) in
  let a := local_jacobian cfg x t in
  let b := recovery_rhs cfg nu in
  let out := fst (eval cfg st x t) in
  let st' := snd (eval cfg st x t) in
  (stat <> "optimal"%string ->
     out = Raise (AssertionError "MPC not solved to optimality")
     /\ calls st' = calls st ++ [SolveQP p]
     /\ u_prev st' = u_prev st)
  /\ (stat = "optimal"%string ->
        out = linalg_solve cfg a b
        /\ calls st' = calls st ++ [SolveQP p; LinalgSolve a b]
        /\ forall u, out = Ok u -> u_prev st' = u)
  /\ (forall u, out = Ok u -> stat = "optimal"%string).
Proof.
  intros Hp p. cbv zeta. unfold eval. rewrite Hp. cbv zeta.
  fold (qp_params cfg st x t). fold p.
  destruct (solve_qp cfg (history ++ [p])) as [stat value]. simpl fst; simpl snd.
  fold (local_jacobian cfg x t).
  change (matvec (Cx (bilinear_dynamics cfg)) _)
    with (recovery_rhs cfg (column 0 value)).
  set (a := local_jacobian cfg x t).
  set (b := recovery_rhs cfg (column 0 value)).
  destruct (String.eqb_spec stat "optimal") as [Hopt|Hopt].
  - destruct (linalg_solve cfg a b) as [u|e]; simpl.
    + split; [intros; contradiction|]. split; [|auto].
      intros _. split; [reflexivity|]. split; [now rewrite <- app_assoc|].
      intros u' Hu'. now injection Hu'.
    + split; [intros; contradiction|]. split; [|auto].
      intros _. split; [reflexivity|]. split; [now rewrite <- app_assoc|].
      intros u' Hu'. discriminate Hu'.
  - simpl. split; [|split].
    + intros _. auto.
    + intros; contradiction.
    + intros u Hu. discriminate Hu.
Qed.

(** A controller whose QP solver reports [stat], with a diagonal linear
    solver. *)
Definition example_cfg (stat : string) : config :=
  {| n_lift := 2;
     bilinear_dynamics :=
       {| F := [[0; 1]; [0; 0]]%Z; Cx := [[1; 0]]%Z;
          phi_fun := fun x => x;
          eval_dot := fun z _ _ => z;
          act := fun z _ => [[0]; [1]]%Z |};
     set_pt := [0; 0]%Z;
     solve_qp := fun _ => (stat, [[3]; [4]]%Z);
     linalg_solve := fun a b => Ok b |}.

Lemma eval_asserts_then_recovers_witness :
  fst (eval (example_cfg "optimal") (construct_controller (init 1)) [1; 2]%Z 0%Q) = Ok [3%Z]
  /\ fst (eval (example_cfg "infeasible") (construct_controller (init 1)) [1; 2]%Z 0%Q)
       = Raise (AssertionError "MPC not solved to optimality").
Proof.
  split.
  - exact (proj1 (proj1 (proj2 (@eval_asserts_then_recovers (example_cfg "optimal")
             (construct_controller (init 1)) [1; 2]%Z 0%Q [] eq_refl)) eq_refl)).
  - refine (proj1 (proj1 (@eval_asserts_then_recovers (example_cfg "infeasible")
             (construct_controller (init 1)) [1; 2]%Z 0%Q [] eq_refl) _)).
    discriminate.
Defined.

End BilinearMpcFacts.

(** ** NonlinearMPCController: constraint vectors *)

Module MpcVecFacts.
Import Np NpFacts NonlinearMPC.

Definition rows_of (w : nat) (M : matrix) : Prop := Forall (fun r => length r = w) M.

(** The shapes [construct_constraint_vecs_] is called with: the current
    state, a guess of [N + 1] states and [N] inputs, one residual per
    stage, bounds and output matrix of matching sizes. *)
Record guess_shapes (cfg : config) (z : vec) (z_init u_init : matrix)
    (r_lst : list vec) : Prop := {
  sh_nx : 0 < nx cfg;
  sh_z : length z = nx cfg;
  sh_z_init : length z_init = N cfg + 1;
  sh_z_rows : rows_of (nx cfg) z_init;
  sh_u_init : length u_init = N cfg;
  sh_u_rows : rows_of (nu cfg) u_init;
  sh_r_lst : length r_lst = N cfg;
  sh_r_rows : rows_of (nx cfg) r_lst;
  sh_umin : length (umin cfg) = nu cfg;
  sh_umax : length (umax cfg) = nu cfg;
  sh_xmin : length (xmin cfg) = ns cfg;
  sh_xmax : length (xmax cfg) = ns cfg;
  sh_C : length (C cfg) = ns cfg
}.

(** The state-bound part of a constraint vector for the bound [b]. *)
Definition state_bounds (cfg : config) (z_init : matrix) (b : vec) : vec :=
  if terminal_constraint cfg
  then concat (map (fun zt => vsub b (matvec (C cfg) zt)) (removelast z_init))
         ++ vsub (xr cfg) (matvec (C cfg) (last z_init []))
  else concat (map (fun zt => vsub b (matvec (C cfg) zt)) z_init).

Lemma assign_tail_app (k : nat) (X fz v : vec) :
  length fz = k -> (k = 0 -> X = []) -> assign_tail k (X ++ fz) v = X ++ v.
Proof.
  intros Hf HX. unfold assign_tail. destruct (Nat.eqb_spec k 0) as [->|Hk].
  - now rewrite HX.
  - rewrite length_app, Hf.
    replace (length X + k - k) with (length X) by lia.
    now rewrite firstn_app, firstn_all, Nat.sub_diag, app_nil_r.
Qed.

Lemma tail_slice_app (k : nat) (X v : vec) :
  length v = k -> (k = 0 -> X = []) -> tail_slice k (X ++ v) = v.
Proof.
  intros Hv HX. unfold tail_slice. destruct (Nat.eqb_spec k 0) as [->|Hk].
  - now rewrite HX.
  - rewrite length_app, Hv.
    replace (length X + k - k) with (length X) by lia.
    rewrite skipn_app, skipn_all, Nat.sub_diag. reflexivity.
Qed.

Section Vecs.

Variable cfg : config.
Variable z : vec.
Variables z_init u_init : matrix.
Variable r_lst : list vec.
Hypothesis shapes : guess_shapes cfg z z_init u_init r_lst.

Lemma state_block_rows (b : vec) (Zm : matrix) :
  length b = ns cfg ->
  Forall (fun blk => length blk = ns cfg)
         (map (fun zt => vsub b (matvec (C cfg) zt)) Zm).
Proof.
  intros Hb. apply Forall_forall. intros blk H.
  apply in_map_iff in H as (zt & <- & _).
  rewrite length_vsub, length_matvec, Hb, (sh_C shapes). lia.
Qed.

Lemma state_part (b : vec) :
  length b = ns cfg ->
  vsub (tile b (N cfg + 1)) (flatten_F (matmul (C cfg) (T z_init)))
    = concat (map (fun zt => vsub b (matvec (C cfg) zt)) z_init).
Proof.
  intros Hb.
  rewrite (@flatten_F_matmul_T (nx cfg)) by apply shapes.
  rewrite <- (sh_z_init shapes), <- (length_map (matvec (C cfg)) z_init).
  rewrite vsub_tile_concat, map_map; [reflexivity|].
  apply Forall_forall. intros blk H. apply in_map_iff in H as (zt & <- & _).
  now rewrite length_matvec, Hb, (sh_C shapes).
Qed.

Lemma z_init_split : z_init = removelast z_init ++ [last z_init []].
Proof.
  apply app_removelast_last. intros E.
  pose proof (sh_z_init shapes) as H. rewrite E in H. simpl in H. lia.
Qed.

Lemma terminal_target_length :
  length (vsub (xr cfg) (matvec (C cfg) (last z_init []))) = ns cfg.
Proof. rewrite length_vsub, length_matvec, (sh_C shapes). unfold ns. lia. Qed.

Lemma state_prefix_nil (b : vec) :
  length b = ns cfg -> ns cfg = 0 ->
  concat (map (fun zt => vsub b (matvec (C cfg) zt)) (removelast z_init)) = [].
Proof.
  intros Hb H0. apply length_zero_iff_nil.
  rewrite (length_concat_blocks (@state_block_rows b (removelast z_init) Hb)), H0. lia.
Qed.

(** The two constraint vectors, block by block. *)
Lemma constraint_vecs_blocks :
  constraint_vecs cfg z z_init u_init r_lst
    = (vneg (vsub z (nth 0 z_init [])) ++ vneg (concat r_lst)
         ++ concat (map (vsub (umin cfg)) u_init)
         ++ state_bounds cfg z_init (xmin cfg),
       vneg (vsub z (nth 0 z_init [])) ++ vneg (concat r_lst)
         ++ concat (map (vsub (umax cfg)) u_init)
         ++ state_bounds cfg z_init (xmax cfg)).
Proof.
  unfold constraint_vecs. cbv zeta.
  rewrite (@state_part _ (sh_xmin shapes)), (@state_part _ (sh_xmax shapes)).
  unfold flatten. rewrite <- (sh_u_init shapes).
  rewrite !vsub_tile_concat
    by (eapply Forall_impl; [|apply (sh_u_rows shapes)]; simpl; intros r ->;
        now rewrite ?(sh_umin shapes), ?(sh_umax shapes)).
  rewrite <- !app_assoc. unfold state_bounds.
  destruct (terminal_constraint cfg); [|reflexivity].
  set (f := fun b zt => vsub b (matvec (C cfg) zt)).
  set (v := vsub (xr cfg) (matvec (C cfg) (last z_init []))).
  assert (Hsplit : forall b, concat (map (f b) z_init)
            = concat (map (f b) (removelast z_init)) ++ f b (last z_init [])).
  { intros b. rewrite z_init_split at 1.
    rewrite map_app, concat_app. simpl. now rewrite app_nil_r. }
  assert (Hfl : forall b, length b = ns cfg -> length (f b (last z_init [])) = ns cfg).
  { intros b Hb. unfold f. rewrite length_vsub, length_matvec, Hb, (sh_C shapes). lia. }
  assert (Hl : assign_tail (ns cfg) (concat (map (f (xmin cfg)) z_init)) v
               = concat (map (f (xmin cfg)) (removelast z_init)) ++ v).
  { rewrite Hsplit. apply assign_tail_app.
    - apply Hfl, shapes.
    - apply state_prefix_nil, shapes. }
  change (fun zt => vsub (xmin cfg) (matvec (C cfg) zt)) with (f (xmin cfg)).
  change (fun zt => vsub (xmax cfg) (matvec (C cfg) zt)) with (f (xmax cfg)).
  rewrite Hl.
  rewrite tail_slice_app
    by (try apply terminal_target_length; apply state_prefix_nil, shapes).
  rewrite (Hsplit (xmax cfg)), assign_tail_app
    by (try (apply Hfl, shapes); apply state_prefix_nil, shapes).
  reflexivity.
Qed.

End Vecs.

End MpcVecFacts.

(** ** NonlinearMPCController: the first rows of the constraint matrix *)

Module MpcRowFacts.
Import Np NpFacts NonlinearMPC.

Lemma vneg_unit_row (k i : nat) :
  i < k -> vneg (unit_row k i) = zeros i ++ (-1)%Z :: zeros (k - S i).
Proof.
  intros Hi. rewrite unit_row_split by assumption.
  unfold vneg. rewrite map_app. simpl.
  fold (vneg (zeros i)). fold (vneg (zeros (k - S i))). now rewrite !vneg_zeros.
Qed.

(** Row [i < nx] of the matrix built by [construct_constraint_matrix_]:
    [-1] at column [i], zero elsewhere. *)
Lemma constraint_matrix_row (cfg : config) (A_lst B_lst : list matrix) (i : nat) :
  i < nx cfg ->
  nth i (constraint_matrix cfg A_lst B_lst) []
    = (zeros i ++ (-1)%Z :: zeros ((N cfg + 1) * nx cfg - S i))
        ++ zeros (N cfg * nu cfg).
Proof.
  intros Hi. unfold constraint_matrix, Sp.vstack, Sp.hstack, Sp.add, Sp.neg, Sp.empty, Sp.eye.
  cbv zeta. simpl concat. simpl fold_left.
  set (K := (N cfg + 1) * nx cfg).
  assert (HK : i < K) by (unfold K; nia).
  set (A_dyn := zeros2 (nx cfg) K ++ _).
  set (Bu := zeros2 (nx cfg) (N cfg * nu cfg) ++ _).
  assert (HlA : i < length A_dyn)
    by (unfold A_dyn; rewrite length_app, length_zeros2; lia).
  assert (HlB : i < length Bu)
    by (unfold Bu; rewrite length_app, length_zeros2; lia).
  assert (HlAx : i < length (madd (map vneg (eye K)) A_dyn)).
  { unfold madd. rewrite length_zip_with, length_map, length_eye. lia. }
  rewrite app_nth1 by (rewrite length_hcat2; lia).
  rewrite nth_hcat2 by assumption. f_equal.
  - unfold madd. rewrite nth_zip_with with (dx := []) (dy := [])
      by (rewrite ?length_map, ?length_eye; lia).
    rewrite nth_map_lt with (dx := []) by (rewrite length_eye; lia).
    rewrite nth_eye, vneg_unit_row by assumption.
    unfold A_dyn. rewrite app_nth1, nth_zeros2 by (rewrite ?length_zeros2; lia).
    set (row := zeros i ++ _).
    replace K with (length row); [apply vadd_zeros_r|].
    unfold row. rewrite length_app. simpl. rewrite !length_zeros. lia.
  - unfold Bu. now rewrite app_nth1, nth_zeros2 by (rewrite ?length_zeros2; lia).
Qed.

(** [A x] in row [i < nx] is [- x[i]]. *)
Lemma constraint_matrix_row_dot (cfg : config) (A_lst B_lst : list matrix)
    (i : nat) (x : vec) :
  i < nx cfg ->
  dot (nth i (constraint_matrix cfg A_lst B_lst) []) x = (- nth i x 0)%Z.
Proof.
  intros Hi. rewrite constraint_matrix_row, dot_app_zeros, dot_unit by assumption. lia.
Qed.

End MpcRowFacts.

(** ** NonlinearMPCController: bounds in deviation coordinates *)

Module MpcBoundsFacts.
Import Np NpFacts NonlinearMPC MpcVecFacts MpcRowFacts.

Lemma slice_skip {X : Type} (k a b : nat) (p q : list X) :
  length p = k -> slice (k + a) (k + b) (p ++ q) = slice a b q.
Proof. intros <-. apply slice_app_r. Qed.

Lemma slice_all {X : Type} (k : nat) (p : list X) : length p = k -> slice 0 k p = p.
Proof.
  intros <-. rewrite <- (app_nil_r p) at 2. rewrite slice_0_app. reflexivity.
Qed.

Lemma nth_removelast {X : Type} (l : list X) (i : nat) (d : X) :
  i < length l - 1 -> nth i (removelast l) d = nth i l d.
Proof.
  intros Hi. destruct l as [|x l] using rev_ind; [simpl in Hi; lia|].
  rewrite removelast_last, app_nth1; [reflexivity|].
  rewrite length_app in Hi. simpl in Hi. lia.
Qed.

Lemma length_removelast {X : Type} (l : list X) : length (removelast l) = length l - 1.
Proof.
  destruct l as [|x l] using rev_ind; [reflexivity|].
  rewrite removelast_last, length_app. simpl. lia.
Qed.

Lemma last_nth {X : Type} (l : list X) (d : X) : last l d = nth (length l - 1) l d.
Proof.
  destruct l as [|x l] using rev_ind; [reflexivity|].
  rewrite last_last, length_app, app_nth2 by (simpl; lia). simpl.
  now replace (length l + 1 - 1 - length l) with 0 by lia.
Qed.

Section Bounds.

Variable cfg : config.
Variable z : vec.
Variables z_init u_init : matrix.
Variable r_lst : list vec.
Hypothesis shapes : guess_shapes cfg z z_init u_init r_lst.

Local Abbreviation l := (fst (constraint_vecs cfg z z_init u_init r_lst)).
Local Abbreviation u := (snd (constraint_vecs cfg z z_init u_init r_lst)).
Local Abbreviation off_u := ((N cfg + 1) * nx cfg).
Local Abbreviation off_x := ((N cfg + 1) * nx cfg + N cfg * nu cfg).
Local Abbreviation dz0 := (vsub z (nth 0 z_init [])).

Lemma length_dz0 : length (vneg dz0) = nx cfg.
Proof.
  rewrite length_vneg, length_vsub, (sh_z shapes).
  pose proof (sh_z_rows shapes) as H. unfold rows_of in H. rewrite Forall_forall in H.
  rewrite (H (nth 0 z_init [])); [lia|].
  apply nth_In. rewrite (sh_z_init shapes). lia.
Qed.

Lemma length_r_vec : length (vneg (concat r_lst)) = N cfg * nx cfg.
Proof.
  rewrite length_vneg, (length_concat_blocks (sh_r_rows shapes)), (sh_r_lst shapes).
  reflexivity.
Qed.

Lemma input_blocks (b : vec) :
  length b = nu cfg ->
  Forall (fun blk => length blk = nu cfg) (map (vsub b) u_init).
Proof.
  intros Hb. apply Forall_forall. intros blk H. apply in_map_iff in H as (r & <- & Hr).
  pose proof (sh_u_rows shapes) as Hu. unfold rows_of in Hu. rewrite Forall_forall in Hu.
  rewrite length_vsub, Hb, (Hu r Hr). lia.
Qed.

Lemma length_state_bounds (b : vec) :
  length b = ns cfg -> length (state_bounds cfg z_init b) = (N cfg + 1) * ns cfg.
Proof.
  intros Hb. unfold state_bounds. destruct (terminal_constraint cfg).
  - rewrite length_app, (length_concat_blocks (@state_block_rows _ _ _ _ _ shapes b _ Hb)),
      length_map, length_removelast, (sh_z_init shapes), (terminal_target_length shapes).
    lia.
  - rewrite (length_concat_blocks (@state_block_rows _ _ _ _ _ shapes b _ Hb)),
      length_map, (sh_z_init shapes). reflexivity.
Qed.

(** The block of stage [t] in the state-bound part. *)
Lemma state_bounds_block (b : vec) (t : nat) :
  length b = ns cfg -> t < N cfg + 1 ->
  slice (t * ns cfg) ((t + 1) * ns cfg) (state_bounds cfg z_init b)
    = if terminal_constraint cfg && Nat.eqb t (N cfg)
      then vsub (xr cfg) (matvec (C cfg) (nth t z_init []))
      else vsub b (matvec (C cfg) (nth t z_init [])).
Proof.
  intros Hb Ht. unfold state_bounds.
  pose proof (@state_block_rows _ _ _ _ _ shapes b) as Hblk.
  destruct (terminal_constraint cfg); simpl.
  - destruct (Nat.eqb_spec t (N cfg)) as [->|Hne].
    + replace ((N cfg + 1) * ns cfg) with (N cfg * ns cfg + ns cfg) by lia.
      rewrite <- (Nat.add_0_r (N cfg * ns cfg)) at 1.
      rewrite slice_skip
        by (rewrite (length_concat_blocks (Hblk _ Hb)), length_map, length_removelast,
              (sh_z_init shapes); f_equal; lia).
      rewrite slice_all by apply (terminal_target_length shapes).
      rewrite last_nth, (sh_z_init shapes).
      now replace (N cfg + 1 - 1) with (N cfg) by lia.
    + rewrite slice_block
        by (try apply Hblk; auto;
            rewrite length_map, length_removelast, (sh_z_init shapes); lia).
      rewrite nth_map_lt with (dx := [])
        by (rewrite length_removelast, (sh_z_init shapes); lia).
      rewrite nth_removelast by (rewrite (sh_z_init shapes); lia). reflexivity.
  - rewrite <- (app_nil_r (concat _)).
    rewrite slice_block by (try apply Hblk; auto; rewrite length_map, (sh_z_init shapes); lia).
    now rewrite nth_map_lt with (dx := []) by (rewrite (sh_z_init shapes); lia).
Qed.

(** C6. In the vectors built by [construct_constraint_vecs_] the first
    [nx] entries of the lower and of the upper bound are both
    [-(z - z_init[0])], and with the first [nx] rows of the constraint
    matrix (minus the identity on the stage-0 correction) any [x] within
    the bounds has its stage-0 block equal to [z - z_init[0]]; the input
    bounds of stage [t] are [umin - u_init[t]] and [umax - u_init[t]]; the
    state bounds of stage [t] are [xmin - C @ z_init[t]] and
    [xmax - C @ z_init[t]], except that with [terminal_constraint] the
    bounds of the last stage are both [xr - C @ z_init[-1]]. *)
Theorem constraint_vecs_deviation :
  length l = off_x + (N cfg + 1) * ns cfg
  /\ length u = off_x + (N cfg + 1) * ns cfg
  /\ slice 0 (nx cfg) l = vneg dz0
  /\ slice 0 (nx cfg) u = vneg dz0
  /\ (forall (A_lst B_lst : list matrix) (x : vec) (i : nat),
        i < nx cfg ->
        (nth i l 0 <= dot (nth i (constraint_matrix cfg A_lst B_lst) []) x <= nth i u 0)%Z ->
        nth i x 0%Z = (nth i z 0 - nth i (nth 0 z_init []) 0)%Z)
  /\ (forall t, t < N cfg ->
        slice (off_u + t * nu cfg) (off_u + (t + 1) * nu cfg) l
          = vsub (umin cfg) (nth t u_init [])
        /\ slice (off_u + t * nu cfg) (off_u + (t + 1) * nu cfg) u
             = vsub (umax cfg) (nth t u_init []))
  /\ (forall t, t < N cfg + 1 -> terminal_constraint cfg = false \/ t < N cfg ->
        slice (off_x + t * ns cfg) (off_x + (t + 1) * ns cfg) l
          = vsub (xmin cfg) (matvec (C cfg) (nth t z_init []))
        /\ slice (off_x + t * ns cfg) (off_x + (t + 1) * ns cfg) u
             = vsub (xmax cfg) (matvec (C cfg) (nth t z_init [])))
  /\ (terminal_constraint cfg = true ->
        slice (off_x + N cfg * ns cfg) (off_x + (N cfg + 1) * ns cfg) l
          = vsub (xr cfg) (matvec (C cfg) (last z_init []))
        /\ slice (off_x + N cfg * ns cfg) (off_x + (N cfg + 1) * ns cfg) u
             = vsub (xr cfg) (matvec (C cfg) (last z_init []))).
Proof.
  rewrite (constraint_vecs_blocks shapes). cbn [fst snd].
  pose proof length_dz0 as L0. pose proof length_r_vec as L1.
  pose proof (length_concat_blocks (@input_blocks _ (sh_umin shapes))) as L2l.
  pose proof (length_concat_blocks (@input_blocks _ (sh_umax shapes))) as L2u.
  rewrite length_map, (sh_u_init shapes) in L2l, L2u.
  pose proof (@length_state_bounds _ (sh_xmin shapes)) as L3l.
  pose proof (@length_state_bounds _ (sh_xmax shapes)) as L3u.
  assert (Eoff : forall a, off_u + a = nx cfg + (N cfg * nx cfg + a)) by (intros; lia).
  assert (Eoffx : forall a, off_x + a = nx cfg + (N cfg * nx cfg + (N cfg * nu cfg + a)))
    by (intros; lia).
  assert (Hin : forall (b : vec) (q : vec) (t : nat), length b = nu cfg -> t < N cfg ->
            slice (off_u + t * nu cfg) (off_u + (t + 1) * nu cfg)
              (vneg dz0 ++ vneg (concat r_lst) ++ concat (map (vsub b) u_init) ++ q)
            = vsub b (nth t u_init [])).
  { intros b q t Hb Ht. rewrite !Eoff.
    rewrite slice_skip by exact L0. rewrite slice_skip by exact L1.
    rewrite slice_block by (try apply input_blocks; auto;
                            rewrite length_map, (sh_u_init shapes); lia).
    now rewrite nth_map_lt with (dx := []) by (rewrite (sh_u_init shapes); lia). }
  assert (Hst : forall (b bu : vec) (t : nat), length b = ns cfg -> length bu = nu cfg ->
            t < N cfg + 1 ->
            slice (off_x + t * ns cfg) (off_x + (t + 1) * ns cfg)
              (vneg dz0 ++ vneg (concat r_lst) ++ concat (map (vsub bu) u_init)
                 ++ state_bounds cfg z_init b)
            = if terminal_constraint cfg && Nat.eqb t (N cfg)
              then vsub (xr cfg) (matvec (C cfg) (nth t z_init []))
              else vsub b (matvec (C cfg) (nth t z_init []))).
  { intros b bu t Hb Hbu Ht. rewrite !Eoffx.
    rewrite slice_skip by exact L0. rewrite slice_skip by exact L1.
    rewrite slice_skip
      by (rewrite (length_concat_blocks (@input_blocks _ Hbu)), length_map, (sh_u_init shapes);
          reflexivity).
    now apply state_bounds_block. }
  split; [|split; [|split; [|split; [|split; [|split; [|split]]]]]].
  - rewrite !length_app, L0, L1, L2l, L3l. lia.
  - rewrite !length_app, L0, L1, L2u, L3u. lia.
  - rewrite <- L0 at 1. apply slice_0_app.
  - rewrite <- L0 at 1. apply slice_0_app.
  - intros A_lst B_lst x i Hi.
    rewrite constraint_matrix_row_dot by assumption.
    rewrite !app_nth1 by (rewrite L0; assumption).
    assert (Hz0 : length (nth 0 z_init []) = nx cfg).
    { pose proof (sh_z_rows shapes) as H. unfold rows_of in H. rewrite Forall_forall in H.
      apply H, nth_In. rewrite (sh_z_init shapes). lia. }
    unfold vneg. rewrite nth_map_lt with (dx := 0%Z)
      by (rewrite length_vsub, (sh_z shapes), Hz0; lia).
    unfold vsub. rewrite nth_zip_with with (dx := 0%Z) (dy := 0%Z)
      by (rewrite ?(sh_z shapes), ?Hz0; lia).
    lia.
  - intros t Ht. split; apply Hin; auto; apply shapes.
  - intros t Ht Hcase.
    assert (E : terminal_constraint cfg && Nat.eqb t (N cfg) = false).
    { destruct Hcase as [-> | Hlt]; [reflexivity|].
      destruct (Nat.eqb_spec t (N cfg)); [lia|]. apply andb_false_r. }
    split.
    + rewrite (Hst _ _ t (sh_xmin shapes) (sh_umin shapes) Ht), E. reflexivity.
    + rewrite (Hst _ _ t (sh_xmax shapes) (sh_umax shapes) Ht), E. reflexivity.
  - intros Hterm.
    assert (HN : N cfg < N cfg + 1) by lia.
    assert (El : last z_init [] = nth (N cfg) z_init []).
    { rewrite last_nth, (sh_z_init shapes). f_equal. lia. }
    split.
    + rewrite (Hst _ _ _ (sh_xmin shapes) (sh_umin shapes) HN), Hterm, Nat.eqb_refl, El.
      reflexivity.
    + rewrite (Hst _ _ _ (sh_xmax shapes) (sh_umax shapes) HN), Hterm, Nat.eqb_refl, El.
      reflexivity.
Qed.

End Bounds.

End MpcBoundsFacts.

(** ** Indexed stores into a flat array *)

Module StoreFacts.
Import Np NpFacts NonlinearMPC.

Lemma length_store (i : nat) (v : Z) (d : vec) : length (store i v d) = length d.
Proof.
  revert i. induction d as [|x d IH]; intros [|i]; simpl; auto.
Qed.

Lemma store_app_r (p q : vec) (v : Z) (i : nat) :
  store (length p + i) v (p ++ q) = p ++ store i v q.
Proof.
  induction p as [|x p IH]; simpl; [reflexivity|]. now rewrite IH.
Qed.

Lemma store_all_app (i1 i2 : list nat) (v1 v2 d : vec) :
  length i1 = length v1 ->
  store_all (i1 ++ i2) (v1 ++ v2) d = bind (store_all i1 v1 d) (store_all i2 v2).
Proof.
  revert v1 d. induction i1 as [|i i1 IH]; intros [|v v1] d H; simpl in *; try discriminate.
  - reflexivity.
  - destruct (Nat.ltb i (length d)); [|reflexivity]. apply IH. lia.
Qed.

(** Storing a run of values over a run of positions replaces that part of
    the array. *)
Lemma store_all_range (b b' pre post : vec) :
  length b' = length b ->
  store_all (seq (length pre) (length b)) b' (pre ++ b ++ post) = Ok (pre ++ b' ++ post).
Proof.
  revert b' pre. induction b as [|x b IH]; intros [|y b'] pre H; simpl in *; try discriminate.
  - reflexivity.
  - assert (Hlt : Nat.ltb (length pre) (length (pre ++ x :: b ++ post)) = true).
    { apply Nat.ltb_lt. rewrite length_app. simpl. lia. }
    rewrite Hlt.
    rewrite <- (Nat.add_0_r (length pre)) at 2. rewrite store_app_r. simpl.
    replace (S (length pre)) with (length (pre ++ [y])) by (rewrite length_app; simpl; lia).
    replace (pre ++ y :: b ++ post) with ((pre ++ [y]) ++ b ++ post)
      by now rewrite <- app_assoc.
    rewrite IH by lia. now rewrite <- app_assoc.
Qed.

(** A piece of the flat array: entries that stay, the entries an update
    overwrites, entries that stay. *)
Definition seg : Type := (vec * vec * vec)%type.
Definition seg_head (s : seg) : vec := fst (fst s).
Definition seg_body (s : seg) : vec := snd (fst s).
Definition seg_tail (s : seg) : vec := snd s.
Definition seg_flat (s : seg) : vec := seg_head s ++ seg_body s ++ seg_tail s.
Definition set_body (s : seg) (b : vec) : seg := (seg_head s, b, seg_tail s).

(** The positions of the bodies when the pieces are laid out from [base]. *)
Fixpoint seg_inds (base : nat) (segs : list seg) : list nat :=
  match segs with
  | [] => []
  | s :: rest =>
      seq (base + length (seg_head s)) (length (seg_body s))
        ++ seg_inds (base + length (seg_flat s)) rest
  end.

Lemma length_seg_inds (base : nat) (segs : list seg) :
  length (seg_inds base segs) = length (concat (map seg_body segs)).
Proof.
  revert base. induction segs as [|s segs IH]; intros base; simpl; auto.
  now rewrite !length_app, length_seq, IH.
Qed.

(** Storing new bodies at the positions of the bodies. *)
Lemma store_segments (segs : list seg) (bodies : list vec) (pre post : vec) :
  Forall2 (fun s b => length (seg_body s) = length b) segs bodies ->
  store_all (seg_inds (length pre) segs) (concat bodies)
            (pre ++ concat (map seg_flat segs) ++ post)
    = Ok (pre ++ concat (map seg_flat (zip_with set_body segs bodies)) ++ post).
Proof.
  intros H. revert pre. induction H as [|s b segs bodies Hb _ IH]; intros pre.
  - reflexivity.
  - cbn [seg_inds concat map zip_with].
    rewrite store_all_app by (rewrite length_seq; exact Hb).
    set (R := concat (map seg_flat segs)) in *.
    set (R' := concat (map seg_flat (zip_with set_body segs bodies))) in *.
    destruct s as [[h bd] tl].
    unfold seg_flat, set_body, seg_head, seg_body, seg_tail in Hb |- *.
    cbn [fst snd] in Hb |- *.
    pose proof (@store_all_range bd b (pre ++ h) (tl ++ R ++ post) (eq_sym Hb)) as E.
    rewrite length_app in E.
    replace (pre ++ ((h ++ bd ++ tl) ++ R) ++ post)
      with ((pre ++ h) ++ bd ++ tl ++ R ++ post) by now rewrite <- !app_assoc.
    rewrite E. cbn [bind].
    replace ((pre ++ h) ++ b ++ tl ++ R ++ post)
      with ((pre ++ h ++ b ++ tl) ++ R ++ post) by now rewrite <- !app_assoc.
    replace (length pre + length (h ++ bd ++ tl)) with (length (pre ++ h ++ b ++ tl))
      by (rewrite !length_app; lia).
    unfold R. rewrite IH. fold R'. now rewrite <- !app_assoc.
Qed.

Lemma assign_at_store (inds : list nat) (vals data : vec) :
  length inds = length vals ->
  assign_at inds vals data = store_all inds vals data.
Proof.
  intros H. unfold assign_at.
  destruct vals as [|v [|v' vals]].
  - now rewrite H.
  - simpl in H. rewrite H. reflexivity.
  - rewrite H, Nat.eqb_refl. reflexivity.
Qed.

Lemma fold_left_ext {S X : Type} (f g : S -> X -> S) (l : list X) (a : S) :
  (forall a x, f a x = g a x) -> fold_left f l a = fold_left g l a.
Proof.
  intros H. revert a. induction l as [|x l IH]; intros a; simpl; auto.
  now rewrite H, IH.
Qed.

Lemma fold_left_nested {S X Y : Type} (f : S -> X -> Y -> S) (xs : list X) (ys : list Y) (a : S) :
  fold_left (fun a x => fold_left (fun a y => f a x y) ys a) xs a
    = fold_left (fun a p => f a (fst p) (snd p))
                (flat_map (fun x => map (pair x) ys) xs) a.
Proof.
  revert a. induction xs as [|x xs IH]; intros a; simpl; [reflexivity|].
  rewrite fold_left_app, <- IH. f_equal.
  clear. revert a. induction ys as [|y ys IHy]; intros a; simpl; auto.
Qed.

End StoreFacts.

(** ** Columns of stacked matrices *)

Module MatrixFacts.
Import Np NpFacts MpcVecFacts.

Lemma rows_of_hcat2 (w1 w2 : nat) (M1 M2 : matrix) :
  rows_of w1 M1 -> rows_of w2 M2 -> rows_of (w1 + w2) (hcat2 M1 M2).
Proof.
  intros H1. revert M2. induction H1 as [|r1 M1 Hr1 _ IH]; intros M2 H2; simpl.
  - constructor.
  - destruct H2 as [|r2 M2 Hr2 H2]; constructor.
    + rewrite length_app. lia.
    + now apply IH.
Qed.

Lemma column_hcat2_l (w1 : nat) (M1 M2 : matrix) (j : nat) :
  rows_of w1 M1 -> length M1 = length M2 -> j < w1 ->
  column j (hcat2 M1 M2) = column j M1.
Proof.
  intros H1. revert M2. induction H1 as [|r1 M1 Hr1 _ IH]; intros [|r2 M2] Hl Hj;
    simpl in *; try discriminate; auto.
  rewrite app_nth1 by lia. f_equal. apply IH; auto.
Qed.

Lemma column_hcat2_r (w1 : nat) (M1 M2 : matrix) (j : nat) :
  rows_of w1 M1 -> length M1 = length M2 ->
  column (w1 + j) (hcat2 M1 M2) = column j M2.
Proof.
  intros H1. revert M2. induction H1 as [|r1 M1 Hr1 _ IH]; intros [|r2 M2] Hl;
    simpl in *; try discriminate; auto.
  rewrite app_nth2 by lia. f_equal.
  - f_equal. lia.
  - apply IH. lia.
Qed.

Lemma T_rows (w : nat) (M : matrix) :
  rows_of w M -> M <> [] -> T M = map (fun i => column i M) (seq 0 w).
Proof. intros H Hne. unfold T. now rewrite (ncols_rows H Hne). Qed.

Lemma hcat2_nonempty (M1 M2 : matrix) :
  length M1 = length M2 -> M1 <> [] -> hcat2 M1 M2 <> [].
Proof. destruct M1, M2; simpl; intros; try discriminate; congruence. Qed.

Lemma T_hcat2 (w1 w2 : nat) (M1 M2 : matrix) :
  rows_of w1 M1 -> rows_of w2 M2 -> length M1 = length M2 -> M1 <> [] ->
  T (hcat2 M1 M2) = T M1 ++ T M2.
Proof.
  intros H1 H2 Hl Hne.
  assert (Hne2 : M2 <> []) by (destruct M1, M2; simpl in *; congruence || discriminate).
  rewrite (@T_rows (w1 + w2) (hcat2 M1 M2)) by (auto using rows_of_hcat2, hcat2_nonempty).
  rewrite (@T_rows w1 M1), (@T_rows w2 M2) by assumption.
  rewrite seq_app, map_app. f_equal.
  - apply map_ext_in. intros j Hj. apply in_seq in Hj.
    apply (@column_hcat2_l w1); auto. lia.
  - replace (0 + w1) with (w1 + 0) by lia. rewrite (seq_add_map w1 0 w2), map_map.
    apply map_ext. intros j. now apply column_hcat2_r.
Qed.

End MatrixFacts.

(** ** NonlinearMPCController: the flat data array *)

Module MpcDataFacts.
Import Np NpFacts NonlinearMPC MpcVecFacts MatrixFacts StoreFacts.

(** The linearization blocks of one iteration: [N] matrices [nx] by [nx]
    and [N] matrices [nx] by [nu]. *)
Record blocks_ok (cfg : config) (A_lst B_lst : list matrix) : Prop := {
  bk_A_len : length A_lst = N cfg;
  bk_A : Forall (fun M => length M = nx cfg /\ rows_of (nx cfg) M) A_lst;
  bk_B_len : length B_lst = N cfg;
  bk_B : Forall (fun M => length M = nx cfg /\ rows_of (nu cfg) M) B_lst
}.

(** The columns [(t, i)] in the order the loops visit them. *)
Definition stage_cols (k w : nat) : list (nat * nat) :=
  flat_map (fun t => map (pair t) (seq 0 w)) (seq 0 k).

Definition cd (cfg : config) (i : nat) : vec := nth i (C_data cfg) [].

(** The pieces of the data array: a state column of a stage before the
    last, a state column of the last stage, an input column. *)
Definition A_seg (cfg : config) (A_lst : list matrix) (p : nat * nat) : seg :=
  ([(-1)%Z], column (snd p) (nth (fst p) A_lst []), cd cfg (snd p)).
Definition final_col (cfg : config) (i : nat) : vec := [(-1)%Z] ++ cd cfg i.
Definition B_seg (B_lst : list matrix) (p : nat * nat) : seg :=
  ([], column (snd p) (nth (fst p) B_lst []), [1%Z]).

Definition A_part (cfg : config) (A_lst : list matrix) : list vec :=
  map (fun p => seg_flat (A_seg cfg A_lst p)) (stage_cols (N cfg) (nx cfg)).
Definition final_part (cfg : config) : list vec := map (final_col cfg) (seq 0 (nx cfg)).
Definition B_part (cfg : config) (B_lst : list matrix) : list vec :=
  map (fun p => seg_flat (B_seg B_lst p)) (stage_cols (N cfg) (nu cfg)).

Lemma in_stage_cols (k w : nat) (p : nat * nat) :
  In p (stage_cols k w) <-> fst p < k /\ snd p < w.
Proof.
  unfold stage_cols. rewrite in_flat_map. split.
  - intros (t & Ht & Hp). apply in_seq in Ht. apply in_map_iff in Hp as (i & <- & Hi).
    apply in_seq in Hi. simpl. lia.
  - intros [Ht Hi]. exists (fst p). split; [apply in_seq; lia|].
    apply in_map_iff. exists (snd p). split; [now destruct p|apply in_seq; lia].
Qed.

(** The bodies of the two double loops. *)
Definition step_A (cfg : config) (A_lst : list matrix) (a : acc) (p : nat * nat) : acc :=
  let '(data, A_inds, start_ind_A) := a in
  let cd := nth (snd p) (C_data cfg) [] in
  (data ++ [[(-1)%Z] ++ column (snd p) (nth (fst p) A_lst []) ++ cd],
   A_inds ++ [seq start_ind_A (nx cfg)],
   start_ind_A + nx cfg + 1 + length cd).

Definition step_B (cfg : config) (B_lst : list matrix) (a : acc) (p : nat * nat) : acc :=
  let '(data, B_inds, start_ind_B) := a in
  (data ++ [column (snd p) (nth (fst p) B_lst []) ++ [1%Z]],
   B_inds ++ [seq start_ind_B (nx cfg)],
   start_ind_B + nx cfg + 1).

Lemma state_columns_fold (cfg : config) (A_lst : list matrix) (a0 : acc) :
  state_columns cfg A_lst a0
    = fold_left (step_A cfg A_lst) (stage_cols (N cfg) (nx cfg)) a0.
Proof.
  unfold state_columns, stage_cols.
  transitivity
    (fold_left
       (fun a t => fold_left (fun a i => step_A cfg A_lst a (t, i)) (seq 0 (nx cfg)) a)
       (seq 0 (N cfg)) a0); [reflexivity|].
  rewrite (fold_left_nested (fun (a : acc) t i => step_A cfg A_lst a (t, i))).
  apply fold_left_ext. intros a [t i]. reflexivity.
Qed.

Lemma input_columns_fold (cfg : config) (B_lst : list matrix) (a0 : acc) :
  input_columns cfg B_lst a0
    = fold_left (step_B cfg B_lst) (stage_cols (N cfg) (nu cfg)) a0.
Proof.
  unfold input_columns, stage_cols.
  transitivity
    (fold_left
       (fun a t => fold_left (fun a i => step_B cfg B_lst a (t, i)) (seq 0 (nu cfg)) a)
       (seq 0 (N cfg)) a0); [reflexivity|].
  rewrite (fold_left_nested (fun (a : acc) t i => step_B cfg B_lst a (t, i))).
  apply fold_left_ext. intros a [t i]. reflexivity.
Qed.

(** The loop over the state columns, on a list of columns. *)
Lemma state_loop (cfg : config) (A_lst : list matrix) (ps : list (nat * nat)) :
  (forall p, In p ps -> length (seg_body (A_seg cfg A_lst p)) = nx cfg) ->
  forall (data : list vec) (inds : list (list nat)) (base : nat),
    let r := fold_left (step_A cfg A_lst) ps (data, inds, base + 1) in
    fst (fst r) = data ++ map (fun p => seg_flat (A_seg cfg A_lst p)) ps
    /\ concat (snd (fst r)) = concat inds ++ seg_inds base (map (A_seg cfg A_lst) ps)
    /\ snd r = base + length (concat (map (fun p => seg_flat (A_seg cfg A_lst p)) ps)) + 1.
Proof.
  induction ps as [|p ps IH]; intros Hb data inds base; cbv zeta.
  - simpl. rewrite !app_nil_r. auto with arith.
  - cbn [fold_left].
    assert (Hp : length (column (snd p) (nth (fst p) A_lst [])) = nx cfg)
      by (apply (Hb p); now left).
    assert (Estep : step_A cfg A_lst (data, inds, base + 1) p
              = (data ++ [seg_flat (A_seg cfg A_lst p)],
                 inds ++ [seq (base + 1) (nx cfg)],
                 (base + length (seg_flat (A_seg cfg A_lst p))) + 1)).
    { unfold step_A, seg_flat, A_seg, seg_head, seg_body, seg_tail, cd. cbn [fst snd].
      f_equal. rewrite !length_app, Hp. simpl. lia. }
    rewrite Estep.
    destruct (IH (fun q Hq => Hb q (or_intror Hq))
                 (data ++ [seg_flat (A_seg cfg A_lst p)])
                 (inds ++ [seq (base + 1) (nx cfg)])
                 (base + length (seg_flat (A_seg cfg A_lst p)))) as (E1 & E2 & E3).
    split; [|split].
    + rewrite E1, <- app_assoc. reflexivity.
    + rewrite E2, concat_app. cbn [concat map seg_inds].
      rewrite app_nil_r, <- app_assoc. do 2 f_equal.
      unfold A_seg at 1 2, seg_head, seg_body. cbn [fst snd]. rewrite Hp. reflexivity.
    + rewrite E3. cbn [map concat]. rewrite length_app. lia.
Qed.

(** The loop over the input columns, on a list of columns. *)
Lemma input_loop (cfg : config) (B_lst : list matrix) (ps : list (nat * nat)) :
  (forall p, In p ps -> length (seg_body (B_seg B_lst p)) = nx cfg) ->
  forall (data : list vec) (inds : list (list nat)) (base : nat),
    let r := fold_left (step_B cfg B_lst) ps (data, inds, base) in
    fst (fst r) = data ++ map (fun p => seg_flat (B_seg B_lst p)) ps
    /\ concat (snd (fst r)) = concat inds ++ seg_inds base (map (B_seg B_lst) ps).
Proof.
  induction ps as [|p ps IH]; intros Hb data inds base; cbv zeta.
  - simpl. rewrite !app_nil_r. auto.
  - cbn [fold_left].
    assert (Hp : length (column (snd p) (nth (fst p) B_lst [])) = nx cfg)
      by (apply (Hb p); now left).
    assert (Estep : step_B cfg B_lst (data, inds, base) p
              = (data ++ [seg_flat (B_seg B_lst p)],
                 inds ++ [seq base (nx cfg)],
                 base + length (seg_flat (B_seg B_lst p)))).
    { unfold step_B, seg_flat, B_seg, seg_head, seg_body, seg_tail. cbn [fst snd app].
      f_equal. rewrite !length_app, Hp. simpl. lia. }
    rewrite Estep.
    destruct (IH (fun q Hq => Hb q (or_intror Hq))
                 (data ++ [seg_flat (B_seg B_lst p)])
                 (inds ++ [seq base (nx cfg)])
                 (base + length (seg_flat (B_seg B_lst p)))) as (E1 & E2).
    split.
    + rewrite E1, <- app_assoc. reflexivity.
    + rewrite E2, concat_app. cbn [concat map seg_inds].
      rewrite app_nil_r, <- app_assoc. do 2 f_equal.
      unfold B_seg at 1 2, seg_head, seg_body. cbn [fst snd length]. rewrite Hp.
      f_equal. lia.
Qed.

Definition nz (e : Z) : bool := negb (Z.eqb e 0).

Lemma length_nonzero_row (r : vec) : length (nonzero_row r) = length (filter nz r).
Proof.
  unfold nonzero_row. rewrite length_map. generalize 0 as a.
  induction r as [|x r IH]; intros a; simpl; [reflexivity|].
  fold (nz x). destruct (nz x); simpl; now rewrite IH.
Qed.

Lemma length_concat_cons_filter {X : Type} (f : X -> Z) (g : X -> vec) (l : list X) :
  length (concat (map (fun i => filter nz (f i :: g i)) l))
    = length (filter nz (map f l)) + length (concat (map (fun i => filter nz (g i)) l)).
Proof.
  induction l as [|x l IH]; [reflexivity|].
  cbn [map concat]. rewrite !length_app, IH. cbn [filter].
  destruct (nz (f x)); cbn [length]; lia.
Qed.

(** Counting the nonzero entries column by column or row by row. *)
Lemma count_by_columns (w : nat) (M : matrix) :
  rows_of w M ->
  length (concat (map (fun i => filter nz (column i M)) (seq 0 w)))
    = count_nonzero M.
Proof.
  unfold count_nonzero, nonzero_cols.
  induction 1 as [|r M Hr _ IH].
  - simpl. now rewrite concat_all_nil.
  - cbn [flat_map]. rewrite length_app, length_nonzero_row, <- IH.
    change (fun i => filter nz (column i (r :: M)))
      with (fun i => filter nz (nth i r 0%Z :: column i M)).
    rewrite length_concat_cons_filter. f_equal.
    rewrite <- Hr, map_nth_seq. reflexivity.
Qed.

Lemma cd_eq (cfg : config) (i : nat) :
  i < nx cfg -> cd cfg i = filter nz (column i (C cfg)).
Proof. intros Hi. unfold cd, C_data. now rewrite nth_map_seq. Qed.

Lemma length_final_part (cfg : config) :
  rows_of (nx cfg) (C cfg) ->
  length (concat (final_part cfg)) = nx cfg + count_nonzero (C cfg).
Proof.
  intros HC. rewrite <- (count_by_columns HC). unfold final_part, final_col.
  assert (E : forall l, (forall i, In i l -> i < nx cfg) ->
            length (concat (map (fun i => [(-1)%Z] ++ cd cfg i) l))
              = length l + length (concat (map (fun i => filter nz (column i (C cfg))) l))).
  { induction l as [|i l IH]; intros Hl; [reflexivity|].
    cbn [map concat]. rewrite !length_app.
    rewrite IH by (intros j Hj; apply Hl; now right).
    rewrite cd_eq by (apply Hl; now left). cbn [length]. lia. }
  rewrite E by (intros i Hi; apply in_seq in Hi; lia).
  now rewrite length_seq.
Qed.

Section Data.

Variable cfg : config.
Hypothesis C_rows : rows_of (nx cfg) (C cfg).

Lemma A_body_length (A_lst B_lst : list matrix) (p : nat * nat) :
  blocks_ok cfg A_lst B_lst -> In p (stage_cols (N cfg) (nx cfg)) ->
  length (seg_body (A_seg cfg A_lst p)) = nx cfg.
Proof.
  intros Hok Hp. apply in_stage_cols in Hp as [Ht _].
  unfold A_seg, seg_body. cbn [fst snd]. rewrite length_column.
  pose proof (bk_A Hok) as HA. rewrite Forall_forall in HA.
  apply HA, nth_In. now rewrite (bk_A_len Hok).
Qed.

Lemma B_body_length (A_lst B_lst : list matrix) (p : nat * nat) :
  blocks_ok cfg A_lst B_lst -> In p (stage_cols (N cfg) (nu cfg)) ->
  length (seg_body (B_seg B_lst p)) = nx cfg.
Proof.
  intros Hok Hp. apply in_stage_cols in Hp as [Ht _].
  unfold B_seg, seg_body. cbn [fst snd]. rewrite length_column.
  pose proof (bk_B Hok) as HB. rewrite Forall_forall in HB.
  apply HB, nth_In. now rewrite (bk_B_len Hok).
Qed.

(** What [construct_constraint_matrix_data_] builds: the pieces in
    order, and the positions of the entries of the blocks. *)
Lemma constraint_matrix_data_closed (A_lst B_lst : list matrix) :
  blocks_ok cfg A_lst B_lst ->
  constraint_matrix_data cfg A_lst B_lst
    = (concat (A_part cfg A_lst ++ final_part cfg ++ B_part cfg B_lst),
       seg_inds 0 (map (A_seg cfg A_lst) (stage_cols (N cfg) (nx cfg))),
       seg_inds (length (concat (A_part cfg A_lst)) + length (concat (final_part cfg)))
                (map (B_seg B_lst) (stage_cols (N cfg) (nu cfg)))).
Proof.
  intros Hok. unfold constraint_matrix_data.
  rewrite state_columns_fold.
  destruct (@state_loop cfg A_lst (stage_cols (N cfg) (nx cfg))
              (fun p Hp => A_body_length p Hok Hp) [] [] 0) as (E1 & E2 & E3).
  change (0 + 1) with 1 in E1, E2, E3.
  destruct (fold_left (step_A cfg A_lst) (stage_cols (N cfg) (nx cfg)) ([], [], 1))
    as [[data A_inds] start_ind_A].
  cbn [fst snd] in E1, E2, E3. simpl in E1, E2.
  assert (Ef : final_columns cfg data = data ++ final_part cfg).
  { unfold final_columns, final_part, final_col, cd.
    apply (fold_left_snoc (fun i => [(-1)%Z] ++ nth i (C_data cfg) [])). }
  rewrite Ef, input_columns_fold.
  set (base := start_ind_A + nx cfg + count_nonzero (C cfg) - 1).
  destruct (@input_loop cfg B_lst (stage_cols (N cfg) (nu cfg))
              (fun p Hp => B_body_length p Hok Hp) (data ++ final_part cfg) [] base)
    as (F1 & F2).
  destruct (fold_left (step_B cfg B_lst) (stage_cols (N cfg) (nu cfg))
              (data ++ final_part cfg, [], base)) as [[data' B_inds] start_ind_B].
  cbn [fst snd] in F1, F2. simpl in F2.
  subst data. rewrite F1, E2, F2, <- app_assoc. f_equal.
  f_equal. unfold base. rewrite E3, (@length_final_part cfg C_rows).
  fold (A_part cfg A_lst). simpl. lia.
Qed.

End Data.

Lemma T_fold_hcat2 (r w : nat) (rest : list matrix) :
  0 < r ->
  Forall (fun M => length M = r /\ rows_of w M) rest ->
  forall (M : matrix) (wm : nat),
    length M = r -> rows_of wm M ->
    T (fold_left hcat2 rest M) = T M ++ flat_map T rest.
Proof.
  intros Hr. induction 1 as [|M2 rest [Hl2 Hw2] _ IH]; intros M wm Hl Hw.
  - simpl. now rewrite app_nil_r.
  - cbn [fold_left flat_map].
    assert (Hne : M <> []) by (intros ->; simpl in Hl; lia).
    rewrite (IH (hcat2 M M2) (wm + w)).
    + rewrite (@T_hcat2 wm w) by (auto; lia). now rewrite <- app_assoc.
    + rewrite length_hcat2. lia.
    + now apply rows_of_hcat2.
Qed.

Lemma map_flat_map {X Y W : Type} (f : Y -> W) (g : X -> list Y) (l : list X) :
  map f (flat_map g l) = flat_map (fun x => map f (g x)) l.
Proof.
  induction l as [|x l IH]; simpl; [reflexivity|]. now rewrite map_app, IH.
Qed.

Lemma flat_map_ext_in {X Y : Type} (f g : X -> list Y) (l : list X) :
  (forall x, In x l -> f x = g x) -> flat_map f l = flat_map g l.
Proof.
  intros H. rewrite !flat_map_concat_map. f_equal. now apply map_ext_in.
Qed.

Lemma flat_map_nth_seq {X Y : Type} (f : X -> list Y) (l : list X) (d : X) :
  flat_map (fun t => f (nth t l d)) (seq 0 (length l)) = flat_map f l.
Proof.
  rewrite !flat_map_concat_map. f_equal. apply map_f_nth_seq.
Qed.

(** [np.hstack(lst).flatten(order='F')] lists the columns of the blocks,
    block after block. *)
Lemma flatten_F_hstack (r w : nat) (Ms : list matrix) :
  0 < r -> Ms <> [] ->
  Forall (fun M => length M = r /\ rows_of w M) Ms ->
  flatten_F (Sp.hstack Ms)
    = concat (map (fun p => column (snd p) (nth (fst p) Ms [])) (stage_cols (length Ms) w)).
Proof.
  intros Hr Hne HMs. destruct Ms as [|M rest]; [congruence|].
  unfold flatten_F, Sp.hstack. f_equal.
  pose proof HMs as HMs'. inversion HMs' as [|? ? [Hl Hw] Hrest]. subst.
  rewrite (@T_fold_hcat2 (length M) w rest Hr Hrest M w eq_refl Hw).
  change (T M ++ flat_map T rest) with (flat_map T (M :: rest)).
  transitivity (flat_map (fun M' => map (fun i => column i M') (seq 0 w)) (M :: rest)).
  - apply flat_map_ext_in.
    intros M' HM'. rewrite Forall_forall in HMs. destruct (HMs M' HM') as [Hl' Hw'].
    apply T_rows; auto. intros ->. simpl in Hl'. lia.
  - rewrite <- (flat_map_nth_seq
                  (fun M' => map (fun i => column i M') (seq 0 w)) (M :: rest) []).
    unfold stage_cols. rewrite map_flat_map.
    apply flat_map_ext. intros t. now rewrite map_map.
Qed.

Lemma Forall2_map_same {X Y W : Type} (R : Y -> W -> Prop) (f : X -> Y) (g : X -> W)
    (l : list X) :
  (forall x, In x l -> R (f x) (g x)) -> Forall2 R (map f l) (map g l).
Proof.
  induction l as [|x l IH]; intros H; simpl; constructor.
  - apply H. now left.
  - apply IH. intros y Hy. apply H. now right.
Qed.

Lemma zip_with_map_same {X Y W V : Type} (h : Y -> W -> V) (f : X -> Y) (g : X -> W)
    (l : list X) :
  zip_with h (map f l) (map g l) = map (fun x => h (f x) (g x)) l.
Proof. induction l as [|x l IH]; simpl; congruence. Qed.

Lemma length_concat_same {X Y : Type} (f g : X -> list Y) (l : list X) :
  (forall x, In x l -> length (f x) = length (g x)) ->
  length (concat (map f l)) = length (concat (map g l)).
Proof.
  induction l as [|x l IH]; intros H; simpl; [reflexivity|].
  rewrite !length_app, IH by (intros y Hy; apply H; now right).
  rewrite (H x) by now left. reflexivity.
Qed.

Lemma seg_inds_same {X : Type} (f g : X -> seg) (l : list X) (base : nat) :
  (forall x, In x l ->
     length (seg_head (f x)) = length (seg_head (g x))
     /\ length (seg_body (f x)) = length (seg_body (g x))
     /\ length (seg_tail (f x)) = length (seg_tail (g x))) ->
  seg_inds base (map f l) = seg_inds base (map g l).
Proof.
  revert base. induction l as [|x l IH]; intros base H; [reflexivity|].
  cbn [map seg_inds]. destruct (H x (or_introl eq_refl)) as (H1 & H2 & H3).
  unfold seg_flat. rewrite !length_app, H1, H2, H3.
  f_equal. apply IH. intros y Hy. apply H. now right.
Qed.

Lemma hstack_flatten_F_ok (r w : nat) (Ms : list matrix) :
  0 < r -> 0 < length Ms ->
  Forall (fun M => length M = r /\ rows_of w M) Ms ->
  hstack_flatten_F Ms
    = Ok (concat (map (fun p => column (snd p) (nth (fst p) Ms []))
                      (stage_cols (length Ms) w))).
Proof.
  intros Hr Hl HMs. unfold hstack_flatten_F.
  destruct Ms as [|M rest] eqn:E; [simpl in Hl; lia|].
  rewrite <- E in *. f_equal. apply (@flatten_F_hstack r w); auto.
  rewrite E. discriminate.
Qed.

Section Update.

Variable cfg : config.
Hypothesis C_rows : rows_of (nx cfg) (C cfg).
Hypothesis nx_pos : 0 < nx cfg.
Hypothesis N_pos : 0 < N cfg.

Variables A0 B0 A1 B1 : list matrix.
Hypothesis ok0 : blocks_ok cfg A0 B0.
Hypothesis ok1 : blocks_ok cfg A1 B1.

Local Abbreviation psA := (stage_cols (N cfg) (nx cfg)).
Local Abbreviation psB := (stage_cols (N cfg) (nu cfg)).

Lemma A_part_length : length (concat (A_part cfg A1)) = length (concat (A_part cfg A0)).
Proof.
  unfold A_part. apply length_concat_same. intros p Hp.
  pose proof (A_body_length p ok0 Hp) as H0. pose proof (A_body_length p ok1 Hp) as H1.
  unfold seg_flat, A_seg, seg_head, seg_body, seg_tail in *. cbn [fst snd] in *.
  rewrite !length_app. lia.
Qed.

(** The index lists do not depend on the blocks. *)
Lemma inds_same :
  snd (fst (constraint_matrix_data cfg A1 B1)) = snd (fst (constraint_matrix_data cfg A0 B0))
  /\ snd (constraint_matrix_data cfg A1 B1) = snd (constraint_matrix_data cfg A0 B0).
Proof.
  rewrite !constraint_matrix_data_closed by assumption. cbn [fst snd].
  rewrite A_part_length. split.
  - apply seg_inds_same. intros p Hp.
    pose proof (A_body_length p ok0 Hp). pose proof (A_body_length p ok1 Hp).
    repeat split; auto. congruence.
  - apply seg_inds_same. intros p Hp.
    pose proof (B_body_length p ok0 Hp). pose proof (B_body_length p ok1 Hp).
    repeat split; auto. congruence.
Qed.

(** Overwriting the array built from the blocks [(A0, B0)] with the
    blocks [(A1, B1)] gives the array built from [(A1, B1)]. *)
Lemma update_data_rebuild :
  update_data (snd (fst (constraint_matrix_data cfg A0 B0)))
              (snd (constraint_matrix_data cfg A0 B0))
              A1 B1
              (fst (fst (constraint_matrix_data cfg A0 B0)))
    = Ok (fst (fst (constraint_matrix_data cfg A1 B1))).
Proof.
  rewrite !constraint_matrix_data_closed by assumption. cbn [fst snd].
  unfold update_data.
  assert (HlA : 0 < length A1) by (rewrite (bk_A_len ok1); exact N_pos).
  assert (HlB : 0 < length B1) by (rewrite (bk_B_len ok1); exact N_pos).
  rewrite (@hstack_flatten_F_ok (nx cfg) (nx cfg) A1 nx_pos HlA (bk_A ok1)).
  rewrite (@hstack_flatten_F_ok (nx cfg) (nu cfg) B1 nx_pos HlB (bk_B ok1)).
  rewrite (bk_A_len ok1), (bk_B_len ok1). cbn [bind].
  set (bodyA := fun p : nat * nat => column (snd p) (nth (fst p) A1 [])).
  set (bodyB := fun p : nat * nat => column (snd p) (nth (fst p) B1 [])).
  assert (FA : Forall2 (fun s b => length (seg_body s) = length b)
                 (map (A_seg cfg A0) psA) (map bodyA psA)).
  { apply Forall2_map_same. intros p Hp.
    rewrite (A_body_length p ok0 Hp). symmetry. apply (A_body_length p ok1 Hp). }
  assert (FB : Forall2 (fun s b => length (seg_body s) = length b)
                 (map (B_seg B0) psB) (map bodyB psB)).
  { apply Forall2_map_same. intros p Hp.
    rewrite (B_body_length p ok0 Hp). symmetry. apply (B_body_length p ok1 Hp). }
  assert (LA : length (seg_inds 0 (map (A_seg cfg A0) psA)) = length (concat (map bodyA psA))).
  { rewrite length_seg_inds, map_map. apply length_concat_same. intros p Hp.
    rewrite (A_body_length p ok0 Hp). symmetry. apply (A_body_length p ok1 Hp). }
  rewrite assign_at_store by exact LA.
  rewrite !concat_app.
  pose proof (@store_segments (map (A_seg cfg A0) psA) (map bodyA psA) []
                (concat (final_part cfg) ++ concat (B_part cfg B0)) FA) as SA.
  rewrite zip_with_map_same, !map_map in SA.
  change (map (fun x => seg_flat (set_body (A_seg cfg A0 x) (bodyA x))) psA)
    with (A_part cfg A1) in SA.
  fold (A_part cfg A0) in SA.
  cbn [length app] in SA. rewrite SA. cbn [bind].
  set (pre := concat (A_part cfg A1) ++ concat (final_part cfg)).
  assert (LB : length (seg_inds (length (concat (A_part cfg A0)) + length (concat (final_part cfg)))
                         (map (B_seg B0) psB))
               = length (concat (map bodyB psB))).
  { rewrite length_seg_inds, map_map. apply length_concat_same. intros p Hp.
    rewrite (B_body_length p ok0 Hp). symmetry. apply (B_body_length p ok1 Hp). }
  rewrite assign_at_store by exact LB.
  pose proof (@store_segments (map (B_seg B0) psB) (map bodyB psB) pre [] FB) as SB.
  rewrite zip_with_map_same, !map_map, !app_nil_r in SB.
  change (map (fun x => seg_flat (set_body (B_seg B0 x) (bodyB x))) psB)
    with (B_part cfg B1) in SB.
  fold (B_part cfg B0) in SB.
  replace (length pre)
    with (length (concat (A_part cfg A0)) + length (concat (final_part cfg))) in SB
    by (unfold pre; rewrite length_app, A_part_length; reflexivity).
  rewrite app_assoc. fold pre. rewrite SB. unfold pre. now rewrite <- app_assoc.
Qed.

End Update.

End MpcDataFacts.

(** ** Columns of the constraint matrix and its CSC data *)

Module CscFacts.
Import Np NpFacts NonlinearMPC MpcVecFacts MatrixFacts StoreFacts MpcDataFacts.

Lemma select_app (p1 p2 v1 v2 : vec) :
  length p1 = length v1 ->
  Sp.select (p1 ++ p2) (v1 ++ v2) = Sp.select p1 v1 ++ Sp.select p2 v2.
Proof.
  intros H. unfold Sp.select.
  rewrite <- map_app, <- filter_app. do 2 f_equal.
  revert v1 H. induction p1 as [|a p1 IH]; intros [|b v1] H; simpl in *; try discriminate; auto.
  f_equal. apply IH. lia.
Qed.

Lemma select_zeros (k : nat) (v : vec) : Sp.select (zeros k) v = [].
Proof.
  unfold Sp.select, zeros. revert v.
  induction k as [|k IH]; intros [|b v]; simpl; auto.
Qed.

Lemma select_ones (v : vec) : Sp.select (ones (length v)) v = v.
Proof.
  unfold Sp.select, ones. induction v as [|b v IH]; simpl; [reflexivity|]. now f_equal.
Qed.

Lemma select_self (v : vec) : Sp.select v v = filter nz v.
Proof.
  unfold Sp.select. induction v as [|b v IH]; simpl; [reflexivity|].
  fold (nz b). destruct (nz b); simpl; now rewrite IH.
Qed.

Lemma column_zeros2 (r c j : nat) : column j (zeros2 r c) = zeros r.
Proof.
  unfold column, zeros2. induction r as [|r IH]; simpl; [reflexivity|].
  rewrite nth_zeros, IH. reflexivity.
Qed.

Lemma column_ones2 (r c j : nat) : j < c -> column j (ones2 r c) = ones r.
Proof.
  intros Hj.
  assert (H1 : nth j (ones c) 0%Z = 1%Z).
  { unfold ones. revert j Hj.
    induction c as [|c IHc]; intros [|j] Hj; simpl; try lia; auto. apply IHc. lia. }
  unfold column, ones2. induction r as [|r IH]; simpl; [reflexivity|].
  rewrite H1, IH. reflexivity.
Qed.

Lemma column_eye (k j : nat) :
  j < k -> column j (eye k) = zeros j ++ 1%Z :: zeros (k - S j).
Proof.
  intros Hj. rewrite <- unit_row_split by assumption.
  unfold column, eye, unit_row. rewrite map_map.
  apply map_ext_in. intros i Hi. apply in_seq in Hi.
  rewrite nth_map_seq by assumption. simpl. now rewrite Nat.eqb_sym.
Qed.

Lemma column_neg (M : matrix) (j : nat) : column j (Sp.neg M) = vneg (column j M).
Proof.
  unfold column, Sp.neg, vneg. rewrite !map_map. apply map_ext. intros r.
  destruct (Nat.lt_ge_cases j (length r)) as [H|H].
  - now rewrite nth_map_lt with (dx := 0%Z).
  - rewrite !nth_overflow by (rewrite ?length_map; lia). reflexivity.
Qed.

Lemma column_add (w : nat) (M1 M2 : matrix) (j : nat) :
  rows_of w M1 -> rows_of w M2 ->
  column j (Sp.add M1 M2) = vadd (column j M1) (column j M2).
Proof.
  intros H1. revert M2. unfold Sp.add, madd, vadd, column.
  induction H1 as [|r1 M1 Hr1 _ IH]; intros M2 H2; [reflexivity|].
  destruct H2 as [|r2 M2 Hr2 H2]; [reflexivity|].
  simpl. f_equal; [|now apply IH].
  destruct (Nat.lt_ge_cases j w) as [H|H].
  - now rewrite nth_zip_with with (dx := 0%Z) (dy := 0%Z) by lia.
  - rewrite !nth_overflow by (rewrite ?length_zip_with; lia). reflexivity.
Qed.

Lemma zeros_app (a b : nat) : zeros (a + b) = zeros a ++ zeros b.
Proof. apply repeat_app. Qed.

Lemma vadd_zeros_zeros (k : nat) : vadd (zeros k) (zeros k) = zeros k.
Proof. rewrite <- (length_zeros k) at 1. apply vadd_zeros_l. Qed.

Lemma vadd_app (a1 a2 b1 b2 : vec) :
  length a1 = length b1 -> vadd (a1 ++ a2) (b1 ++ b2) = vadd a1 b1 ++ vadd a2 b2.
Proof. apply zip_with_app. Qed.

Lemma map_all_zero {X : Type} (f : X -> Z) (l : list X) :
  (forall x, In x l -> f x = 0%Z) -> map f l = zeros (length l).
Proof.
  induction l as [|x l IH]; intros H; simpl; [reflexivity|].
  rewrite H by now left. rewrite IH by (intros y Hy; apply H; now right).
  reflexivity.
Qed.

(** Blocks of [r] rows and [w] columns. *)
Definition block_shape (r w : nat) (Ms : list matrix) : Prop :=
  Forall (fun M => length M = r /\ rows_of w M) Ms.

Lemma length_block_diag (r w : nat) (Ms : list matrix) :
  block_shape r w Ms -> length (Sp.block_diag Ms) = length Ms * r.
Proof.
  induction 1 as [|M rest [Hl Hw] _ IH]; [reflexivity|].
  cbn [Sp.block_diag length]. rewrite length_app, !length_map, IH, Hl. lia.
Qed.

Lemma block_diag_shape (r w : nat) (Ms : list matrix) :
  0 < r -> block_shape r w Ms ->
  rows_of (length Ms * w) (Sp.block_diag Ms)
  /\ ncols (Sp.block_diag Ms) = length Ms * w.
Proof.
  intros Hr. induction 1 as [|M rest [Hl Hw] Hrest [IHr IHc]].
  - split; [constructor|reflexivity].
  - cbn [Sp.block_diag length]. rewrite IHc.
    assert (HcM : ncols M = w).
    { apply ncols_rows; auto. intros ->. simpl in Hl. lia. }
    rewrite HcM. split.
    + apply Forall_app. split; apply Forall_forall; intros row Hrow;
        apply in_map_iff in Hrow as (row0 & <- & Hin); rewrite length_app, length_zeros.
      * unfold rows_of in Hw. rewrite Forall_forall in Hw. rewrite (Hw row0 Hin). lia.
      * unfold rows_of in IHr. rewrite Forall_forall in IHr. rewrite (IHr row0 Hin). lia.
    + destruct M as [|row0 M]; [simpl in Hl; lia|].
      unfold ncols. cbn [map app hd]. rewrite length_app, length_zeros.
      inversion Hw; subst. lia.
Qed.

(** Column [t * w + i] of a block-diagonal matrix: column [i] of block
    [t], between zeros. *)
Lemma column_block_diag (r w : nat) (Ms : list matrix) (t i : nat) :
  0 < r -> block_shape r w Ms -> t < length Ms -> i < w ->
  column (t * w + i) (Sp.block_diag Ms)
    = zeros (t * r) ++ column i (nth t Ms []) ++ zeros ((length Ms - 1 - t) * r).
Proof.
  intros Hr HMs. revert t. induction HMs as [|M rest [Hl Hw] Hrest IH]; intros t Ht Hi.
  - simpl in Ht. lia.
  - cbn [Sp.block_diag]. rewrite column_app.
    assert (HcM : ncols M = w).
    { apply ncols_rows; auto. intros ->. simpl in Hl. lia. }
    rewrite HcM. destruct t as [|t].
    + cbn [Nat.mul Nat.add nth zeros repeat app length].
      rewrite Nat.sub_0_r. replace (S (length rest) - 1) with (length rest) by lia.
      f_equal.
      * unfold column. rewrite map_map. apply map_ext_in. intros row Hrow.
        unfold rows_of in Hw. rewrite Forall_forall in Hw.
        rewrite app_nth1 by (rewrite (Hw row Hrow); lia). reflexivity.
      * unfold column. rewrite map_map, <- (length_block_diag Hrest).
        apply map_all_zero. intros row _.
        rewrite app_nth1 by (rewrite length_zeros; lia). apply nth_zeros.
    + cbn [nth length]. replace (S t * w + i) with (w + (t * w + i)) by lia.
      replace (S t * r) with (r + t * r) by lia.
      replace (S (length rest) - 1 - S t) with (length rest - 1 - t) by lia.
      rewrite zeros_app, <- app_assoc. f_equal.
      * unfold column. rewrite map_map, <- Hl.
        apply map_all_zero. intros row Hrow.
        unfold rows_of in Hw. rewrite Forall_forall in Hw.
        rewrite app_nth2 by (rewrite (Hw row Hrow); lia).
        apply nth_zeros.
      * rewrite <- IH by (simpl in Ht; lia).
        unfold column. rewrite map_map. apply map_ext. intros row.
        rewrite app_nth2 by (rewrite length_zeros; lia).
        rewrite length_zeros. f_equal. lia.
Qed.

Lemma length_kron_row (ar br : vec) :
  length (flat_map (fun a => map (Z.mul a) br) ar) = length ar * length br.
Proof.
  induction ar as [|a ar IH]; simpl; [reflexivity|].
  now rewrite length_app, length_map, IH.
Qed.

Lemma nth_kron_row (ar br : vec) (t i : nat) :
  i < length br ->
  nth (t * length br + i) (flat_map (fun a => map (Z.mul a) br) ar) 0%Z
    = (nth t ar 0 * nth i br 0)%Z.
Proof.
  intros Hi. revert t. induction ar as [|a ar IH]; intros t.
  - simpl. destruct (t * length br + i), t; reflexivity.
  - cbn [flat_map]. destruct t as [|t].
    + rewrite app_nth1 by (rewrite length_map; simpl; lia).
      simpl. now rewrite nth_map_lt with (dx := 0%Z).
    + rewrite app_nth2 by (rewrite length_map; simpl; lia).
      rewrite length_map. cbn [nth].
      replace (S t * length br + i - length br) with (t * length br + i) by (simpl; lia).
      apply IH.
Qed.

Lemma length_kron (M1 M2 : matrix) : length (Sp.kron M1 M2) = length M1 * length M2.
Proof.
  unfold Sp.kron. induction M1 as [|r M1 IH]; simpl; [reflexivity|].
  now rewrite length_app, length_map, IH.
Qed.

Lemma rows_kron (w1 w2 : nat) (M1 M2 : matrix) :
  rows_of w1 M1 -> rows_of w2 M2 -> rows_of (w1 * w2) (Sp.kron M1 M2).
Proof.
  intros H1 H2. unfold Sp.kron, rows_of in *. rewrite Forall_forall in *.
  intros row Hrow. apply in_flat_map in Hrow as (ar & Har & Hrow).
  apply in_map_iff in Hrow as (br & <- & Hbr).
  now rewrite length_kron_row, (H1 ar Har), (H2 br Hbr).
Qed.

Lemma flat_map_zeros {X : Type} (f : X -> vec) (m : nat) (l : list X) :
  (forall x, In x l -> f x = zeros m) -> flat_map f l = zeros (length l * m).
Proof.
  induction l as [|x l IH]; intros H; [reflexivity|].
  cbn [flat_map length]. rewrite H by now left.
  rewrite IH by (intros y Hy; apply H; now right).
  simpl. now rewrite zeros_app.
Qed.

Lemma flat_map_delta (k t m : nat) (v : vec) :
  t < k ->
  flat_map (fun s => if Nat.eqb s t then v else zeros m) (seq 0 k)
    = zeros (t * m) ++ v ++ zeros ((k - 1 - t) * m).
Proof.
  intros Ht. replace k with (t + S (k - 1 - t)) at 1 by lia.
  rewrite seq_app, flat_map_app. cbn [seq flat_map Nat.add]. rewrite Nat.eqb_refl.
  rewrite (@flat_map_zeros nat (fun s => if Nat.eqb s t then v else zeros m) m (seq 0 t))
    by (intros s Hs; apply in_seq in Hs; destruct (Nat.eqb_spec s t); [lia|reflexivity]).
  rewrite (@flat_map_zeros nat (fun s => if Nat.eqb s t then v else zeros m) m (seq (S t) (k - 1 - t)))
    by (intros s Hs; apply in_seq in Hs; destruct (Nat.eqb_spec s t); [lia|reflexivity]).
  now rewrite !length_seq.
Qed.

(** Column [t * w + i] of [kron(eye(k), C)]: column [i] of [C] in block
    [t], zeros elsewhere. *)
Lemma column_kron_eye (k w : nat) (Cm : matrix) (t i : nat) :
  rows_of w Cm -> t < k -> i < w ->
  column (t * w + i) (Sp.kron (Sp.eye k) Cm)
    = zeros (t * length Cm) ++ column i Cm ++ zeros ((k - 1 - t) * length Cm).
Proof.
  intros HC Ht Hi. rewrite <- flat_map_delta by assumption.
  unfold column at 1, Sp.kron, Sp.eye, eye.
  rewrite map_flat_map, flat_map_concat_map, map_map, <- flat_map_concat_map.
  apply flat_map_ext_in. intros s Hs. apply in_seq in Hs.
  rewrite map_map.
  destruct (Nat.eqb_spec s t) as [->|Hne].
  - apply map_ext_in. intros br Hbr.
    unfold rows_of in HC. rewrite Forall_forall in HC.
    rewrite <- (HC br Hbr), nth_kron_row by (rewrite (HC br Hbr); exact Hi).
    rewrite nth_unit_row, Nat.eqb_refl by lia. lia.
  - apply map_all_zero. intros br Hbr.
    unfold rows_of in HC. rewrite Forall_forall in HC.
    rewrite <- (HC br Hbr), nth_kron_row by (rewrite (HC br Hbr); exact Hi).
    rewrite nth_unit_row by lia.
    destruct (Nat.eqb_spec s t); [lia|]. lia.
Qed.

Lemma rows_zeros2 (r c : nat) : rows_of c (zeros2 r c).
Proof.
  unfold rows_of, zeros2. apply Forall_forall. intros row H.
  apply repeat_spec in H. subst. apply length_zeros.
Qed.

Lemma rows_eye (k : nat) : rows_of k (eye k).
Proof.
  unfold rows_of, eye. apply Forall_forall. intros row H.
  apply in_map_iff in H as (i & <- & _). apply length_unit_row.
Qed.

Lemma rows_neg (w : nat) (M : matrix) : rows_of w M -> rows_of w (Sp.neg M).
Proof.
  unfold rows_of, Sp.neg. intros H. apply Forall_forall. intros row Hrow.
  apply in_map_iff in Hrow as (r0 & <- & Hr0). rewrite Forall_forall in H.
  now rewrite length_vneg, (H r0 Hr0).
Qed.

Lemma vadd_unit_block (a b e : nat) (x : Z) (v : vec) :
  vadd (zeros a ++ x :: zeros (b + length v + e)) (zeros (a + 1 + b) ++ v ++ zeros e)
    = zeros a ++ x :: zeros b ++ v ++ zeros e.
Proof.
  rewrite !zeros_app. cbn [zeros repeat]. fold (zeros b). fold (zeros a).
  rewrite <- !app_assoc. cbn [app].
  rewrite vadd_app by now rewrite !length_zeros.
  rewrite vadd_zeros_zeros. f_equal.
  change (vadd (x :: zeros b ++ zeros (length v) ++ zeros e) (0%Z :: zeros b ++ v ++ zeros e))
    with ((x + 0)%Z :: vadd (zeros b ++ zeros (length v) ++ zeros e) (zeros b ++ v ++ zeros e)).
  rewrite Z.add_0_r. f_equal.
  rewrite vadd_app by now rewrite !length_zeros.
  rewrite vadd_zeros_zeros. f_equal.
  rewrite vadd_app by now rewrite !length_zeros.
  now rewrite vadd_zeros_l, vadd_zeros_zeros.
Qed.

Section Columns.

Variable cfg : config.
Hypothesis nx_pos : 0 < nx cfg.
Hypothesis C_rows : rows_of (nx cfg) (C cfg).
Hypothesis C_len : length (C cfg) = ns cfg.

Variables A_lst B_lst : list matrix.
Hypothesis ok : blocks_ok cfg A_lst B_lst.

Local Abbreviation K := ((N cfg + 1) * nx cfg).
Local Abbreviation U := (N cfg * nu cfg).
Local Abbreviation S' := ((N cfg + 1) * ns cfg).

(** The three row blocks of the constraint matrix. *)
Definition A_dyn : matrix :=
  zeros2 (nx cfg) K ++ hcat2 (Sp.block_diag A_lst) (zeros2 (N cfg * nx cfg) (nx cfg)).
Definition Ax : matrix := Sp.add (Sp.neg (eye K)) A_dyn.
Definition Bu : matrix := zeros2 (nx cfg) U ++ Sp.block_diag B_lst.
Definition Aineq_u : matrix := hcat2 (zeros2 U K) (eye U).
Definition Aineq_x : matrix := hcat2 (Sp.kron (Sp.eye (N cfg + 1)) (C cfg)) (zeros2 S' U).

Lemma constraint_matrix_parts :
  constraint_matrix cfg A_lst B_lst = hcat2 Ax Bu ++ Aineq_u ++ Aineq_x.
Proof.
  unfold constraint_matrix, Sp.vstack, Sp.hstack, Sp.empty, Sp.eye.
  cbv zeta. cbn [concat fold_left]. rewrite !app_nil_r. reflexivity.
Qed.

Lemma shape_A : block_shape (nx cfg) (nx cfg) A_lst.
Proof. apply (bk_A ok). Qed.

Lemma shape_B : block_shape (nx cfg) (nu cfg) B_lst.
Proof. apply (bk_B ok). Qed.

Lemma length_A_dyn : length A_dyn = K.
Proof.
  unfold A_dyn.
  rewrite length_app, length_zeros2, length_hcat2, (length_block_diag shape_A),
    length_zeros2, (bk_A_len ok). lia.
Qed.

Lemma rows_A_dyn : rows_of K A_dyn.
Proof.
  unfold A_dyn. apply Forall_app. split; [apply rows_zeros2|].
  replace K with (N cfg * nx cfg + nx cfg) by lia.
  apply rows_of_hcat2; [|apply rows_zeros2].
  rewrite <- (bk_A_len ok). apply (block_diag_shape nx_pos shape_A).
Qed.

Lemma length_Ax : length Ax = K.
Proof.
  unfold Ax, Sp.add, madd, Sp.neg.
  rewrite length_zip_with, length_map, length_eye, length_A_dyn. lia.
Qed.

Lemma rows_Ax : rows_of K Ax.
Proof.
  unfold Ax, Sp.add, madd. pose proof rows_A_dyn as HA.
  pose proof (rows_neg (rows_eye K)) as HE.
  unfold rows_of in *. revert HA.
  generalize A_dyn as M2. revert HE. generalize (Sp.neg (eye K)) as M1.
  induction M1 as [|r1 M1 IH]; intros H1 [|r2 M2] H2; simpl; constructor.
  - inversion H1; inversion H2; subst. unfold vadd. rewrite length_zip_with. lia.
  - inversion H1; inversion H2; subst. now apply IH.
Qed.

Lemma length_Bu : length Bu = K.
Proof.
  unfold Bu. rewrite length_app, length_zeros2, (length_block_diag shape_B), (bk_B_len ok).
  lia.
Qed.

(** A state column of a stage before the last. *)
Lemma column_state (t i : nat) :
  t < N cfg -> i < nx cfg ->
  column (t * nx cfg + i) (constraint_matrix cfg A_lst B_lst)
    = (zeros (t * nx cfg + i) ++ (-1)%Z :: zeros (nx cfg - 1 - i)
         ++ column i (nth t A_lst []) ++ zeros ((N cfg - 1 - t) * nx cfg))
      ++ zeros U
      ++ (zeros (t * ns cfg) ++ column i (C cfg) ++ zeros ((N cfg - t) * ns cfg)).
Proof.
  intros Ht Hi. set (j := t * nx cfg + i).
  assert (Hj : j < N cfg * nx cfg) by (unfold j; nia).
  assert (HjK : j < K) by lia.
  rewrite constraint_matrix_parts, !column_app. f_equal; [|f_equal].
  - rewrite (@column_hcat2_l K) by (auto using rows_Ax; rewrite ?length_Ax, ?length_Bu; auto).
    unfold Ax. rewrite (@column_add K) by (auto using rows_A_dyn, rows_neg, rows_eye).
    rewrite column_neg, column_eye by assumption.
    unfold A_dyn. rewrite column_app, column_zeros2.
    rewrite (@column_hcat2_l (N cfg * nx cfg))
      by (try (rewrite <- (bk_A_len ok); apply (block_diag_shape nx_pos shape_A));
          rewrite ?(length_block_diag shape_A), ?length_zeros2, ?(bk_A_len ok); auto).
    unfold j. rewrite (column_block_diag nx_pos shape_A) by (rewrite ?(bk_A_len ok); auto).
    rewrite (bk_A_len ok).
    assert (Hcol : length (column i (nth t A_lst [])) = nx cfg).
    { apply (A_body_length (cfg := cfg) (A_lst := A_lst) (B_lst := B_lst) (t, i) ok).
      apply in_stage_cols. simpl. lia. }
    unfold vneg. rewrite map_app. cbn [map]. fold (vneg (zeros (t * nx cfg + i))).
    fold (vneg (zeros (K - S (t * nx cfg + i)))). rewrite !vneg_zeros.
    replace (K - S (t * nx cfg + i))
      with ((nx cfg - 1 - i) + length (column i (nth t A_lst [])) + (N cfg - 1 - t) * nx cfg)
      by (rewrite Hcol; nia).
    rewrite app_assoc, <- zeros_app.
    replace (nx cfg + t * nx cfg) with (t * nx cfg + i + 1 + (nx cfg - 1 - i)) by lia.
    apply vadd_unit_block.
  - unfold Aineq_u.
    rewrite (@column_hcat2_l K) by (auto using rows_zeros2; now rewrite length_zeros2, length_eye).
    apply column_zeros2.
  - unfold Aineq_x.
    rewrite (@column_hcat2_l K)
      by (try (apply rows_kron; [apply rows_eye|exact C_rows]);
          rewrite ?length_kron, ?length_zeros2; unfold Sp.eye; rewrite ?length_eye, ?C_len; auto).
    unfold j. rewrite (@column_kron_eye (N cfg + 1) (nx cfg)) by (auto; lia).
    rewrite C_len. now replace (N cfg + 1 - 1 - t) with (N cfg - t) by lia.
Qed.

(** A state column of the last stage. *)
Lemma column_final (i : nat) :
  i < nx cfg ->
  column (N cfg * nx cfg + i) (constraint_matrix cfg A_lst B_lst)
    = (zeros (N cfg * nx cfg + i) ++ (-1)%Z :: zeros (nx cfg - 1 - i))
      ++ zeros U
      ++ (zeros (N cfg * ns cfg) ++ column i (C cfg)).
Proof.
  intros Hi. set (j := N cfg * nx cfg + i).
  assert (HjK : j < K) by (unfold j; lia).
  rewrite constraint_matrix_parts, !column_app. f_equal; [|f_equal].
  - rewrite (@column_hcat2_l K) by (auto using rows_Ax; rewrite ?length_Ax, ?length_Bu; auto).
    unfold Ax. rewrite (@column_add K) by (auto using rows_A_dyn, rows_neg, rows_eye).
    rewrite column_neg, column_eye by assumption.
    unfold A_dyn. rewrite column_app, column_zeros2.
    unfold j.
    rewrite (@column_hcat2_r (N cfg * nx cfg))
      by (try (rewrite <- (bk_A_len ok); apply (block_diag_shape nx_pos shape_A));
          rewrite ?(length_block_diag shape_A), ?length_zeros2, ?(bk_A_len ok); auto).
    rewrite column_zeros2, <- zeros_app.
    unfold vneg. rewrite map_app. cbn [map]. fold (vneg (zeros (N cfg * nx cfg + i))).
    fold (vneg (zeros (K - S (N cfg * nx cfg + i)))). rewrite !vneg_zeros.
    replace (K - S (N cfg * nx cfg + i)) with (nx cfg - 1 - i) by lia.
    set (row := zeros (N cfg * nx cfg + i) ++ _).
    replace (nx cfg + N cfg * nx cfg) with (length row); [apply vadd_zeros_r|].
    unfold row. rewrite length_app. cbn [length]. rewrite !length_zeros. lia.
  - unfold Aineq_u.
    rewrite (@column_hcat2_l K) by (auto using rows_zeros2; now rewrite length_zeros2, length_eye).
    apply column_zeros2.
  - unfold Aineq_x.
    rewrite (@column_hcat2_l K)
      by (try (apply rows_kron; [apply rows_eye|exact C_rows]);
          rewrite ?length_kron, ?length_zeros2; unfold Sp.eye; rewrite ?length_eye, ?C_len; auto).
    unfold j. rewrite (@column_kron_eye (N cfg + 1) (nx cfg)) by (auto; lia).
    rewrite C_len. replace (N cfg + 1 - 1 - N cfg) with 0 by lia.
    simpl. now rewrite app_nil_r.
Qed.

(** An input column. *)
Lemma column_input (t i : nat) :
  t < N cfg -> i < nu cfg ->
  column (K + (t * nu cfg + i)) (constraint_matrix cfg A_lst B_lst)
    = (zeros (nx cfg + t * nx cfg) ++ column i (nth t B_lst [])
         ++ zeros ((N cfg - 1 - t) * nx cfg))
      ++ (zeros (t * nu cfg + i) ++ 1%Z :: zeros (U - S (t * nu cfg + i)))
      ++ zeros S'.
Proof.
  intros Ht Hi. set (j := t * nu cfg + i).
  assert (Hj : j < U) by (unfold j; nia).
  rewrite constraint_matrix_parts, !column_app. f_equal; [|f_equal].
  - rewrite (@column_hcat2_r K) by (auto using rows_Ax; rewrite ?length_Ax, ?length_Bu; auto).
    unfold Bu. rewrite column_app, column_zeros2.
    unfold j. rewrite (column_block_diag nx_pos shape_B) by (rewrite ?(bk_B_len ok); auto).
    rewrite (bk_B_len ok), zeros_app, <- app_assoc. reflexivity.
  - unfold Aineq_u.
    rewrite (@column_hcat2_r K) by (auto using rows_zeros2; now rewrite length_zeros2, length_eye).
    now apply column_eye.
  - unfold Aineq_x.
    rewrite (@column_hcat2_r K)
      by (try (apply rows_kron; [apply rows_eye|exact C_rows]);
          rewrite ?length_kron, ?length_zeros2; unfold Sp.eye; rewrite ?length_eye, ?C_len; auto).
    apply column_zeros2.
Qed.

Lemma ncols_constraint_matrix : ncols (constraint_matrix cfg A_lst B_lst) = K + U.
Proof.
  unfold ncols.
  replace (hd [] (constraint_matrix cfg A_lst B_lst))
    with (nth 0 (constraint_matrix cfg A_lst B_lst) [])
    by (now destruct (constraint_matrix cfg A_lst B_lst)).
  rewrite MpcRowFacts.constraint_matrix_row by exact nx_pos.
  rewrite !length_app. cbn [length]. rewrite !length_zeros. lia.
Qed.

End Columns.

Lemma stage_cols_S (k w : nat) :
  stage_cols (S k) w = stage_cols k w ++ map (pair k) (seq 0 w).
Proof.
  unfold stage_cols. rewrite seq_S, flat_map_app. simpl. now rewrite app_nil_r.
Qed.

Lemma seq_stage_cols (k w : nat) :
  seq 0 (k * w) = map (fun p => fst p * w + snd p) (stage_cols k w).
Proof.
  induction k as [|k IH]; [reflexivity|].
  rewrite stage_cols_S, map_app, <- IH, map_map. cbn [fst snd].
  replace (S k * w) with (k * w + w) by lia.
  rewrite seq_app. f_equal.
  replace (0 + k * w) with (k * w + 0) by lia. apply seq_add_map.
Qed.

Lemma flat_map_map {X Y W : Type} (f : Y -> list W) (g : X -> Y) (l : list X) :
  flat_map f (map g l) = flat_map (fun x => f (g x)) l.
Proof. induction l as [|x l IH]; simpl; congruence. Qed.

Lemma select_cons_nz (a b : Z) (p v : vec) :
  a <> 0%Z -> Sp.select (a :: p) (b :: v) = b :: Sp.select p v.
Proof.
  intros Ha. unfold Sp.select. simpl.
  destruct (Z.eqb_spec a 0); [contradiction|reflexivity].
Qed.

Section Csc.

Variable cfg : config.
Hypothesis nx_pos : 0 < nx cfg.
Hypothesis C_rows : rows_of (nx cfg) (C cfg).
Hypothesis C_len : length (C cfg) = ns cfg.

Variables A_lst B_lst : list matrix.
Hypothesis ok : blocks_ok cfg A_lst B_lst.

(** The blocks [construct_controller] fixes the sparsity pattern with. *)
Definition ones_A : list matrix := repeat (ones2 (nx cfg) (nx cfg)) (N cfg).
Definition ones_B : list matrix := repeat (ones2 (nx cfg) (nu cfg)) (N cfg).

Lemma rows_ones2 (r c : nat) : rows_of c (ones2 r c).
Proof.
  unfold rows_of, ones2. apply Forall_forall. intros row H.
  apply repeat_spec in H. subst. apply repeat_length.
Qed.

Lemma ones_ok : blocks_ok cfg ones_A ones_B.
Proof.
  unfold ones_A, ones_B. constructor; try apply repeat_length;
    apply Forall_forall; intros M H; apply repeat_spec in H; subst;
    (split; [apply repeat_length|apply rows_ones2]).
Qed.

Lemma nth_ones_A (t : nat) : t < N cfg -> nth t ones_A [] = ones2 (nx cfg) (nx cfg).
Proof. intros Ht. unfold ones_A. now apply nth_repeat_lt. Qed.

Lemma nth_ones_B (t : nat) : t < N cfg -> nth t ones_B [] = ones2 (nx cfg) (nu cfg).
Proof. intros Ht. unfold ones_B. now apply nth_repeat_lt. Qed.

(** [sparse.kron] stores the nonzero entries of [C] and no other: [C] has
    no zero entry, or fewer than half of its entries are nonzero. *)
Hypothesis nonzeros_stored : Sp.kron_stored (C cfg) = Sp.support (C cfg).

Local Abbreviation mark := (fun e : Z => if Z.eqb e 0 then 0%Z else 1%Z).
Local Abbreviation marked := (with_C cfg (Sp.support (C cfg))).

Lemma support_len : length (Sp.support (C cfg)) = ns cfg.
Proof. unfold Sp.support. now rewrite length_map. Qed.

Lemma support_rows : rows_of (nx cfg) (Sp.support (C cfg)).
Proof.
  unfold Sp.support. apply Forall_forall. intros r Hr.
  apply in_map_iff in Hr as (r0 & <- & Hr0). rewrite length_map.
  unfold rows_of in C_rows. rewrite Forall_forall in C_rows. now apply C_rows.
Qed.

Lemma column_support (i : nat) (Cm : matrix) :
  column i (Sp.support Cm) = map mark (column i Cm).
Proof.
  unfold column, Sp.support. rewrite !map_map. apply map_ext. intros r.
  destruct (Nat.lt_ge_cases i (length r)) as [H|H].
  - now rewrite nth_map_lt with (dx := 0%Z).
  - rewrite !nth_overflow by (rewrite ?length_map; lia). reflexivity.
Qed.

Lemma select_support (v : vec) : Sp.select (map mark v) v = filter nz v.
Proof.
  unfold Sp.select. induction v as [|b v IH]; simpl; [reflexivity|].
  unfold nz at 1. destruct (Z.eqb_spec b 0) as [->|Hb]; simpl; now rewrite IH.
Qed.

Lemma marked_ones_ok : blocks_ok marked ones_A ones_B.
Proof.
  constructor; [exact (bk_A_len ones_ok)|exact (bk_A ones_ok)
               |exact (bk_B_len ones_ok)|exact (bk_B ones_ok)].
Qed.

Lemma stored_pattern_marked :
  stored_pattern cfg = constraint_matrix marked ones_A ones_B.
Proof. unfold stored_pattern. now rewrite nonzeros_stored. Qed.

Lemma select_state (t i : nat) :
  t < N cfg -> i < nx cfg ->
  Sp.select (column (t * nx cfg + i) (stored_pattern cfg))
            (column (t * nx cfg + i) (constraint_matrix cfg A_lst B_lst))
    = seg_flat (A_seg cfg A_lst (t, i)).
Proof.
  intros Ht Hi. rewrite stored_pattern_marked.
  pose proof (@column_state marked nx_pos support_rows support_len ones_A ones_B
                marked_ones_ok t i Ht Hi) as Hp.
  change (nx marked) with (nx cfg) in Hp. change (nu marked) with (nu cfg) in Hp.
  change (N marked) with (N cfg) in Hp. change (ns marked) with (ns cfg) in Hp.
  change (C marked) with (Sp.support (C cfg)) in Hp.
  rewrite Hp. clear Hp.
  rewrite (column_state nx_pos C_rows C_len ok Ht Hi).
  rewrite nth_ones_A, column_ones2, column_support by assumption.
  assert (Hcol : length (column i (nth t A_lst [])) = nx cfg).
  { apply (A_body_length (cfg := cfg) (A_lst := A_lst) (B_lst := B_lst) (t, i) ok).
    apply in_stage_cols. simpl. lia. }
  rewrite !select_app
    by (rewrite ?length_app; cbn [length]; rewrite ?length_app, ?length_zeros, ?length_map;
        unfold ones; rewrite ?repeat_length, ?Hcol; reflexivity).
  rewrite !select_zeros. cbn [app].
  rewrite select_cons_nz by discriminate.
  rewrite !select_app
    by (rewrite ?length_zeros, ?length_map; unfold ones; rewrite ?repeat_length, ?Hcol;
        reflexivity).
  rewrite !select_zeros, <- Hcol, select_ones, select_support, app_nil_r. cbn [app].
  unfold seg_flat, A_seg, seg_head, seg_body, seg_tail. cbn [fst snd app].
  now rewrite cd_eq, app_nil_r.
Qed.

Lemma select_final (i : nat) :
  i < nx cfg ->
  Sp.select (column (N cfg * nx cfg + i) (stored_pattern cfg))
            (column (N cfg * nx cfg + i) (constraint_matrix cfg A_lst B_lst))
    = final_col cfg i.
Proof.
  intros Hi. rewrite stored_pattern_marked.
  pose proof (@column_final marked nx_pos support_rows support_len ones_A ones_B
                marked_ones_ok i Hi) as Hp.
  change (nx marked) with (nx cfg) in Hp. change (nu marked) with (nu cfg) in Hp.
  change (N marked) with (N cfg) in Hp. change (ns marked) with (ns cfg) in Hp.
  change (C marked) with (Sp.support (C cfg)) in Hp.
  rewrite Hp. clear Hp.
  rewrite (column_final nx_pos C_rows C_len ok Hi), column_support.
  rewrite !select_app
    by (rewrite ?length_app; cbn [length]; rewrite ?length_app, ?length_zeros; reflexivity).
  rewrite !select_zeros. cbn [app].
  rewrite select_cons_nz by discriminate.
  rewrite select_zeros, select_support. unfold final_col. cbn [app].
  now rewrite cd_eq.
Qed.

Lemma select_input (t i : nat) :
  t < N cfg -> i < nu cfg ->
  Sp.select (column ((N cfg + 1) * nx cfg + (t * nu cfg + i)) (stored_pattern cfg))
            (column ((N cfg + 1) * nx cfg + (t * nu cfg + i))
                    (constraint_matrix cfg A_lst B_lst))
    = seg_flat (B_seg B_lst (t, i)).
Proof.
  intros Ht Hi. rewrite stored_pattern_marked.
  pose proof (@column_input marked nx_pos support_rows support_len ones_A ones_B
                marked_ones_ok t i Ht Hi) as Hp.
  change (nx marked) with (nx cfg) in Hp. change (nu marked) with (nu cfg) in Hp.
  change (N marked) with (N cfg) in Hp. change (ns marked) with (ns cfg) in Hp.
  rewrite Hp. clear Hp.
  rewrite (column_input nx_pos C_rows C_len ok Ht Hi).
  rewrite nth_ones_B, column_ones2 by assumption.
  assert (Hcol : length (column i (nth t B_lst [])) = nx cfg).
  { apply (B_body_length (cfg := cfg) (A_lst := A_lst) (B_lst := B_lst) (t, i) ok).
    apply in_stage_cols. simpl. lia. }
  rewrite !select_app
    by (rewrite ?length_app; cbn [length]; rewrite ?length_app, ?length_zeros;
        unfold ones; rewrite ?repeat_length, ?Hcol; reflexivity).
  rewrite !select_zeros. cbn [app].
  rewrite select_cons_nz by discriminate.
  rewrite select_zeros, <- Hcol, select_ones, !app_nil_r.
  reflexivity.
Qed.

(** When [sparse.kron] stores just the nonzero entries of [C], the array
    built by [construct_constraint_matrix_data_] is the CSC data of the
    constraint matrix on the pattern stored at construction. *)
Lemma data_is_csc :
  fst (fst (constraint_matrix_data cfg A_lst B_lst))
    = Sp.csc_data (stored_pattern cfg) (constraint_matrix cfg A_lst B_lst).
Proof.
  rewrite (constraint_matrix_data_closed C_rows ok). cbn [fst].
  unfold Sp.csc_data. rewrite ncols_constraint_matrix by assumption.
  rewrite seq_app, flat_map_app, !concat_app.
  replace ((N cfg + 1) * nx cfg) with (S (N cfg) * nx cfg) at 1 by lia.
  rewrite seq_stage_cols, stage_cols_S, map_app, flat_map_app, !flat_map_map.
  rewrite <- app_assoc. f_equal; [|f_equal].
  - unfold A_part. rewrite <- flat_map_concat_map.
    apply flat_map_ext_in. intros [t i] Hp. apply in_stage_cols in Hp as [Ht Hi].
    cbn [fst snd] in *. symmetry. now apply select_state.
  - unfold final_part. rewrite <- flat_map_concat_map.
    apply flat_map_ext_in. intros i Hi. apply in_seq in Hi.
    cbn [fst snd]. symmetry. apply select_final. lia.
  - cbn [Nat.add]. rewrite <- (Nat.add_0_r ((N cfg + 1) * nx cfg)) at 1.
    rewrite seq_add_map, seq_stage_cols, !flat_map_map.
    unfold B_part. rewrite <- flat_map_concat_map.
    apply flat_map_ext_in. intros [t i] Hp. apply in_stage_cols in Hp as [Ht Hi].
    cbn [fst snd] in *. symmetry. now apply select_input.
Qed.

End Csc.

End CscFacts.

(** ** NonlinearMPCController: in-place update, rebuild and the CSC data *)

Module MpcUpdateFacts.
Import Np NpFacts NonlinearMPC MpcVecFacts MpcDataFacts CscFacts.

Lemma construct_data_fields (cfg : config) (st : state) (A_lst B_lst : list matrix) :
  construct_constraint_matrix_data_ cfg st A_lst B_lst
    = set_data st (fst (fst (constraint_matrix_data cfg A_lst B_lst)))
                  (snd (fst (constraint_matrix_data cfg A_lst B_lst)))
                  (snd (constraint_matrix_data cfg A_lst B_lst)).
Proof.
  unfold construct_constraint_matrix_data_.
  now destruct (constraint_matrix_data cfg A_lst B_lst) as [[d a] b].
Qed.

Section UpdateEquivalence.

Variable cfg : config.
Hypothesis nx_pos : 0 < nx cfg.
Hypothesis N_pos : 0 < N cfg.
Hypothesis C_rows : rows_of (nx cfg) (C cfg).
Hypothesis C_len : length (C cfg) = ns cfg.

(** One in-place update of a state whose data array was built from some
    blocks. *)
Lemma update_step (st : state) (A0 B0 A1 B1 : list matrix) :
  blocks_ok cfg A0 B0 -> blocks_ok cfg A1 B1 ->
  update_constraint_matrix_data_ (construct_constraint_matrix_data_ cfg st A0 B0) A1 B1
    = Ok (construct_constraint_matrix_data_ cfg st A1 B1).
Proof.
  intros ok0 ok1. rewrite !construct_data_fields.
  unfold update_constraint_matrix_data_. cbn [osqp_A_data osqp_A_data_A_inds osqp_A_data_B_inds set_data].
  rewrite (update_data_rebuild C_rows nx_pos N_pos ok0 ok1). cbn [bind].
  destruct (inds_same C_rows nx_pos N_pos ok0 ok1) as [-> ->]. reflexivity.
Qed.

(** X20. Let the data array be built by [construct_constraint_matrix_data_]
    from any blocks [(A0, B0)] and then be refreshed in place by
    [update_constraint_matrix_data_], first with the blocks [(A1, B1)] of
    one iteration and then with the blocks [(A2, B2)] of the next.  After
    each refresh the state is the one a rebuild from scratch with the same
    blocks gives: same value array, same index lists. *)
Theorem update_matches_rebuild (st : state) (A0 B0 A1 B1 A2 B2 : list matrix) :
  blocks_ok cfg A0 B0 -> blocks_ok cfg A1 B1 -> blocks_ok cfg A2 B2 ->
  let st0 := construct_constraint_matrix_data_ cfg st A0 B0 in
  let rebuilt1 := construct_constraint_matrix_data_ cfg st A1 B1 in
  let rebuilt2 := construct_constraint_matrix_data_ cfg st A2 B2 in
  update_constraint_matrix_data_ st0 A1 B1 = Ok rebuilt1
  /\ bind (update_constraint_matrix_data_ st0 A1 B1)
          (fun st1 => update_constraint_matrix_data_ st1 A2 B2) = Ok rebuilt2.
Proof.
  intros ok0 ok1 ok2 st0 rebuilt1 rebuilt2.
  subst st0 rebuilt1 rebuilt2.
  rewrite (update_step st ok0 ok1). cbn [bind].
  rewrite (update_step st ok1 ok2). auto.
Qed.

(** X21. When [sparse.kron] stores just the nonzero entries of [C] ([C] has
    no zero entry, or fewer than half of its entries are nonzero), the
    array [construct_constraint_matrix_data_] builds, and so the array an
    in-place update leaves, is the CSC data of the matrix
    [construct_constraint_matrix_] builds from the same blocks, read on the
    pattern the solver was set up with. *)
Theorem rebuilt_data_is_csc_data (st : state) (A0 B0 A1 B1 : list matrix) :
  Sp.kron_stored (C cfg) = Sp.support (C cfg) ->
  blocks_ok cfg A0 B0 -> blocks_ok cfg A1 B1 ->
  let M := osqp_A (construct_constraint_matrix_ cfg st A1 B1) in
  osqp_A_data (construct_constraint_matrix_data_ cfg st A1 B1)
    = Some (Sp.csc_data (stored_pattern cfg) M)
  /\ exists st1,
       update_constraint_matrix_data_ (construct_constraint_matrix_data_ cfg st A0 B0) A1 B1
         = Ok st1
       /\ osqp_A_data st1 = Some (Sp.csc_data (stored_pattern cfg) M).
Proof.
  intros Hstored ok0 ok1 M. subst M.
  assert (E : osqp_A_data (construct_constraint_matrix_data_ cfg st A1 B1)
              = Some (Sp.csc_data (stored_pattern cfg)
                        (osqp_A (construct_constraint_matrix_ cfg st A1 B1)))).
  { rewrite construct_data_fields.
    cbn [osqp_A_data set_data osqp_A construct_constraint_matrix_ set_matrix].
    now rewrite (data_is_csc nx_pos C_rows C_len ok1 Hstored). }
  split; [exact E|].
  eexists. split; [apply (update_step st ok0 ok1)|exact E].
Qed.

End UpdateEquivalence.

End MpcUpdateFacts.

(** ** A small controller: two lifted states, one input, horizon two *)

Module MpcExample.
Import Np NonlinearMPC MpcVecFacts MpcDataFacts.

Definition dyn : Dynamics :=
  {| dyn_n := 2; dyn_m := 1; is_bilinear_lifted := true;
     dyn_C := [[1; 0]]%Z;
     get_linearization := fun z _ u =>
       ([[1; nth 0 u 0]; [nth 0 z 0; 1]]%Z, [[0]; [1]]%Z, [0; 0]%Z) |}.

(** The solver steps the first two times it is asked and then returns a
    zero step. *)
Definition example_solve (p : Osqp) : vec :=
  match length (updates p) with
  | 1 => [1; 0; 1; 0; 1; 0; 1; 1]%Z
  | 2 => [0; 1; 0; 1; 0; 1; 2; 2]%Z
  | _ => zeros 8
  end.

Definition cfg : config :=
  {| dynamics_object := dyn; N := 2;
     umin := [-5]%Z; umax := [5]%Z; xmin := [-10]%Z; xmax := [10]%Z;
     Q := [[1]]%Z; R := [[1]]%Z; QN := [[1]]%Z;
     xr := [3]%Z; terminal_constraint := true;
     solve := example_solve |}.

Definition z_now : vec := [1; 2]%Z.
Definition z_guess : matrix := [[1; 2]; [3; 4]; [5; 6]]%Z.
Definition u_guess : matrix := [[1]; [2]]%Z.
Definition r_guess : list vec := [[0; 0]; [0; 0]]%Z.

Definition A_a : list matrix := [[[1; 2]; [3; 4]]; [[5; 6]; [7; 8]]]%Z.
Definition B_a : list matrix := [[[1]; [2]]; [[3]; [4]]]%Z.
Definition A_b : list matrix := [[[0; 9]; [8; 0]]; [[7; 0]; [0; 6]]]%Z.
Definition B_b : list matrix := [[[0]; [5]]; [[4]; [0]]]%Z.

Lemma example_shapes : guess_shapes cfg z_now z_guess u_guess r_guess.
Proof. constructor; try reflexivity; try (cbv; lia); repeat constructor. Defined.

Lemma example_blocks_a : blocks_ok cfg A_a B_a.
Proof. constructor; try reflexivity; repeat constructor. Defined.

Lemma example_blocks_b : blocks_ok cfg A_b B_b.
Proof. constructor; try reflexivity; repeat constructor. Defined.

Lemma example_blocks_ones : blocks_ok cfg (CscFacts.ones_A cfg) (CscFacts.ones_B cfg).
Proof. constructor; try reflexivity; repeat constructor. Defined.

Lemma constraint_vecs_deviation_witness :
  slice 0 2 (fst (constraint_vecs cfg z_now z_guess u_guess r_guess)) = [0; 0]%Z
  /\ slice 10 11 (fst (constraint_vecs cfg z_now z_guess u_guess r_guess)) = [3 - 5]%Z
  /\ slice 10 11 (snd (constraint_vecs cfg z_now z_guess u_guess r_guess)) = [3 - 5]%Z.
Proof.
  pose proof (@MpcBoundsFacts.constraint_vecs_deviation
                cfg z_now z_guess u_guess r_guess example_shapes)
    as (_ & _ & H0 & _ & _ & _ & _ & Hterm).
  split; [exact H0|]. exact (Hterm eq_refl).
Defined.

Lemma update_matches_rebuild_witness :
  update_constraint_matrix_data_
      (construct_constraint_matrix_data_ cfg init (CscFacts.ones_A cfg) (CscFacts.ones_B cfg))
      A_a B_a
    = Ok (construct_constraint_matrix_data_ cfg init A_a B_a)
  /\ bind (update_constraint_matrix_data_
             (construct_constraint_matrix_data_ cfg init (CscFacts.ones_A cfg)
                (CscFacts.ones_B cfg))
             A_a B_a)
          (fun st1 => update_constraint_matrix_data_ st1 A_b B_b)
     = Ok (construct_constraint_matrix_data_ cfg init A_b B_b).
Proof.
  apply (@MpcUpdateFacts.update_matches_rebuild cfg
           ltac:(cbv; lia) ltac:(cbv; lia) ltac:(repeat constructor)
           init (CscFacts.ones_A cfg) (CscFacts.ones_B cfg) A_a B_a A_b B_b
           example_blocks_ones example_blocks_a example_blocks_b).
Defined.

(** A controller whose output matrix is mostly zero: three lifted states,
    [C = [[0, 1, 0]]], one input, horizon one. *)
Definition thin_cfg : config :=
  {| dynamics_object :=
       {| dyn_n := 3; dyn_m := 1; is_bilinear_lifted := true; dyn_C := [[0; 1; 0]]%Z;
          get_linearization := fun _ _ _ => (eye 3, [[0]; [0]; [1]]%Z, [0; 0; 0]%Z) |};
     N := 1;
     umin := [-5]%Z; umax := [5]%Z; xmin := [-10]%Z; xmax := [10]%Z;
     Q := [[1]]%Z; R := [[1]]%Z; QN := [[1]]%Z;
     xr := [3]%Z; terminal_constraint := false;
     solve := fun _ => zeros 7 |}.

Definition A_thin : list matrix := [[[1; 2; 0]; [0; 3; 4]; [5; 0; 6]]]%Z.
Definition B_thin : list matrix := [[[7]; [0]; [8]]]%Z.

Lemma thin_blocks : blocks_ok thin_cfg A_thin B_thin.
Proof. constructor; try reflexivity; repeat constructor. Defined.

Lemma thin_blocks_ones :
  blocks_ok thin_cfg (CscFacts.ones_A thin_cfg) (CscFacts.ones_B thin_cfg).
Proof. constructor; try reflexivity; repeat constructor. Defined.

Lemma rebuilt_data_is_csc_data_witness :
  osqp_A_data (construct_constraint_matrix_data_ thin_cfg init A_thin B_thin)
    = Some (Sp.csc_data (stored_pattern thin_cfg) (constraint_matrix thin_cfg A_thin B_thin))
  /\ Sp.csc_data (stored_pattern thin_cfg) (constraint_matrix thin_cfg A_thin B_thin)
     = [-1; 1; 0; 5; -1; 2; 3; 0; 1; -1; 0; 4; 6; -1; -1; 1; -1; 7; 0; 8; 1]%Z.
Proof.
  split; [|reflexivity].
  apply (@MpcUpdateFacts.rebuilt_data_is_csc_data thin_cfg
           ltac:(cbv; lia) ltac:(cbv; lia) ltac:(repeat constructor) eq_refl
           init (CscFacts.ones_A thin_cfg) (CscFacts.ones_B thin_cfg) A_thin B_thin
           eq_refl thin_blocks_ones thin_blocks).
Defined.

(** C2. On the small controller the output matrix [C = [[1, 0]]] is fairly
    dense, so [sparse.kron] stores its zero at every stage and [_osqp_A]
    holds 26 entries.  The array [construct_constraint_matrix_data_]
    builds, which the in-place update reproduces, lists the nonzero entries
    of [C] only: it has 23 entries and is not the CSC data of the matrix
    [construct_constraint_matrix_] builds from the same blocks. *)
Theorem data_array_misses_stored_zeros :
  let rebuilt := construct_constraint_matrix_data_ cfg init A_b B_b in
  let M := osqp_A (construct_constraint_matrix_ cfg init A_b B_b) in
  Sp.kron_stored (C cfg) = [[1; 1]]%Z
  /\ update_constraint_matrix_data_ (construct_constraint_matrix_data_ cfg init A_a B_a) A_b B_b
     = Ok rebuilt
  /\ osqp_A_data rebuilt
     = Some [-1; 0; 8; 1; -1; 9; 0; -1; 7; 0; 1; -1; 0; 6; -1; 1; -1; 0; 5; 1; 4; 0; 1]%Z
  /\ Sp.csc_data (stored_pattern cfg) M
     = [-1; 0; 8; 1; -1; 9; 0; 0; -1; 7; 0; 1; -1; 0; 6; 0; -1; 1; -1; 0; 0; 5; 1; 4; 0; 1]%Z
  /\ osqp_A_data rebuilt <> Some (Sp.csc_data (stored_pattern cfg) M).
Proof.
  cbv zeta. split; [reflexivity|]. split; [reflexivity|]. split; [reflexivity|].
  split; [reflexivity|]. vm_compute. discriminate.
Qed.

End MpcExample.

(** ** NonlinearMPCController: one iteration *)

Module MpcIterationFacts.
Import Np NpFacts NonlinearMPC MpcVecFacts MatrixFacts MpcDataFacts MpcBoundsFacts.

(** The linearization contract: [A] is [nx] by [nx], [B] is [nx] by [nu]. *)
Definition dyn_ok (cfg : config) : Prop :=
  forall z z_next u,
    let l := get_linearization (dynamics_object cfg) z z_next u in
    (length (fst (fst l)) = nx cfg /\ rows_of (nx cfg) (fst (fst l)))
    /\ (length (snd (fst l)) = nx cfg /\ rows_of (nu cfg) (snd (fst l))).

(** The solver contract: the solution has one entry per variable. *)
Definition solver_ok (cfg : config) : Prop :=
  forall p, length (solve cfg p) = (N cfg + 1) * nx cfg + N cfg * nu cfg.

(** What holds of the state between iterations: a guess of the right
    shape, a data array laid out by [construct_constraint_matrix_data_], a
    solver that has been set up. *)
Record loop_inv (cfg : config) (st : state) : Prop := {
  inv_z_len : length (cur_z st) = N cfg + 1;
  inv_z_rows : rows_of (nx cfg) (cur_z st);
  inv_u_len : length (cur_u st) = N cfg;
  inv_u_rows : rows_of (nu cfg) (cur_u st);
  inv_data : exists A_lst B_lst,
      blocks_ok cfg A_lst B_lst
      /\ osqp_A_data st = Some (fst (fst (constraint_matrix_data cfg A_lst B_lst)))
      /\ osqp_A_data_A_inds st = snd (fst (constraint_matrix_data cfg A_lst B_lst))
      /\ osqp_A_data_B_inds st = snd (constraint_matrix_data cfg A_lst B_lst);
  inv_prob : exists p, prob st = Some p
}.

(** The step the solver returned, split as [solve_mpc_] does. *)
Definition dz_of (cfg : config) (x : vec) : matrix :=
  reshape_F (nx cfg) (N cfg + 1) (firstn ((N cfg + 1) * nx cfg) x).
Definition du_of (cfg : config) (x : vec) : matrix :=
  reshape_F (nu cfg) (N cfg) (skipn ((N cfg + 1) * nx cfg) x).

Lemma shape_T_reshape (r c : nat) (v : vec) :
  0 < r -> length (T (reshape_F r c v)) = c /\ rows_of r (T (reshape_F r c v)).
Proof.
  intros Hr.
  assert (Hn : ncols (reshape_F r c v) = c).
  { unfold ncols, reshape_F. destruct r as [|r]; [lia|]. simpl.
    now rewrite length_map, length_seq. }
  unfold T. rewrite Hn. split.
  - now rewrite length_map, length_seq.
  - apply Forall_forall. intros row H. apply in_map_iff in H as (j & <- & _).
    rewrite length_column. unfold reshape_F. now rewrite length_map, length_seq.
Qed.

Lemma shape_madd (k w : nat) (M1 M2 : matrix) :
  length M1 = k -> rows_of w M1 -> length M2 = k -> rows_of w M2 ->
  length (madd M1 M2) = k /\ rows_of w (madd M1 M2).
Proof.
  intros L1 R1 L2 R2. unfold madd. split.
  - rewrite length_zip_with. lia.
  - clear L1 L2 k. revert M2 R2. induction R1 as [|r1 M1 H1 _ IH]; intros M2 R2; simpl.
    + constructor.
    + destruct R2 as [|r2 M2 H2 R2]; constructor; [|now apply IH].
      unfold vadd. rewrite length_zip_with. lia.
Qed.

Lemma length_stages (k : nat) (z_init u_init : matrix) :
  length z_init = k + 1 -> length u_init = k -> length (stages z_init u_init) = k.
Proof.
  intros Hz Hu. unfold stages.
  rewrite !length_combine, length_removelast, Hz, Hu.
  destruct z_init; simpl in *; lia.
Qed.

Section Iteration.

Variable cfg : config.
Hypothesis nx_pos : 0 < nx cfg.
Hypothesis nu_pos : 0 < nu cfg.
Hypothesis N_pos : 0 < N cfg.
Hypothesis C_rows : rows_of (nx cfg) (C cfg).
Hypothesis lin_ok : dyn_ok cfg.
Hypothesis sol_ok : solver_ok cfg.

Variable z : vec.

(** The blocks an iteration linearizes. *)
Definition lin_of (st : state) : list (matrix * matrix * vec) :=
  map (fun s => get_linearization (dynamics_object cfg) (fst (fst s)) (snd (fst s)) (snd s))
      (stages (cur_z st) (cur_u st)).

Lemma lin_blocks (st : state) :
  loop_inv cfg st ->
  blocks_ok cfg (map (fun l => fst (fst l)) (lin_of st))
                (map (fun l => snd (fst l)) (lin_of st)).
Proof.
  intros Hinv. unfold lin_of.
  pose proof (@length_stages _ _ _ (inv_z_len Hinv) (inv_u_len Hinv)) as Hl.
  constructor; rewrite ?length_map; auto;
    apply Forall_forall; intros M HM;
    apply in_map_iff in HM as (l & <- & Hin);
    apply in_map_iff in Hin as (s & <- & _);
    apply (lin_ok (fst (fst s)) (snd (fst s)) (snd s)).
Qed.

(** An iteration on a state that satisfies the invariant does not raise;
    it adds the solver's step to the guess, appends the new guess to the
    logs and keeps the invariant. *)
Lemma iteration_ok (st : state) :
  loop_inv cfg st ->
  exists st',
    iteration cfg z st = Ok st'
    /\ loop_inv cfg st'
    /\ cur_z st' = madd (cur_z st) (T (dz_of cfg (res_x st')))
    /\ cur_u st' = madd (cur_u st) (T (du_of cfg (res_x st')))
    /\ (exists p, prob st' = Some p /\ res_x st' = solve cfg p)
    /\ x_iter st' = x_iter st ++ [T (cur_z st')]
    /\ u_iter st' = u_iter st ++ [T (cur_u st')].
Proof.
  intros Hinv.
  pose proof (lin_blocks Hinv) as Hblocks.
  destruct (inv_data Hinv) as (A0 & B0 & ok0 & Hd & Ha & Hb).
  destruct (inv_prob Hinv) as (p & Hp).
  unfold iteration. fold (lin_of st).
  set (A_lst := map (fun l => fst (fst l)) (lin_of st)) in *.
  set (B_lst := map (fun l => snd (fst l)) (lin_of st)) in *.
  set (st1 := construct_constraint_vecs_ cfg _ z _ _ _).
  assert (Hd1 : osqp_A_data st1 = osqp_A_data st) by reflexivity.
  assert (Ha1 : osqp_A_data_A_inds st1 = osqp_A_data_A_inds st) by reflexivity.
  assert (Hb1 : osqp_A_data_B_inds st1 = osqp_A_data_B_inds st) by reflexivity.
  unfold update_constraint_matrix_data_. rewrite Hd1, Ha1, Hb1, Hd, Ha, Hb.
  rewrite (update_data_rebuild C_rows nx_pos N_pos ok0 Hblocks). cbn [bind].
  set (st2 := set_data st1 _ _ _).
  unfold solve_mpc_.
  assert (Hp2 : prob st2 = Some p) by exact Hp.
  rewrite Hp2. cbn [osqp_A_data st2 set_data bind].
  set (p' := {| problem := problem p; updates := _ |}).
  rewrite (sol_ok p'), Nat.eqb_refl. cbn [bind].
  eexists. split; [reflexivity|].
  cbn [cur_z cur_u res_x prob x_iter u_iter log_iter set_guess set_solver].
  fold (dz_of cfg (solve cfg p')). fold (du_of cfg (solve cfg p')).
  destruct (@shape_T_reshape (nx cfg) (N cfg + 1) (firstn ((N cfg + 1) * nx cfg) (solve cfg p')) nx_pos)
    as [Lz Rz].
  destruct (@shape_T_reshape (nu cfg) (N cfg) (skipn ((N cfg + 1) * nx cfg) (solve cfg p')) nu_pos)
    as [Lu Ru].
  destruct (@shape_madd _ _ _ _ (inv_z_len Hinv) (inv_z_rows Hinv) Lz Rz) as [Lz' Rz'].
  destruct (@shape_madd _ _ _ _ (inv_u_len Hinv) (inv_u_rows Hinv) Lu Ru) as [Lu' Ru'].
  split; [|split; [reflexivity|split; [reflexivity|split; [|split; reflexivity]]]].
  - constructor;
      cbn [cur_z cur_u osqp_A_data osqp_A_data_A_inds osqp_A_data_B_inds prob
           log_iter set_guess set_solver st2 set_data];
      auto.
    + exists A_lst, B_lst.
      destruct (inds_same C_rows nx_pos N_pos ok0 Hblocks) as [E1 E2].
      split; [exact Hblocks|]. split; [reflexivity|]. split; symmetry; assumption.
    + eauto.
  - exists p'. split; reflexivity.
Qed.

End Iteration.

End MpcIterationFacts.

(** ** NonlinearMPCController: the loop of solve_to_convergence *)

Module MpcLoopFacts.
Import Np NpFacts NonlinearMPC MpcVecFacts MpcDataFacts MpcIterationFacts.

(** [k] iterations in a row. *)
Fixpoint iterates (cfg : config) (z : vec) (k : nat) (st : state) : result state :=
  match k with
  | 0 => Ok st
  | S k' => bind (iterates cfg z k' st) (iteration cfg z)
  end.

(** The state after an iteration that does not raise, and after [j] of
    them. *)
Definition next (cfg : config) (z : vec) (st : state) : state :=
  match iteration cfg z st with
  | Ok st' => st'
  | Raise _ => st
  end.
Definition guess_after (cfg : config) (z : vec) (s0 : state) (j : nat) : state :=
  Nat.iter j (next cfg z) s0.

(** The first conjunct of the loop condition. *)
Definition keeps_going (norm : matrix -> pyfloat) (eps : pyfloat) (iter : nat)
    (u_prev u : matrix) : bool :=
  Nat.eqb iter 0 || float_gt (norm (msub u_prev u)) eps.

(** The norm tested after iteration [j] of a run from [s0]: the change of
    the control trajectory between the guesses [j - 1] and [j]. *)
Definition change (norm : matrix -> pyfloat) (cfg : config) (z : vec) (s0 : state)
    (j : nat) : pyfloat :=
  norm (msub (cur_u (guess_after cfg z s0 (j - 1))) (cur_u (guess_after cfg z s0 j))).


Section Loop.

Variable norm : matrix -> pyfloat.
Variable cfg : config.
Hypothesis nx_pos : 0 < nx cfg.
Hypothesis nu_pos : 0 < nu cfg.
Hypothesis N_pos : 0 < N cfg.
Hypothesis C_rows : rows_of (nx cfg) (C cfg).
Hypothesis lin_ok : dyn_ok cfg.
Hypothesis sol_ok : solver_ok cfg.

Variable z : vec.
Variable eps : pyfloat.
Variable max_iter : nat.

Lemma next_ok (st : state) :
  loop_inv cfg st -> iteration cfg z st = Ok (next cfg z st) /\ loop_inv cfg (next cfg z st).
Proof.
  intros Hinv.
  destruct (iteration_ok nx_pos nu_pos N_pos C_rows lin_ok sol_ok z Hinv) as (st' & E & Hinv' & _).
  unfold next. rewrite E. auto.
Qed.

Lemma guess_after_inv (s0 : state) (j : nat) :
  loop_inv cfg s0 -> loop_inv cfg (guess_after cfg z s0 j).
Proof.
  intros Hinv. induction j as [|j IH]; [exact Hinv|].
  unfold guess_after in *. cbn [Nat.iter]. now apply next_ok.
Qed.


Lemma guess_after_next (st : state) (j : nat) :
  guess_after cfg z (next cfg z st) j = guess_after cfg z st (S j).
Proof. unfold guess_after. symmetry. apply Nat.iter_succ_r. Qed.

(** The loop from any counter value: it returns, after [k] more
    iterations; the test let each of them run and, when the loop stops
    short of [max_iter], the test failed. *)
Lemma loop_run (left : nat) :
  forall (iter : nat) (u_prev : matrix) (st : state),
    loop_inv cfg st -> iter + left = max_iter ->
    let prev j := match j with 0 => u_prev | S j' => cur_u (guess_after cfg z st j') end in
    exists k,
      k <= left
      /\ loop norm cfg z eps max_iter left iter u_prev st
         = Some (Ok (guess_after cfg z st k, iter + k))
      /\ (forall j, j < k ->
            keeps_going norm eps (iter + j) (prev j) (cur_u (guess_after cfg z st j)) = true)
      /\ (iter + k < max_iter ->
            keeps_going norm eps (iter + k) (prev k) (cur_u (guess_after cfg z st k)) = false).
Proof.
  induction left as [|left IH]; intros iter u_prev st Hinv Hsum prev.
  - exists 0. split; [lia|]. split; [|split].
    + cbn [loop]. replace (Nat.ltb iter max_iter) with false
        by (symmetry; apply Nat.ltb_ge; lia).
      rewrite andb_false_r, Nat.add_0_r. reflexivity.
    + intros j Hj. lia.
    + intros H. lia.
  - cbn [loop]. fold (keeps_going norm eps iter u_prev (cur_u st)).
    replace (Nat.ltb iter max_iter) with true by (symmetry; apply Nat.ltb_lt; lia).
    rewrite andb_true_r.
    destruct (keeps_going norm eps iter u_prev (cur_u st)) eqn:Htest.
    + destruct (next_ok Hinv) as [E Hinv']. rewrite E.
      destruct (IH (iter + 1) (cur_u st) (next cfg z st) Hinv' ltac:(lia))
        as (k & Hk & Hrun & Hgo & Hstop).
      exists (S k). split; [lia|]. split; [|split].
      * rewrite Hrun, guess_after_next. do 3 f_equal. lia.
      * intros [|j] Hj.
        -- rewrite Nat.add_0_r. exact Htest.
        -- specialize (Hgo j ltac:(lia)).
           rewrite guess_after_next in Hgo.
           replace (iter + S j) with (iter + 1 + j) by lia.
           destruct j as [|j]; [exact Hgo|].
           now rewrite guess_after_next in Hgo.
      * intros Hlt. specialize (Hstop ltac:(lia)).
        rewrite guess_after_next in Hstop.
        replace (iter + S k) with (iter + 1 + k) by lia.
        destruct k as [|k]; [exact Hstop|].
        now rewrite guess_after_next in Hstop.
    + exists 0. split; [lia|]. split; [|split].
      * now rewrite Nat.add_0_r.
      * intros j Hj. lia.
      * intros _. rewrite Nat.add_0_r. exact Htest.
Qed.

End Loop.

End MpcLoopFacts.

(** ** NonlinearMPCController: the guesses of a run *)

Module MpcConvergence.
Import Np NpFacts NonlinearMPC MpcVecFacts MpcDataFacts MpcIterationFacts MpcLoopFacts.

(** [construct_controller] followed by the first assignments of
    [solve_to_convergence] establishes the invariant of the loop. *)
Lemma construct_controller_inv (cfg : config) (st : state)
    (z_init u_init z_init_0 u_init_0 : matrix) :
  length z_init_0 = N cfg + 1 -> rows_of (nx cfg) z_init_0 ->
  length u_init_0 = N cfg -> rows_of (nu cfg) u_init_0 ->
  loop_inv cfg (set_guess (construct_controller cfg st z_init u_init) z_init_0 u_init_0).
Proof.
  intros Lz Rz Lu Ru. constructor; cbn [cur_z cur_u set_guess]; auto.
  - exists (CscFacts.ones_A cfg), (CscFacts.ones_B cfg).
    split; [apply CscFacts.ones_ok|].
    unfold construct_controller. cbv zeta.
    rewrite MpcUpdateFacts.construct_data_fields.
    cbn [osqp_A_data osqp_A_data_A_inds osqp_A_data_B_inds set_guess set_solver set_data].
    repeat split; reflexivity.
  - unfold construct_controller. cbv zeta. cbn [prob set_guess set_solver]. eauto.
Qed.

Lemma guess_after_S (cfg : config) (z : vec) (s0 : state) (j : nat) :
  guess_after cfg z s0 (S j) = next cfg z (guess_after cfg z s0 j).
Proof. reflexivity. Qed.

Section Convergence.

Variable cfg : config.
Hypothesis nx_pos : 0 < nx cfg.
Hypothesis nu_pos : 0 < nu cfg.
Hypothesis N_pos : 0 < N cfg.
Hypothesis C_rows : rows_of (nx cfg) (C cfg).
Hypothesis lin_ok : dyn_ok cfg.
Hypothesis sol_ok : solver_ok cfg.

Variable st : state.
Variable z : vec.
Variables z_init_0 u_init_0 : matrix.
Hypothesis constructed : loop_inv cfg (set_guess st z_init_0 u_init_0).

Local Abbreviation s0 := (set_guess st z_init_0 u_init_0).
Local Abbreviation guess j := (guess_after cfg z (set_guess st z_init_0 u_init_0) j).

Lemma next_facts (a : state) :
  loop_inv cfg a ->
  let b := next cfg z a in
  iteration cfg z a = Ok b
  /\ cur_z b = madd (cur_z a) (T (dz_of cfg (res_x b)))
  /\ cur_u b = madd (cur_u a) (T (du_of cfg (res_x b)))
  /\ (exists p, prob b = Some p /\ res_x b = solve cfg p)
  /\ x_iter b = x_iter a ++ [T (cur_z b)]
  /\ u_iter b = u_iter a ++ [T (cur_u b)].
Proof.
  intros Hinv b.
  destruct (iteration_ok nx_pos nu_pos N_pos C_rows lin_ok sol_ok z Hinv)
    as (st' & E & _ & H).
  subst b. unfold next. rewrite E. auto.
Qed.



End Convergence.

End MpcConvergence.

(** ** The small controller, run *)

Module MpcRunExample.
Import Np NonlinearMPC MpcVecFacts MpcDataFacts MpcIterationFacts MpcLoopFacts MpcExample.

(** The squared Frobenius norm stands in for [np.linalg.norm]. *)
Definition example_norm (M : matrix) : pyfloat :=
  Num (inject_Z (fold_right Z.add 0%Z (map (fun v => (v * v)%Z) (concat M)))).

Definition constructed_state : state := construct_controller cfg init z_guess u_guess.

Lemma example_dyn_ok : dyn_ok cfg.
Proof. intros z zn u. simpl. repeat constructor. Defined.

Lemma example_solver_ok : solver_ok cfg.
Proof.
  intros p. unfold cfg, example_solve. cbn [solve].
  destruct (length (updates p)) as [|[|[|k]]]; reflexivity.
Defined.

Lemma example_inv : loop_inv cfg (set_guess constructed_state z_guess u_guess).
Proof.
  apply MpcConvergence.construct_controller_inv; try reflexivity; repeat constructor.
Defined.

(** With [max_iter = 5] the example stops after three iterations: the third
    step is zero. *)
Example example_converges_in_three :
  match solve_to_convergence example_norm cfg constructed_state z_now z_guess u_guess
          (Some (Num (1 # 1000))) (Some 5) with
  | Some (Ok (st', k)) =>
      k = 3 /\ cur_u st' = [[1 + 1 + 2]; [2 + 1 + 2]]%Z /\ length (u_iter st') = 3
  | _ => False
  end.
Proof. vm_compute. repeat split; reflexivity. Qed.

(** With a solver that always returns the same nonzero step the loop runs
    [max_iter] times. *)
Example example_hits_max_iter :
  let cfg' :=
    {| dynamics_object := dyn; N := 2;
       umin := [-5]%Z; umax := [5]%Z; xmin := [-10]%Z; xmax := [10]%Z;
       Q := [[1]]%Z; R := [[1]]%Z; QN := [[1]]%Z;
       xr := [3]%Z; terminal_constraint := true;
       solve := fun _ => [1; 0; 1; 0; 1; 0; 1; 1]%Z |} in
  match solve_to_convergence example_norm cfg' (construct_controller cfg' init z_guess u_guess)
          z_now z_guess u_guess (Some (Num (1 # 1000))) (Some 5) with
  | Some (Ok (st', k)) => k = 5 /\ cur_u st' = [[1 + 5]; [2 + 5]]%Z
  | _ => False
  end.
Proof. vm_compute. repeat split; reflexivity. Qed.

End MpcRunExample.
(** ** NonlinearMPCController: what the rows of the QP say *)

Module MpcQpFacts.
Import Np NpFacts NonlinearMPC MpcVecFacts MatrixFacts MpcDataFacts CscFacts MpcIterationFacts.

Lemma dot_app (a b x : vec) :
  dot (a ++ b) x = (dot a (firstn (length a) x) + dot b (skipn (length a) x))%Z.
Proof.
  revert x. induction a as [|a0 a IH]; intros x.
  - simpl. reflexivity.
  - destruct x as [|x0 x].
    + simpl firstn. simpl skipn. now rewrite !dot_nil_r.
    + change ((a0 :: a) ++ b) with (a0 :: (a ++ b)).
      cbn [length firstn skipn]. rewrite !dot_cons, IH. lia.
Qed.

Lemma dot_zeros_app (k : nat) (v x : vec) : dot (zeros k ++ v) x = dot v (skipn k x).
Proof. now rewrite dot_app, dot_zeros, length_zeros. Qed.

Lemma dot_firstn (v x : vec) : dot v (firstn (length v) x) = dot v x.
Proof.
  revert x. induction v as [|a v IH]; intros [|x0 x]; try reflexivity.
  cbn [length firstn]. now rewrite !dot_cons, IH.
Qed.


Lemma dot_vadd (a b x : vec) :
  length a = length b -> dot (vadd a b) x = (dot a x + dot b x)%Z.
Proof.
  revert b x. induction a as [|a0 a IH]; intros [|b0 b] x H; try discriminate.
  - reflexivity.
  - destruct x as [|x0 x]; [now rewrite !dot_nil_r|].
    change (vadd (a0 :: a) (b0 :: b)) with ((a0 + b0)%Z :: vadd a b).
    rewrite !dot_cons, IH by (simpl in H; lia). lia.
Qed.


Lemma slice_firstn {X : Type} (a b k : nat) (x : list X) :
  b <= k -> slice a b (firstn k x) = slice a b x.
Proof.
  intros H. unfold slice. rewrite skipn_firstn_comm, firstn_firstn.
  f_equal. lia.
Qed.

Lemma slice_skipn {X : Type} (a b k : nat) (x : list X) :
  slice a b (skipn k x) = slice (k + a) (k + b) x.
Proof.
  unfold slice. rewrite skipn_skipn. f_equal; [lia|]. f_equal. lia.
Qed.

Lemma nth_slice {X : Type} (a b i : nat) (x : list X) (d : X) :
  a + i < b -> nth i (slice a b x) d = nth (a + i) x d.
Proof.
  intros H. unfold slice. rewrite nth_firstn.
  destruct (Nat.ltb_spec i (b - a)); [|lia]. apply nth_skipn.
Qed.

Lemma nth_concat_blocks {X : Type} (L : nat) (bs : list (list X)) (t i : nat) (d : X) :
  Forall (fun b => length b = L) bs -> t < length bs -> i < L ->
  nth (t * L + i) (concat bs) d = nth i (nth t bs []) d.
Proof.
  intros H Ht Hi. rewrite <- (@block_of_concat _ L bs t H Ht).
  rewrite nth_firstn. destruct (Nat.ltb_spec i L); [|lia].
  now rewrite nth_skipn.
Qed.

(** Row [t * r + i] of a block-diagonal matrix acts on the window of block
    [t]. *)
Lemma dot_block_diag (r w : nat) (Ms : list matrix) :
  0 < r -> block_shape r w Ms ->
  forall (t i : nat) (y : vec),
    t < length Ms -> i < r ->
    dot (nth (t * r + i) (Sp.block_diag Ms) []) y
      = dot (nth i (nth t Ms []) []) (slice (t * w) ((t + 1) * w) y).
Proof.
  intros Hr HMs. induction HMs as [|M rest [Hl Hw] Hrest IH]; intros t i y Ht Hi.
  - simpl in Ht. lia.
  - cbn [Sp.block_diag].
    assert (HcM : ncols M = w).
    { apply ncols_rows; auto. intros ->. simpl in Hl. lia. }
    rewrite HcM. destruct t as [|t].
    + cbn [Nat.mul Nat.add nth].
      rewrite app_nth1 by (rewrite length_map; lia).
      rewrite nth_map_lt with (dx := []) by lia.
      rewrite dot_app_zeros. unfold slice. rewrite Nat.add_0_r, Nat.sub_0_r.
      cbn [skipn].
      assert (Hrow : length (nth i M []) = w).
      { unfold rows_of in Hw. rewrite Forall_forall in Hw. apply Hw, nth_In. lia. }
      now rewrite <- Hrow, dot_firstn.
    + cbn [nth length] in *.
      rewrite app_nth2 by (rewrite length_map; nia).
      rewrite length_map, Hl.
      replace (S t * r + i - r) with (t * r + i) by nia.
      rewrite nth_map_lt with (dx := [])
        by (rewrite (length_block_diag Hrest); nia).
      rewrite dot_zeros_app, IH by lia.
      f_equal. rewrite slice_skipn. f_equal; lia.
Qed.



(** Column [t] of the [r] by [c] array [v.reshape(r, c, order='F')] is the
    [t]-th block of [r] entries of [v]. *)
Lemma map_nth_window {X : Type} (a r : nat) (v : list X) (d : X) :
  a + r <= length v ->
  map (fun i => nth (a + i) v d) (seq 0 r) = slice a (a + r) v.
Proof.
  intros H. unfold slice. replace (a + r - a) with r by lia.
  assert (Hl : length (firstn r (skipn a v)) = r)
    by (rewrite length_firstn, length_skipn; lia).
  transitivity (map (fun i => nth i (firstn r (skipn a v)) d) (seq 0 r));
    [|rewrite <- Hl at 1; apply map_nth_seq].
  apply map_ext_in. intros i Hi. apply in_seq in Hi.
  rewrite nth_firstn. destruct (Nat.ltb_spec i r); [|lia].
  now rewrite nth_skipn.
Qed.

Lemma T_reshape_F (r c : nat) (v : vec) :
  0 < r -> length v = r * c ->
  T (reshape_F r c v) = map (fun t => slice (t * r) ((t + 1) * r) v) (seq 0 c).
Proof.
  intros Hr Hv.
  assert (Hn : ncols (reshape_F r c v) = c).
  { unfold ncols, reshape_F. destruct r as [|r]; [lia|]. simpl.
    now rewrite length_map, length_seq. }
  unfold T. rewrite Hn. apply map_ext_in. intros t Ht. apply in_seq in Ht.
  unfold column, reshape_F. rewrite map_map.
  replace ((t + 1) * r) with (t * r + r) by lia.
  rewrite <- (@map_nth_window _ (t * r) r v 0%Z) by nia.
  apply map_ext_in. intros i Hi. apply in_seq in Hi.
  rewrite nth_map_seq by lia. reflexivity.
Qed.

Section Rows.

Variable cfg : config.
Hypothesis nx_pos : 0 < nx cfg.
Hypothesis nu_pos : 0 < nu cfg.
Hypothesis C_rows : rows_of (nx cfg) (C cfg).
Hypothesis C_len : length (C cfg) = ns cfg.

Variables A_lst B_lst : list matrix.
Hypothesis ok : blocks_ok cfg A_lst B_lst.

Variable x : vec.
Hypothesis x_len : length x = (N cfg + 1) * nx cfg + N cfg * nu cfg.

Local Abbreviation K := ((N cfg + 1) * nx cfg).
Local Abbreviation U := (N cfg * nu cfg).
Local Abbreviation M := (constraint_matrix cfg A_lst B_lst).

(** The rows of [dz.T] and [du.T] are the stage blocks of the solution. *)
Lemma dz_row (t : nat) :
  t < N cfg + 1 ->
  nth t (T (dz_of cfg x)) [] = slice (t * nx cfg) ((t + 1) * nx cfg) x.
Proof.
  intros Ht. unfold dz_of.
  rewrite T_reshape_F by (rewrite ?length_firstn; lia).
  rewrite nth_map_seq by exact Ht. cbn [Nat.add].
  apply slice_firstn. nia.
Qed.

Lemma du_row (t : nat) :
  t < N cfg ->
  nth t (T (du_of cfg x)) [] = slice (K + t * nu cfg) (K + (t + 1) * nu cfg) x.
Proof.
  intros Ht. unfold du_of.
  rewrite T_reshape_F by (rewrite ?length_skipn; lia).
  rewrite nth_map_seq by exact Ht. cbn [Nat.add].
  apply slice_skipn.
Qed.

(** A dynamics row of stage [t]: [- dz[t+1] + A_t dz[t] + B_t du[t]]. *)
Lemma dynamics_row_dot (t i : nat) :
  t < N cfg -> i < nx cfg ->
  dot (nth (nx cfg + t * nx cfg + i) M []) x
    = (- nth i (nth (t + 1) (T (dz_of cfg x)) []) 0
       + dot (nth i (nth t A_lst []) []) (nth t (T (dz_of cfg x)) [])
       + dot (nth i (nth t B_lst []) []) (nth t (T (du_of cfg x)) []))%Z.
Proof.
  intros Ht Hi.
  pose proof (length_Ax nx_pos C_len ok) as LAx.
  pose proof (rows_Ax nx_pos C_len ok) as RAx.
  pose proof (length_Bu nx_pos C_len ok) as LBu.
  pose proof (length_A_dyn nx_pos C_len ok) as LAd.
  pose proof (rows_A_dyn nx_pos C_len ok) as RAd.
  set (row := nx cfg + t * nx cfg + i).
  assert (Hrow : row < K) by (unfold row; nia).
  rewrite constraint_matrix_parts.
  rewrite app_nth1 by (rewrite length_hcat2; lia).
  rewrite nth_hcat2 by lia.
  assert (HlenAx : length (nth row (Ax cfg A_lst) []) = K).
  { unfold rows_of in RAx. rewrite Forall_forall in RAx. apply RAx, nth_In. lia. }
  rewrite dot_app, HlenAx.
  rewrite dz_row, dz_row, du_row by lia.
  f_equal; [|].
  - unfold Ax, Sp.add, madd, Sp.neg at 1.
    rewrite nth_zip_with with (dx := []) (dy := [])
      by (rewrite ?length_map, ?length_eye; lia).
    rewrite nth_map_lt with (dx := []) by (rewrite length_eye; lia).
    rewrite nth_eye by lia.
    rewrite dot_vadd.
    2:{ rewrite length_vneg, length_unit_row.
        unfold rows_of in RAd. rewrite Forall_forall in RAd.
        symmetry. apply RAd, nth_In. lia. }
    f_equal.
    + rewrite MpcRowFacts.vneg_unit_row, dot_unit by lia.
      rewrite nth_firstn. destruct (Nat.ltb_spec row K); [|lia].
      rewrite nth_slice by nia.
      replace ((t + 1) * nx cfg + i) with row by (unfold row; lia). lia.
    + unfold A_dyn. rewrite app_nth2 by (rewrite length_zeros2; lia).
      rewrite length_zeros2.
      replace (row - nx cfg) with (t * nx cfg + i) by (unfold row; lia).
      rewrite nth_hcat2
        by (rewrite ?(length_block_diag (shape_A ok)), ?length_zeros2, ?(bk_A_len ok); nia).
      rewrite nth_zeros2 by nia. rewrite dot_app_zeros.
      rewrite (dot_block_diag nx_pos (shape_A ok)) by (rewrite ?(bk_A_len ok); lia).
      f_equal. apply slice_firstn. nia.
  - unfold Bu. rewrite app_nth2 by (rewrite length_zeros2; lia).
    rewrite length_zeros2.
    replace (row - nx cfg) with (t * nx cfg + i) by (unfold row; lia).
    rewrite (dot_block_diag nx_pos (shape_B ok)) by (rewrite ?(bk_B_len ok); lia).
    f_equal. apply slice_skipn.
Qed.




End Rows.

Lemma nth_skip_app {X : Type} (a j : nat) (p q : list X) (d : X) :
  length p = a -> nth (a + j) (p ++ q) d = nth j q d.
Proof. intros <-. apply app_nth2_plus. Qed.

Lemma nth_vneg (v : vec) (j : nat) : nth j (vneg v) 0%Z = (- nth j v 0)%Z.
Proof.
  unfold vneg. destruct (Nat.ltb_spec j (length v)).
  - now rewrite nth_map_lt with (dx := 0%Z).
  - now rewrite !nth_overflow by (rewrite ?length_map; lia).
Qed.

Lemma nth_vsub (a b : vec) (j : nat) :
  j < length a -> j < length b -> nth j (vsub a b) 0%Z = (nth j a 0 - nth j b 0)%Z.
Proof. intros Ha Hb. unfold vsub. now apply nth_zip_with. Qed.

Lemma nth_vadd (a b : vec) (j : nat) :
  j < length a -> j < length b -> nth j (vadd a b) 0%Z = (nth j a 0 + nth j b 0)%Z.
Proof. intros Ha Hb. unfold vadd. now apply nth_zip_with. Qed.

Lemma nth_matvec (Mx : matrix) (v : vec) (i : nat) :
  i < length Mx -> nth i (matvec Mx v) 0%Z = dot (nth i Mx []) v.
Proof. intros Hi. unfold matvec. now rewrite nth_map_lt with (dx := []). Qed.

Lemma length_slice_in {X : Type} (a b : nat) (v : list X) :
  a <= b -> b <= length v -> length (slice a b v) = b - a.
Proof. intros H1 H2. unfold slice. rewrite length_firstn, length_skipn. lia. Qed.

Section Feasible.

Variable cfg : config.
Hypothesis nx_pos : 0 < nx cfg.
Hypothesis nu_pos : 0 < nu cfg.
Hypothesis C_rows : rows_of (nx cfg) (C cfg).

Variables A_lst B_lst : list matrix.
Hypothesis ok : blocks_ok cfg A_lst B_lst.

Variable z : vec.
Variables z_init u_init : matrix.
Variable r_lst : list vec.
Hypothesis shapes : guess_shapes cfg z z_init u_init r_lst.

Variable x : vec.
Hypothesis x_len : length x = (N cfg + 1) * nx cfg + N cfg * nu cfg.

Local Abbreviation K := ((N cfg + 1) * nx cfg).
Local Abbreviation U := (N cfg * nu cfg).
Local Abbreviation l := (fst (constraint_vecs cfg z z_init u_init r_lst)).
Local Abbreviation u := (snd (constraint_vecs cfg z z_init u_init r_lst)).
Local Abbreviation M := (constraint_matrix cfg A_lst B_lst).
Local Abbreviation dz := (T (dz_of cfg x)).
Local Abbreviation du := (T (du_of cfg x)).

(** Row [row] of [l <= A x <= u] holds for the solution [x]. *)
Definition row_holds (row : nat) : Prop :=
  (nth row l 0 <= dot (nth row M []) x <= nth row u 0)%Z.

Lemma length_dz_row (t : nat) : t < N cfg + 1 -> length (nth t dz []) = nx cfg.
Proof.
  intros Ht. rewrite (@dz_row cfg nx_pos nu_pos (sh_C shapes) x x_len t Ht).
  rewrite length_slice_in by nia. nia.
Qed.


Lemma bounds_dynamics (t i : nat) :
  t < N cfg -> i < nx cfg ->
  nth (nx cfg + t * nx cfg + i) l 0%Z = (- nth i (nth t r_lst []) 0)%Z
  /\ nth (nx cfg + t * nx cfg + i) u 0%Z = (- nth i (nth t r_lst []) 0)%Z.
Proof.
  intros Ht Hi. rewrite (constraint_vecs_blocks shapes). cbn [fst snd].
  pose proof (MpcBoundsFacts.length_dz0 shapes) as L0.
  pose proof (MpcBoundsFacts.length_r_vec shapes) as L1.
  rewrite <- !Nat.add_assoc.
  rewrite !(@nth_skip_app _ (nx cfg)) by exact L0.
  rewrite !app_nth1 by (rewrite L1; nia).
  rewrite nth_vneg.
  rewrite (@nth_concat_blocks _ (nx cfg)) by (try apply shapes; rewrite ?(sh_r_lst shapes); lia).
  split; reflexivity.
Qed.




(** X1. A solution that satisfies the dynamics rows of stage [t] moves
    along the linearization of that stage:
    [dz[t+1] = A_t dz[t] + B_t du[t] + r_t]. *)
Theorem feasible_step_follows_linearization (t : nat) :
  t < N cfg ->
  (forall i, i < nx cfg -> row_holds (nx cfg + t * nx cfg + i)) ->
  nth (t + 1) dz []
    = vadd (vadd (matvec (nth t A_lst []) (nth t dz []))
                 (matvec (nth t B_lst []) (nth t du [])))
           (nth t r_lst []).
Proof.
  intros Ht Hrows.
  assert (HA : length (nth t A_lst []) = nx cfg).
  { pose proof (bk_A ok) as H. rewrite Forall_forall in H.
    apply H, nth_In. rewrite (bk_A_len ok). exact Ht. }
  assert (HB : length (nth t B_lst []) = nx cfg).
  { pose proof (bk_B ok) as H. rewrite Forall_forall in H.
    apply H, nth_In. rewrite (bk_B_len ok). exact Ht. }
  assert (Hr : length (nth t r_lst []) = nx cfg).
  { pose proof (sh_r_rows shapes) as H. unfold rows_of in H. rewrite Forall_forall in H.
    apply H, nth_In. rewrite (sh_r_lst shapes). exact Ht. }
  apply nth_ext with (d := 0%Z) (d' := 0%Z).
  - rewrite length_dz_row by lia. unfold vadd.
    rewrite !length_zip_with, !length_matvec, HA, HB, Hr. lia.
  - intros i Hi. rewrite length_dz_row in Hi by lia.
    specialize (Hrows i Hi). unfold row_holds in Hrows.
    destruct (bounds_dynamics Ht Hi) as [El Eu]. rewrite El, Eu in Hrows.
    rewrite (@dynamics_row_dot cfg nx_pos nu_pos (sh_C shapes) A_lst B_lst ok x x_len t i Ht Hi)
      in Hrows.
    rewrite !nth_vadd
      by (unfold vadd; rewrite ?length_zip_with, ?length_matvec, ?HA, ?HB, ?Hr; lia).
    rewrite !nth_matvec by lia. lia.
Qed.



End Feasible.

End MpcQpFacts.

(** ** The small controller: a feasible step *)

Module MpcQpExample.
Import Np NonlinearMPC MpcVecFacts MpcDataFacts MpcIterationFacts MpcExample MpcQpFacts.

(** A step that follows the blocks [A_a], [B_a] from [dz[0] = 0] with
    [du = (1, 1)]. *)
Definition x_step : vec := [0; 0; 1; 2; 20; 27; 1; 1]%Z.

Lemma feasible_step_follows_linearization_witness :
  nth 2 (T (dz_of cfg x_step)) []
    = vadd (vadd (matvec (nth 1 A_a []) (nth 1 (T (dz_of cfg x_step)) []))
                 (matvec (nth 1 B_a []) (nth 1 (T (du_of cfg x_step)) [])))
           (nth 1 r_guess []).
Proof.
  apply (@feasible_step_follows_linearization cfg ltac:(cbv; lia) ltac:(cbv; lia)
           A_a B_a example_blocks_a z_now z_guess u_guess r_guess example_shapes
           x_step eq_refl 1 ltac:(cbv; lia)).
  intros [|[|i]] Hi; [vm_compute; split; discriminate..|cbv in Hi; lia].
Defined.



End MpcQpExample.

(** ** NonlinearMPCController: the solution split and the solver workspace *)

Module MpcSolveFacts.
Import Np NpFacts NonlinearMPC MpcVecFacts MatrixFacts MpcDataFacts MpcIterationFacts
  MpcLoopFacts MpcQpFacts.

Lemma firstn_add {X : Type} (a b : nat) (v : list X) :
  firstn (a + b) v = firstn a v ++ firstn b (skipn a v).
Proof.
  revert v. induction a as [|a IH]; intros [|x v]; simpl; try reflexivity.
  - now rewrite firstn_nil.
  - now rewrite IH.
Qed.

Lemma concat_slices {X : Type} (r c : nat) (v : list X) :
  concat (map (fun t => slice (t * r) ((t + 1) * r) v) (seq 0 c)) = firstn (c * r) v.
Proof.
  induction c as [|c IH]; [reflexivity|].
  rewrite seq_S, map_app, concat_app, IH. cbn [map concat Nat.add].
  rewrite app_nil_r. unfold slice.
  replace ((c + 1) * r - c * r) with r by lia.
  replace (S c * r) with (c * r + r) by lia.
  symmetry. apply firstn_add.
Qed.

Lemma flatten_F_reshape_F (r c : nat) (v : vec) :
  0 < r -> length v = r * c -> flatten_F (reshape_F r c v) = v.
Proof.
  intros Hr Hv. unfold flatten_F. rewrite T_reshape_F by assumption.
  rewrite concat_slices. apply firstn_all2. lia.
Qed.

Lemma shape_reshape_F (r c : nat) (v : vec) :
  length (reshape_F r c v) = r /\ rows_of c (reshape_F r c v).
Proof.
  unfold reshape_F. split; [now rewrite length_map, length_seq|].
  apply Forall_forall. intros row H. apply in_map_iff in H as (i & <- & _).
  now rewrite length_map, length_seq.
Qed.

(** The workspace [solve_mpc_] hands to the solver: the one held, with one
    more update made of the current [q], constraint data, [l] and [u]. *)
Definition updated (p : Osqp) (st : state) (data : vec) : Osqp :=
  {| problem := problem p;
     updates := updates p ++
       [{| update_q := osqp_q st; update_Ax := data;
           update_l := osqp_l st; update_u := osqp_u st |}] |}.

(** X4. [solve_mpc_] returns exactly when the solution has one entry per
    variable, and then [dz] ([nx] by [N+1]) and [du] ([nu] by [N]), read
    column by column one after the other, give back [res.x]; a solution of
    any other length makes a [reshape] raise [ValueError]. *)
Theorem solve_mpc_splits_solution (cfg : config) (st : state) (p : Osqp) (data : vec) :
  0 < nx cfg -> 0 < nu cfg ->
  prob st = Some p -> osqp_A_data st = Some data ->
  let x := solve cfg (updated p st data) in
  (length x = (N cfg + 1) * nx cfg + N cfg * nu cfg ->
     exists st' dz du,
       solve_mpc_ cfg st = Ok (st', dz, du)
       /\ flatten_F dz ++ flatten_F du = x
       /\ res_x st' = x /\ prob st' = Some (updated p st data)
       /\ length dz = nx cfg /\ rows_of (N cfg + 1) dz
       /\ length du = nu cfg /\ rows_of (N cfg) du)
  /\ (length x <> (N cfg + 1) * nx cfg + N cfg * nu cfg ->
        solve_mpc_ cfg st = Raise ValueError).
Proof.
  intros Hnx Hnu Hp Hd x. unfold solve_mpc_. rewrite Hp, Hd.
  fold (updated p st data). fold x. split; intros Hx.
  - rewrite Hx, Nat.eqb_refl. eexists _, _, _. split; [reflexivity|].
    rewrite !flatten_F_reshape_F
      by (auto; rewrite ?length_firstn, ?length_skipn; lia).
    rewrite firstn_skipn.
    repeat split; try reflexivity; apply shape_reshape_F.
  - destruct (Nat.eqb_spec (length x) ((N cfg + 1) * nx cfg + N cfg * nu cfg)); [lia|].
    reflexivity.
Qed.


(** What one iteration leaves behind in the solver and in the structural
    fields. *)
Lemma iteration_frame (cfg : config) (z : vec) (st st' : state) :
  iteration cfg z st = Ok st' ->
  exists p data,
    prob st = Some p
    /\ osqp_A_data st' = Some data
    /\ prob st' = Some (updated p st' data)
    /\ res_x st' = solve cfg (updated p st' data)
    /\ osqp_P st' = osqp_P st
    /\ osqp_A st' = osqp_A st
    /\ osqp_A_data_A_inds st' = osqp_A_data_A_inds st
    /\ osqp_A_data_B_inds st' = osqp_A_data_B_inds st.
Proof.
  unfold iteration, update_constraint_matrix_data_.
  set (lin := map _ (stages (cur_z st) (cur_u st))).
  set (st1 := construct_constraint_vecs_ cfg _ z _ _ _).
  change (osqp_A_data st1) with (osqp_A_data st).
  change (osqp_A_data_A_inds st1) with (osqp_A_data_A_inds st).
  change (osqp_A_data_B_inds st1) with (osqp_A_data_B_inds st).
  destruct (osqp_A_data st) as [d0|]; [|discriminate].
  destruct (update_data _ _ _ _ d0) as [data|e]; [|discriminate]. cbn [bind].
  set (st2 := set_data st1 data _ _).
  unfold solve_mpc_. change (prob st2) with (prob st).
  destruct (prob st) as [p|]; [|discriminate].
  cbn [osqp_A_data st2 set_data].
  destruct (Nat.eqb _ _); [|discriminate]. cbn [bind].
  intros H. injection H as <-.
  exists p, data. repeat split; reflexivity.
Qed.

(** X5. [k] iterations never set the solver up again and never rebuild [P],
    the pattern matrix or the index lists: the workspace keeps its problem
    and receives exactly [k] updates, the last one made of the [q], the
    constraint data, [l] and [u] the state holds, and [res.x] is the
    solver's answer to that workspace. *)
Theorem iterations_only_update_the_workspace (cfg : config) (z : vec) (k : nat)
    (st st' : state) (p : Osqp) :
  iterates cfg z k st = Ok st' -> prob st = Some p ->
  exists ups,
    length ups = k
    /\ prob st' = Some {| problem := problem p; updates := updates p ++ ups |}
    /\ osqp_P st' = osqp_P st
    /\ osqp_A st' = osqp_A st
    /\ osqp_A_data_A_inds st' = osqp_A_data_A_inds st
    /\ osqp_A_data_B_inds st' = osqp_A_data_B_inds st
    /\ (0 < k ->
        exists data,
          osqp_A_data st' = Some data
          /\ last ups {| update_q := []; update_Ax := []; update_l := []; update_u := [] |}
             = {| update_q := osqp_q st'; update_Ax := data;
                  update_l := osqp_l st'; update_u := osqp_u st' |}
          /\ res_x st' = solve cfg {| problem := problem p; updates := updates p ++ ups |}).
Proof.
  revert st'. induction k as [|k IH]; intros st' Hrun Hp.
  - injection Hrun as <-. exists []. rewrite app_nil_r. destruct p.
    repeat split; auto. lia.
  - cbn [iterates] in Hrun.
    destruct (iterates cfg z k st) as [sk|e] eqn:Ek; [|discriminate]. cbn [bind] in Hrun.
    destruct (IH sk eq_refl Hp) as (ups & Hl & Hpk & HP & HA & Ha & Hb & _).
    destruct (iteration_frame _ _ _ Hrun) as (pk & data & Hpk' & Hd & Hp' & Hx & HP' & HA' & Ha' & Hb').
    rewrite Hpk in Hpk'. injection Hpk' as <-.
    exists (ups ++ [{| update_q := osqp_q st'; update_Ax := data;
                       update_l := osqp_l st'; update_u := osqp_u st' |}]).
    unfold updated in Hp', Hx. cbn [problem updates] in Hp', Hx.
    rewrite <- app_assoc in Hp', Hx.
    split; [rewrite length_app, Hl; simpl; lia|].
    split; [exact Hp'|].
    split; [congruence|]. split; [congruence|]. split; [congruence|]. split; [congruence|].
    intros _. exists data. split; [exact Hd|]. split; [apply last_last|exact Hx].
Qed.

End MpcSolveFacts.

(** ** NonlinearMPCController: what the in-place update leaves alone *)

Module MpcFrameFacts.
Import Np NpFacts NonlinearMPC StoreFacts.

Lemma nth_store_other (i k : nat) (v : Z) (d : vec) :
  k <> i -> nth k (store i v d) 0%Z = nth k d 0%Z.
Proof.
  revert i k. induction d as [|e d IH]; intros [|i] [|k] H; simpl; auto; try lia.
Qed.

Lemma store_all_frame (inds : list nat) :
  forall (vals d d' : vec),
    store_all inds vals d = Ok d' ->
    length d' = length d
    /\ forall k, ~ In k inds -> nth k d' 0%Z = nth k d 0%Z.
Proof.
  induction inds as [|i inds IH]; intros vals d d' H; cbn [store_all] in H.
  - injection H as <-. auto.
  - destruct vals as [|v vals]; [injection H as <-; auto|].
    destruct (Nat.ltb i (length d)); [|discriminate].
    destruct (IH _ _ _ H) as [Hl Hk]. rewrite length_store in Hl.
    split; [exact Hl|]. intros k Hnot.
    rewrite Hk by (intros Hin; apply Hnot; now right).
    apply nth_store_other. intros ->. apply Hnot. now left.
Qed.

Lemma assign_at_frame (inds : list nat) (vals d d' : vec) :
  assign_at inds vals d = Ok d' ->
  length d' = length d
  /\ forall k, ~ In k inds -> nth k d' 0%Z = nth k d 0%Z.
Proof.
  unfold assign_at. destruct vals as [|v [|v' vals]].
  - destruct (Nat.eqb _ _); [|discriminate]. apply store_all_frame.
  - apply store_all_frame.
  - destruct (Nat.eqb _ _); [|discriminate]. apply store_all_frame.
Qed.

(** X6. An in-place update that returns keeps the length of the data array
    and every entry whose position is in neither index list (the [-1] of
    the identity, the entries of [C], the [1] of the input bounds); the
    index lists and every other attribute are left as they were. *)
Theorem update_touches_only_indexed_entries (st st' : state) (A_lst B_lst : list matrix)
    (data : vec) :
  osqp_A_data st = Some data ->
  update_constraint_matrix_data_ st A_lst B_lst = Ok st' ->
  exists data',
    osqp_A_data st' = Some data'
    /\ length data' = length data
    /\ (forall k, ~ In k (osqp_A_data_A_inds st) -> ~ In k (osqp_A_data_B_inds st) ->
          nth k data' 0%Z = nth k data 0%Z)
    /\ st' = set_data st data' (osqp_A_data_A_inds st) (osqp_A_data_B_inds st).
Proof.
  intros Hd Hup. unfold update_constraint_matrix_data_ in Hup. rewrite Hd in Hup.
  unfold update_data, bind in Hup.
  destruct (hstack_flatten_F A_lst) as [a_vals|]; [|discriminate].
  destruct (assign_at _ a_vals data) as [d1|] eqn:E1; [|discriminate].
  destruct (hstack_flatten_F B_lst) as [b_vals|]; [|discriminate].
  destruct (assign_at _ b_vals d1) as [d2|] eqn:E2; [|discriminate].
  injection Hup as <-.
  destruct (assign_at_frame _ _ _ E1) as [L1 F1].
  destruct (assign_at_frame _ _ _ E2) as [L2 F2].
  exists d2. split; [reflexivity|]. split; [congruence|]. split; [|reflexivity].
  intros k Ha Hb. now rewrite F2, F1.
Qed.

End MpcFrameFacts.

Module MpcFrameExample.
Import Np NonlinearMPC MpcExample MpcFrameFacts.

Definition ones_state : state :=
  construct_constraint_matrix_data_ cfg init (CscFacts.ones_A cfg) (CscFacts.ones_B cfg).
Definition updated_state : state :=
  match update_constraint_matrix_data_ ones_state A_a B_a with
  | Ok s => s
  | Raise _ => ones_state
  end.

Lemma update_touches_only_indexed_entries_witness :
  exists data',
    osqp_A_data updated_state = Some data'
    /\ length data' = 23
    /\ nth 0 data' 0%Z = (-1)%Z.
Proof.
  destruct (@update_touches_only_indexed_entries ones_state updated_state A_a B_a
              [-1; 1; 1; 1; -1; 1; 1; -1; 1; 1; 1; -1; 1; 1; -1; 1; -1; 1; 1; 1; 1; 1; 1]%Z
              ltac:(vm_compute; reflexivity) ltac:(vm_compute; reflexivity))
    as (d' & H1 & H2 & H3 & _).
  exists d'. split; [exact H1|]. split; [exact H2|].
  rewrite H3; [reflexivity| |]; vm_compute; intuition discriminate.
Defined.

End MpcFrameExample.

(** ** NonlinearMPCController: the objective *)

Module MpcObjectiveFacts.
Import Np NpFacts NonlinearMPC MpcVecFacts MatrixFacts MpcDataFacts CscFacts MpcQpFacts.

Lemma ncols_T (w : nat) (Zm : matrix) :
  0 < w -> rows_of w Zm -> Zm <> [] -> ncols (T Zm) = length Zm.
Proof.
  intros Hw HZ Hne. rewrite (T_rows HZ Hne).
  destruct w as [|w]; [lia|]. unfold ncols. cbn [seq map hd]. apply length_column.
Qed.

Lemma length_T (w : nat) (Zm : matrix) : rows_of w Zm -> Zm <> [] -> length (T Zm) = w.
Proof. intros HZ Hne. now rewrite (T_rows HZ Hne), length_map, length_seq. Qed.

(** [Cm @ Zm.T] is the transpose of the array of the [Cm @ z], [z] a row of
    [Zm]. *)
Lemma matmul_T (w : nat) (Cm Zm : matrix) :
  0 < w -> rows_of w Zm -> Zm <> [] ->
  matmul Cm (T Zm) = T (map (matvec Cm) Zm).
Proof.
  intros Hw HZ Hne. unfold matmul. rewrite (ncols_T Hw HZ Hne).
  assert (HY : rows_of (length Cm) (map (matvec Cm) Zm)).
  { apply Forall_forall. intros y Hy. apply in_map_iff in Hy as (zz & <- & _).
    apply length_matvec. }
  assert (HYne : map (matvec Cm) Zm <> []) by (destruct Zm; [congruence|discriminate]).
  rewrite (T_rows HY HYne).
  rewrite <- (map_f_nth_seq
                (fun r => map (fun j => dot r (column j (T Zm))) (seq 0 (length Zm))) Cm []).
  apply map_ext_in. intros i Hi. apply in_seq in Hi.
  unfold column at 2. rewrite map_map.
  rewrite <- (map_f_nth_seq (fun zz => nth i (matvec Cm zz) 0%Z) Zm []).
  apply map_ext_in. intros j Hj. apply in_seq in Hj.
  rewrite (@column_T w) by (auto; lia).
  now rewrite nth_matvec by lia.
Qed.

(** [Y.T - v.reshape(-1, 1)] is the transpose of the array of the [y - v],
    [y] a row of [Y]. *)
Lemma sub_col_T (k : nat) (Y : matrix) (v : vec) :
  rows_of k Y -> Y <> [] -> length v = k ->
  sub_col (T Y) v = T (map (fun y => vsub y v) Y).
Proof.
  intros HY Hne Hv.
  assert (HY' : rows_of k (map (fun y => vsub y v) Y)).
  { apply Forall_forall. intros y Hy. apply in_map_iff in Hy as (y0 & <- & Hy0).
    unfold rows_of in HY. rewrite Forall_forall in HY.
    rewrite length_vsub, (HY y0 Hy0), Hv. lia. }
  assert (Hne' : map (fun y => vsub y v) Y <> []) by (destruct Y; [congruence|discriminate]).
  rewrite (T_rows HY Hne), (T_rows HY' Hne'). unfold sub_col.
  apply nth_ext with (d := []) (d' := []).
  - rewrite length_zip_with, !length_map, length_seq, Hv. lia.
  - intros i Hi. rewrite length_zip_with, length_map, length_seq, Hv in Hi.
    rewrite nth_zip_with with (dx := []) (dy := 0%Z)
      by (rewrite ?length_map, ?length_seq; lia).
    rewrite !nth_map_seq by lia. cbn [Nat.add].
    unfold column. rewrite !map_map. apply map_ext_in. intros y Hy.
    unfold rows_of in HY. rewrite Forall_forall in HY.
    now rewrite nth_vsub by (rewrite ?(HY y Hy); lia).
Qed.

(** The shapes of the output matrix and of the cost matrices. *)
Record cost_shapes (cfg : config) : Prop := {
  cs_C_len : length (C cfg) = ns cfg;
  cs_C_rows : rows_of (nx cfg) (C cfg);
  cs_Q_len : length (Q cfg) = ns cfg;
  cs_Q_rows : rows_of (ns cfg) (Q cfg);
  cs_QN_len : length (QN cfg) = ns cfg;
  cs_QN_rows : rows_of (ns cfg) (QN cfg);
  cs_R_len : length (R cfg) = nu cfg;
  cs_R_rows : rows_of (nu cfg) (R cfg)
}.

(** [C.T @ Q @ (C @ z - xr)] and its terminal counterpart. *)
Definition stage_gradient (cfg : config) (zt : vec) : vec :=
  matvec (T (C cfg)) (matvec (Q cfg) (vsub (matvec (C cfg) zt) (xr cfg))).
Definition final_gradient (cfg : config) (zN : vec) : vec :=
  matvec (T (C cfg)) (matvec (QN cfg) (vsub (matvec (C cfg) zN) (xr cfg))).

Section Objective.

Variable cfg : config.
Hypothesis nx_pos : 0 < nx cfg.
Hypothesis nu_pos : 0 < nu cfg.
Hypothesis ns_pos : 0 < ns cfg.
Hypothesis N_pos : 0 < N cfg.
Hypothesis costs : cost_shapes cfg.

Variables z_init u_init : matrix.
Hypothesis z_len : length z_init = N cfg + 1.
Hypothesis z_rows : rows_of (nx cfg) z_init.
Hypothesis u_len : length u_init = N cfg.
Hypothesis u_rows : rows_of (nu cfg) u_init.

Lemma C_nonempty : C cfg <> [].
Proof. intros E. pose proof (cs_C_len costs) as H. rewrite E in H. simpl in H. lia. Qed.

Lemma length_Ct : length (T (C cfg)) = nx cfg.
Proof. apply length_T; [apply costs|apply C_nonempty]. Qed.

Lemma stages_nonempty : removelast z_init <> [].
Proof.
  intros E. apply (f_equal (@length _)) in E.
  rewrite MpcBoundsFacts.length_removelast, z_len in E. simpl in E. lia.
Qed.

Lemma z_init_parts : z_init = removelast z_init ++ [last z_init []].
Proof. apply app_removelast_last. intros E. rewrite E in z_len. simpl in z_len. lia. Qed.

Lemma stages_rows : rows_of (nx cfg) (removelast z_init).
Proof.
  pose proof z_rows as H. rewrite z_init_parts in H.
  now apply Forall_app in H as [H _].
Qed.

Lemma last_row : length (last z_init []) = nx cfg.
Proof.
  pose proof z_rows as H. rewrite z_init_parts in H.
  apply Forall_app in H as [_ H]. now inversion H.
Qed.

Lemma length_stage_gradient (zt : vec) : length (stage_gradient cfg zt) = nx cfg.
Proof. unfold stage_gradient. now rewrite length_matvec, length_Ct. Qed.

Lemma length_final_gradient (zN : vec) : length (final_gradient cfg zN) = nx cfg.
Proof. unfold final_gradient. now rewrite length_matvec, length_Ct. Qed.

(** The linear objective in stage order. *)
Definition q_by_stage (cfg : config) (z_init u_init : matrix) : vec :=
  concat (map (stage_gradient cfg) (removelast z_init))
    ++ final_gradient cfg (last z_init [])
    ++ concat (map (matvec (R cfg)) u_init).

Lemma linear_objective_stages : linear_objective cfg z_init u_init = q_by_stage cfg z_init u_init.
Proof.
  unfold linear_objective, q_by_stage. cbv zeta. f_equal; [|f_equal].
  - rewrite (@matmul_T (nx cfg) (C cfg) _ nx_pos stages_rows stages_nonempty).
    assert (H1 : rows_of (ns cfg) (map (matvec (C cfg)) (removelast z_init))).
    { apply Forall_forall. intros y Hy. apply in_map_iff in Hy as (z0 & <- & _).
      rewrite length_matvec. apply costs. }
    assert (N1 : map (matvec (C cfg)) (removelast z_init) <> []).
    { pose proof stages_nonempty. destruct (removelast z_init); [congruence|discriminate]. }
    rewrite (@sub_col_T (ns cfg) _ (xr cfg) H1 N1 eq_refl).
    assert (H2 : rows_of (ns cfg)
                   (map (fun y => vsub y (xr cfg)) (map (matvec (C cfg)) (removelast z_init)))).
    { apply Forall_forall. intros y Hy. apply in_map_iff in Hy as (y0 & <- & Hy0).
      unfold rows_of in H1. rewrite Forall_forall in H1.
      rewrite length_vsub, (H1 y0 Hy0). unfold ns. lia. }
    assert (N2 : map (fun y => vsub y (xr cfg)) (map (matvec (C cfg)) (removelast z_init)) <> []).
    { destruct (map (matvec (C cfg)) (removelast z_init)); [congruence|discriminate]. }
    rewrite (@matmul_T (ns cfg) (Q cfg) _ ns_pos H2 N2).
    rewrite (@flatten_F_matmul_T (ns cfg)); [|exact ns_pos|].
    + rewrite !map_map. reflexivity.
    + apply Forall_forall. intros y Hy. apply in_map_iff in Hy as (y0 & <- & _).
      rewrite length_matvec. apply costs.
  - apply (@flatten_F_matmul_T (nu cfg) (R cfg) u_init nu_pos u_rows).
Qed.

Lemma length_q_by_stage :
  length (q_by_stage cfg z_init u_init) = (N cfg + 1) * nx cfg + N cfg * nu cfg.
Proof.
  unfold q_by_stage. rewrite !length_app, length_final_gradient.
  rewrite (@length_concat_blocks _ (nx cfg)), (@length_concat_blocks _ (nu cfg)).
  - rewrite !length_map, MpcBoundsFacts.length_removelast, z_len, u_len. lia.
  - apply Forall_forall. intros y Hy. apply in_map_iff in Hy as (u0 & <- & _).
    rewrite length_matvec. apply costs.
  - apply Forall_forall. intros y Hy. apply in_map_iff in Hy as (z0 & <- & _).
    apply length_stage_gradient.
Qed.

(** X10. [q], stage by stage: the gradient of the tracking cost
    [C.T @ Q @ (C @ z_t - xr)] at each of the first [N] states of the guess,
    then at the last state with the terminal weight [QN], then [R @ u_t]
    for each input of the guess.  [construct_objective_] and
    [update_objective_] compute the same [q]; the update leaves [P] as it
    is. *)
Theorem linear_objective_by_stage (st : state) :
  let q :=
    concat (map (stage_gradient cfg) (removelast z_init))
      ++ final_gradient cfg (last z_init [])
      ++ concat (map (matvec (R cfg)) u_init) in
  osqp_q (update_objective_ cfg st z_init u_init) = q
  /\ osqp_q (construct_objective_ cfg st z_init u_init) = q
  /\ osqp_P (update_objective_ cfg st z_init u_init) = osqp_P st
  /\ length q = (N cfg + 1) * nx cfg + N cfg * nu cfg.
Proof.
  intros q. fold (q_by_stage cfg z_init u_init) in q. subst q.
  cbn [update_objective_ construct_objective_ osqp_q osqp_P set_objective].
  rewrite linear_objective_stages.
  repeat split; try reflexivity. apply length_q_by_stage.
Qed.

End Objective.

(** *** The dimensions of the problem given to [setup] *)

Lemma block_diag_dims (Ms : list matrix) :
  Forall (fun M => M <> [] /\ rows_of (ncols M) M) Ms ->
  length (Sp.block_diag Ms) = list_sum (map (@length vec) Ms)
  /\ rows_of (list_sum (map ncols Ms)) (Sp.block_diag Ms)
  /\ ncols (Sp.block_diag Ms) = list_sum (map ncols Ms).
Proof.
  induction 1 as [|M rest [Hne Hrows] _ (IHl & IHr & IHc)].
  - repeat split. constructor.
  - cbn [Sp.block_diag map list_sum]. rewrite IHc. split; [|split].
    + now rewrite length_app, !length_map, IHl.
    + apply Forall_app. split; apply Forall_forall; intros row Hrow;
        apply in_map_iff in Hrow as (r0 & <- & Hr0); rewrite length_app, length_zeros.
      * unfold rows_of in Hrows. rewrite Forall_forall in Hrows. now rewrite (Hrows r0 Hr0).
      * unfold rows_of in IHr. rewrite Forall_forall in IHr. now rewrite (IHr r0 Hr0).
    + destruct M as [|r0 M]; [congruence|].
      unfold ncols at 1. cbn [map app hd]. now rewrite length_app, length_zeros.
Qed.

Lemma matmul_shape (Am Bm : matrix) :
  length (matmul Am Bm) = length Am /\ rows_of (ncols Bm) (matmul Am Bm).
Proof.
  unfold matmul. split; [apply length_map|].
  apply Forall_forall. intros row H. apply in_map_iff in H as (r & <- & _).
  now rewrite length_map, length_seq.
Qed.

Lemma square_block (w : nat) (Mx : matrix) :
  0 < w -> length Mx = w -> rows_of w Mx -> Mx <> [] /\ rows_of (ncols Mx) Mx /\ ncols Mx = w.
Proof.
  intros Hw Hl Hr.
  assert (Hne : Mx <> []) by (intros ->; simpl in Hl; lia).
  rewrite (ncols_rows Hr Hne). auto.
Qed.

Lemma kron_eye_block (k w : nat) (Mx : matrix) :
  0 < k -> 0 < w -> length Mx = w -> rows_of w Mx ->
  length (Sp.kron (Sp.eye k) Mx) = k * w
  /\ Sp.kron (Sp.eye k) Mx <> []
  /\ rows_of (ncols (Sp.kron (Sp.eye k) Mx)) (Sp.kron (Sp.eye k) Mx)
  /\ ncols (Sp.kron (Sp.eye k) Mx) = k * w.
Proof.
  intros Hk Hw Hl Hr.
  assert (HL : length (Sp.kron (Sp.eye k) Mx) = k * w).
  { rewrite length_kron, Hl. unfold Sp.eye. now rewrite length_eye. }
  assert (HR : rows_of (k * w) (Sp.kron (Sp.eye k) Mx))
    by (apply rows_kron; [apply rows_eye|exact Hr]).
  assert (Hne : Sp.kron (Sp.eye k) Mx <> []).
  { intros E. rewrite E in HL. simpl in HL. nia. }
  rewrite (ncols_rows HR Hne). auto.
Qed.

Section Setup.

Variable cfg : config.
Hypothesis nx_pos : 0 < nx cfg.
Hypothesis nu_pos : 0 < nu cfg.
Hypothesis ns_pos : 0 < ns cfg.
Hypothesis N_pos : 0 < N cfg.
Hypothesis costs : cost_shapes cfg.
Hypothesis umin_len : length (umin cfg) = nu cfg.
Hypothesis umax_len : length (umax cfg) = nu cfg.
Hypothesis xmin_len : length (xmin cfg) = ns cfg.
Hypothesis xmax_len : length (xmax cfg) = ns cfg.

Variables z_init u_init : matrix.
Hypothesis z_len : length z_init = N cfg + 1.
Hypothesis z_rows : rows_of (nx cfg) z_init.
Hypothesis u_len : length u_init = N cfg.
Hypothesis u_rows : rows_of (nu cfg) u_init.

Local Abbreviation n_var := ((N cfg + 1) * nx cfg + N cfg * nu cfg).
Local Abbreviation n_con := ((N cfg + 1) * nx cfg + N cfg * nu cfg + (N cfg + 1) * ns cfg).

Lemma setup_shapes :
  guess_shapes cfg (nth 0 z_init []) z_init u_init (repeat (ones (nx cfg)) (N cfg)).
Proof.
  constructor; auto; try apply costs.
  - unfold rows_of in z_rows. rewrite Forall_forall in z_rows.
    apply z_rows, nth_In. lia.
  - apply repeat_length.
  - apply Forall_forall. intros r Hr. apply repeat_spec in Hr. subst. apply repeat_length.
Qed.

Lemma P_dims (st : state) :
  let P := osqp_P (construct_objective_ cfg st z_init u_init) in
  length P = n_var /\ rows_of n_var P.
Proof.
  cbn [construct_objective_ osqp_P set_objective].
  set (G := matmul (T (C cfg)) (matmul (Q cfg) (C cfg))).
  set (GN := matmul (T (C cfg)) (matmul (QN cfg) (C cfg))).
  assert (HC : ncols (C cfg) = nx cfg).
  { apply ncols_rows; [apply costs|]. intros E.
    pose proof (cs_C_len costs) as H. rewrite E in H. simpl in H. lia. }
  assert (LCt : length (T (C cfg)) = nx cfg) by (unfold T; now rewrite length_map, length_seq).
  assert (HQ : Q cfg <> []).
  { intros E. pose proof (cs_Q_len costs) as H. rewrite E in H. simpl in H. lia. }
  assert (HQN : QN cfg <> []).
  { intros E. pose proof (cs_QN_len costs) as H. rewrite E in H. simpl in H. lia. }
  assert (HG : length G = nx cfg /\ rows_of (nx cfg) G).
  { unfold G. destruct (matmul_shape (T (C cfg)) (matmul (Q cfg) (C cfg))) as [Hl Hr].
    rewrite Hl, LCt. split; [reflexivity|].
    destruct (matmul_shape (Q cfg) (C cfg)) as [Hl2 Hr2].
    rewrite (@ncols_rows (ncols (C cfg)) (matmul (Q cfg) (C cfg))), HC in Hr; auto.
    intros E. apply (f_equal (@length _)) in E. rewrite Hl2 in E.
    destruct (Q cfg); [congruence|discriminate]. }
  assert (HGN : length GN = nx cfg /\ rows_of (nx cfg) GN).
  { unfold GN. destruct (matmul_shape (T (C cfg)) (matmul (QN cfg) (C cfg))) as [Hl Hr].
    rewrite Hl, LCt. split; [reflexivity|].
    destruct (matmul_shape (QN cfg) (C cfg)) as [Hl2 Hr2].
    rewrite (@ncols_rows (ncols (C cfg)) (matmul (QN cfg) (C cfg))), HC in Hr; auto.
    intros E. apply (f_equal (@length _)) in E. rewrite Hl2 in E.
    destruct (QN cfg); [congruence|discriminate]. }
  destruct HG as [LG RG]. destruct HGN as [LGN RGN].
  destruct (kron_eye_block N_pos nx_pos LG RG) as (K1 & K2 & K3 & K4).
  destruct (square_block nx_pos LGN RGN) as (S1 & S2 & S3).
  destruct (kron_eye_block N_pos nu_pos (cs_R_len costs) (cs_R_rows costs)) as (R1 & R2 & R3 & R4).
  destruct (@block_diag_dims
              [Sp.kron (Sp.eye (N cfg)) G; GN; Sp.kron (Sp.eye (N cfg)) (R cfg)])
    as (Hl & Hr & _); [repeat constructor; assumption|].
  cbn [map] in Hl, Hr. rewrite K1, LGN, R1 in Hl. rewrite K4, S3, R4 in Hr.
  unfold list_sum in Hl, Hr. cbn [fold_right] in Hl, Hr.
  split.
  - rewrite Hl. nia.
  - replace n_var with (N cfg * nx cfg + (nx cfg + (N cfg * nu cfg + 0))) by nia. exact Hr.
Qed.


Lemma constraint_matrix_dims (A_lst B_lst : list matrix) :
  blocks_ok cfg A_lst B_lst ->
  length (constraint_matrix cfg A_lst B_lst) = n_con
  /\ rows_of n_var (constraint_matrix cfg A_lst B_lst).
Proof.
  intros ok.
  pose proof (length_Ax nx_pos (cs_C_len costs) ok) as LAx.
  pose proof (rows_Ax nx_pos (cs_C_len costs) ok) as RAx.
  pose proof (length_Bu nx_pos (cs_C_len costs) ok) as LBu.
  assert (RBu : rows_of (N cfg * nu cfg) (Bu cfg B_lst)).
  { unfold Bu. apply Forall_app. split; [apply rows_zeros2|].
    rewrite <- (bk_B_len ok). apply (block_diag_shape nx_pos (shape_B ok)). }
  rewrite constraint_matrix_parts. split.
  - rewrite !length_app, length_hcat2, LAx, LBu. unfold Aineq_u, Aineq_x.
    rewrite !length_hcat2, length_kron, !length_zeros2. unfold Sp.eye.
    rewrite !length_eye, (cs_C_len costs). lia.
  - apply Forall_app. split; [apply rows_of_hcat2; assumption|].
    apply Forall_app. split; unfold Aineq_u, Aineq_x.
    + apply rows_of_hcat2; [apply rows_zeros2|apply rows_eye].
    + apply rows_of_hcat2; [|apply rows_zeros2].
      apply rows_kron; [apply rows_eye|apply costs].
Qed.

Lemma constraint_vecs_dims (z : vec) (r_lst : list vec) :
  guess_shapes cfg z z_init u_init r_lst ->
  length (fst (constraint_vecs cfg z z_init u_init r_lst)) = n_con
  /\ length (snd (constraint_vecs cfg z z_init u_init r_lst)) = n_con.
Proof.
  intros shapes. rewrite (constraint_vecs_blocks shapes). cbn [fst snd].
  rewrite !length_app.
  rewrite (MpcBoundsFacts.length_dz0 shapes), (MpcBoundsFacts.length_r_vec shapes).
  rewrite (length_concat_blocks
             (@MpcBoundsFacts.input_blocks _ _ _ _ _ shapes _ (sh_umin shapes))).
  rewrite (length_concat_blocks
             (@MpcBoundsFacts.input_blocks _ _ _ _ _ shapes _ (sh_umax shapes))).
  rewrite !length_map, (sh_u_init shapes).
  rewrite !(@MpcBoundsFacts.length_state_bounds _ _ _ _ _ shapes) by apply shapes.
  split; lia.
Qed.

(** X11. [construct_controller] sets the solver up with a problem of consistent
    dimensions: with [n = (N+1) nx + N nu] variables and
    [m = n + (N+1) ns] constraints, [P] is [n] by [n], [q] has [n] entries,
    [A] is [m] by [n], and [l] and [u] have [m] entries.  No update has been
    passed yet. *)
Theorem setup_problem_is_consistent (st : state) :
  exists p,
    prob (construct_controller cfg st z_init u_init) = Some p
    /\ updates p = []
    /\ length (setup_P (problem p)) = n_var /\ rows_of n_var (setup_P (problem p))
    /\ length (setup_q (problem p)) = n_var
    /\ length (setup_A (problem p)) = n_con /\ rows_of n_var (setup_A (problem p))
    /\ length (setup_l (problem p)) = n_con
    /\ length (setup_u (problem p)) = n_con.
Proof.
  unfold construct_controller. cbv zeta.
  rewrite MpcUpdateFacts.construct_data_fields.
  cbn [prob set_solver]. eexists. split; [reflexivity|].
  cbn [updates problem setup_P setup_q setup_A setup_l setup_u
       osqp_P osqp_q osqp_A osqp_l osqp_u set_data construct_constraint_matrix_ set_matrix
       construct_constraint_vecs_ set_bounds].
  split; [reflexivity|].
  destruct (P_dims st) as [PL PR].
  assert (Eq : linear_objective cfg z_init u_init = q_by_stage cfg z_init u_init)
    by (apply linear_objective_stages; assumption).
  assert (Lq : length (q_by_stage cfg z_init u_init) = n_var)
    by (apply length_q_by_stage; assumption).
  destruct (constraint_matrix_dims (ones_ok cfg)) as [AL AR].
  destruct (constraint_vecs_dims setup_shapes) as [Ll Lu].
  split; [exact PL|]. split; [exact PR|].
  split; [cbn [construct_objective_ osqp_q set_objective]; rewrite Eq; exact Lq|].
  split; [exact AL|]. split; [exact AR|]. split; [exact Ll|exact Lu].
Qed.

End Setup.

End MpcObjectiveFacts.

(** ** The small controller: objective and setup *)

Module MpcObjectiveExample.
Import Np NonlinearMPC MpcVecFacts MpcDataFacts MpcExample MpcObjectiveFacts.

Lemma example_costs : cost_shapes cfg.
Proof. constructor; try reflexivity; repeat constructor. Defined.

Lemma linear_objective_by_stage_witness :
  osqp_q (update_objective_ cfg init z_guess u_guess) = [-2; 0; 0; 0; 2; 0; 1; 2]%Z.
Proof.
  rewrite (proj1 (@linear_objective_by_stage cfg
                    ltac:(cbv; lia) ltac:(cbv; lia) ltac:(cbv; lia) ltac:(cbv; lia)
                    example_costs z_guess u_guess eq_refl ltac:(repeat constructor)
                    eq_refl ltac:(repeat constructor) init)).
  reflexivity.
Defined.

Lemma setup_problem_is_consistent_witness :
  exists p,
    prob (construct_controller cfg init z_guess u_guess) = Some p
    /\ length (setup_P (problem p)) = 8 /\ length (setup_q (problem p)) = 8
    /\ length (setup_A (problem p)) = 11 /\ length (setup_l (problem p)) = 11.
Proof.
  destruct (@setup_problem_is_consistent cfg
              ltac:(cbv; lia) ltac:(cbv; lia) ltac:(cbv; lia) ltac:(cbv; lia)
              example_costs eq_refl eq_refl eq_refl eq_refl
              z_guess u_guess eq_refl ltac:(repeat constructor)
              eq_refl ltac:(repeat constructor) init)
    as (p & H1 & _ & H3 & _ & H5 & H6 & _ & H8 & _).
  exists p. repeat split; assumption.
Defined.

End MpcObjectiveExample.

(** ** NonlinearMPCController: dynamics that are not lifted *)

Module MpcOutputFacts.
Import Np NpFacts NonlinearMPC MpcVecFacts MpcQpFacts.

Lemma matvec_eye (k : nat) (v : vec) : length v = k -> matvec (eye k) v = v.
Proof.
  intros Hv. apply nth_ext with (d := 0%Z) (d' := 0%Z).
  - now rewrite length_matvec, length_eye.
  - intros i Hi. rewrite length_matvec, length_eye in Hi.
    rewrite nth_matvec by (rewrite length_eye; exact Hi).
    rewrite nth_eye, unit_row_split, dot_unit by exact Hi. lia.
Qed.

(** X12. For dynamics that are not [BilinearLiftedDynamics] the output matrix
    is the identity, so on arguments of the right shapes the state bounds
    apply to the states themselves: the bounds of stage [t] are
    [xmin - z_init[t]] and [xmax - z_init[t]] (with [terminal_constraint],
    both bounds of the last stage are [xr - z_init[-1]]). *)
Theorem plain_dynamics_bound_the_states (cfg : config) (z : vec) (z_init u_init : matrix)
    (r_lst : list vec) :
  is_bilinear_lifted (dynamics_object cfg) = false ->
  guess_shapes cfg z z_init u_init r_lst ->
  let equalities := vneg (vsub z (nth 0 z_init [])) ++ vneg (concat r_lst) in
  let states b :=
    if terminal_constraint cfg
    then concat (map (vsub b) (removelast z_init)) ++ vsub (xr cfg) (last z_init [])
    else concat (map (vsub b) z_init) in
  C cfg = eye (nx cfg)
  /\ constraint_vecs cfg z z_init u_init r_lst
     = (equalities ++ concat (map (vsub (umin cfg)) u_init) ++ states (xmin cfg),
        equalities ++ concat (map (vsub (umax cfg)) u_init) ++ states (xmax cfg)).
Proof.
  intros Hplain shapes equalities states.
  assert (HC : C cfg = eye (nx cfg)) by (unfold C; now rewrite Hplain).
  split; [exact HC|].
  pose proof (sh_z_rows shapes) as Hrows. unfold rows_of in Hrows.
  rewrite Forall_forall in Hrows.
  assert (Hsplit : z_init = removelast z_init ++ [last z_init []]).
  { apply app_removelast_last. intros E. pose proof (sh_z_init shapes) as H.
    rewrite E in H. simpl in H. lia. }
  assert (Hstage : forall b Zm, (forall zt, In zt Zm -> In zt z_init) ->
            map (fun zt => vsub b (matvec (C cfg) zt)) Zm = map (vsub b) Zm).
  { intros b Zm Hin. apply map_ext_in. intros zt Hzt.
    now rewrite HC, matvec_eye by (apply Hrows, Hin, Hzt). }
  assert (Hstates : forall b, state_bounds cfg z_init b = states b).
  { intros b. unfold state_bounds, states. destruct (terminal_constraint cfg).
    - rewrite Hstage
        by (intros zt Hzt; rewrite Hsplit; apply in_or_app; now left).
      rewrite HC, matvec_eye; [reflexivity|].
      apply Hrows. rewrite Hsplit at 2. apply in_or_app. right. now left.
    - now rewrite Hstage. }
  rewrite (constraint_vecs_blocks shapes), !Hstates.
  unfold equalities. now rewrite <- !app_assoc.
Qed.

End MpcOutputFacts.

Module MpcOutputExample.
Import Np NonlinearMPC MpcVecFacts MpcOutputFacts.

(** A controller on dynamics that are not lifted: two states, one input,
    horizon two. *)
Definition plain_cfg : config :=
  {| dynamics_object :=
       {| dyn_n := 2; dyn_m := 1; is_bilinear_lifted := false; dyn_C := [];
          get_linearization := fun _ _ _ => ([[1; 0]; [0; 1]]%Z, [[0]; [1]]%Z, [0; 0]%Z) |};
     N := 2;
     umin := [-5]%Z; umax := [5]%Z; xmin := [-10; -10]%Z; xmax := [10; 10]%Z;
     Q := [[1; 0]; [0; 1]]%Z; R := [[1]]%Z; QN := [[1; 0]; [0; 1]]%Z;
     xr := [3; 0]%Z; terminal_constraint := false;
     solve := fun _ => zeros 8 |}.

Lemma plain_dynamics_bound_the_states_witness :
  fst (constraint_vecs plain_cfg [1; 2]%Z [[1; 2]; [3; 4]; [5; 6]]%Z [[1]; [2]]%Z
         [[0; 0]; [0; 0]]%Z)
    = ([0; 0] ++ [0; 0; 0; 0] ++ [-5 - 1; -5 - 2]
         ++ [-10 - 1; -10 - 2; -10 - 3; -10 - 4; -10 - 5; -10 - 6])%Z.
Proof.
  rewrite (proj2 (@plain_dynamics_bound_the_states plain_cfg [1; 2]%Z
                    [[1; 2]; [3; 4]; [5; 6]]%Z [[1]; [2]]%Z [[0; 0]; [0; 0]]%Z
                    eq_refl
                    ltac:(constructor; try reflexivity; try (cbv; lia);
                          repeat constructor))).
  reflexivity.
Defined.

(** With two states that are not lifted, [C = eye(2)] is fairly dense:
    [sparse.kron] stores its zeros, [_osqp_A] holds 32 entries and the data
    array 26. *)
Example plain_controller_stores_zeros :
  Sp.kron_stored (C plain_cfg) = ones2 2 2
  /\ length (Sp.csc_data (stored_pattern plain_cfg)
               (constraint_matrix plain_cfg (CscFacts.ones_A plain_cfg)
                  (CscFacts.ones_B plain_cfg))) = 32
  /\ option_map (@length Z)
       (osqp_A_data (construct_controller plain_cfg init [[1; 2]; [3; 4]; [5; 6]]%Z
                       [[1]; [2]]%Z)) = Some 26.
Proof. repeat split; reflexivity. Qed.

End MpcOutputExample.

(** ** NonlinearMPCController: termination, the additive update and the logs of a call *)

Module MpcRunFacts.
Import Np NpFacts NonlinearMPC MpcVecFacts MatrixFacts MpcDataFacts MpcIterationFacts
  MpcLoopFacts MpcConvergence MpcQpFacts.

Definition all_zero (M : matrix) : Prop := Forall (Forall (fun e => e = 0%Z)) M.

Lemma slice_zeros (a b k : nat) : b <= k -> slice a b (zeros k) = zeros (b - a).
Proof.
  intros H. destruct (Nat.le_gt_cases a b) as [Hab|Hab].
  - apply nth_ext with (d := 0%Z) (d' := 0%Z).
    + rewrite length_slice_in, length_zeros by (rewrite ?length_zeros; lia). reflexivity.
    + intros i Hi. rewrite length_slice_in in Hi by (rewrite ?length_zeros; lia).
      rewrite nth_slice by lia. now rewrite !nth_zeros.
  - unfold slice. replace (b - a) with 0 by lia. reflexivity.
Qed.

Lemma madd_zeros (w : nat) (M : matrix) (a : nat) :
  rows_of w M -> madd M (map (fun _ => zeros w) (seq a (length M))) = M.
Proof.
  intros H. revert a. induction H as [|r M Hr _ IH]; intros a; [reflexivity|].
  cbn [length seq map]. unfold madd in *. cbn [zip_with].
  rewrite IH. f_equal. rewrite <- Hr. apply vadd_zeros_r.
Qed.

Lemma vsub_self_zero (v : vec) : Forall (fun e => e = 0%Z) (vsub v v).
Proof. induction v as [|e v IH]; constructor; [lia|exact IH]. Qed.

Lemma msub_self_zero (M : matrix) : all_zero (msub M M).
Proof. induction M as [|r M IH]; constructor; [apply vsub_self_zero|exact IH]. Qed.

Lemma T_dz_zeros (cfg : config) :
  0 < nx cfg ->
  T (dz_of cfg (zeros ((N cfg + 1) * nx cfg + N cfg * nu cfg)))
    = map (fun _ => zeros (nx cfg)) (seq 0 (N cfg + 1)).
Proof.
  intros Hnx. unfold dz_of.
  rewrite T_reshape_F by (auto; rewrite length_firstn, length_zeros; lia).
  apply map_ext_in. intros t Ht. apply in_seq in Ht.
  rewrite slice_firstn by nia. rewrite slice_zeros by nia. f_equal. lia.
Qed.

Lemma T_du_zeros (cfg : config) :
  0 < nu cfg ->
  T (du_of cfg (zeros ((N cfg + 1) * nx cfg + N cfg * nu cfg)))
    = map (fun _ => zeros (nu cfg)) (seq 0 (N cfg)).
Proof.
  intros Hnu. unfold du_of.
  rewrite T_reshape_F by (auto; rewrite length_skipn, length_zeros; lia).
  apply map_ext_in. intros t Ht. apply in_seq in Ht.
  rewrite slice_skipn. rewrite slice_zeros by nia. f_equal. lia.
Qed.

(** The residuals the first iteration linearizes. *)
Definition first_residuals (cfg : config) (z_init_0 u_init_0 : matrix) : list vec :=
  map snd
    (map (fun s => get_linearization (dynamics_object cfg) (fst (fst s)) (snd (fst s)) (snd s))
         (stages z_init_0 u_init_0)).

(** X9. Before [construct_controller] there is no constraint data: on
    well-shaped arguments, with [max_iter = 0] the call only stores the
    guess, with any larger [max_iter] (the default included) the first
    iteration raises [AttributeError] at the in-place update. *)
Theorem unconstructed_controller_raises (norm : matrix -> pyfloat) (cfg : config)
    (st : state) (z : vec) (z_init_0 u_init_0 : matrix) (eps : option pyfloat)
    (max_iter : nat) :
  osqp_A_data st = None ->
  0 < N cfg -> dyn_ok cfg -> MpcObjectiveFacts.cost_shapes cfg ->
  guess_shapes cfg z z_init_0 u_init_0 (first_residuals cfg z_init_0 u_init_0) ->
  solve_to_convergence norm cfg st z z_init_0 u_init_0 eps (Some 0)
    = Some (Ok (set_guess st z_init_0 u_init_0, 0))
  /\ (1 <= max_iter ->
      solve_to_convergence norm cfg st z z_init_0 u_init_0 eps (Some max_iter)
        = Some (Raise AttributeError))
  /\ solve_to_convergence norm cfg st z z_init_0 u_init_0 eps None
       = Some (Raise AttributeError).
Proof.
  intros Hd _ _ _ _.
  assert (Hit : iteration cfg z (set_guess st z_init_0 u_init_0) = Raise AttributeError).
  { unfold iteration, update_constraint_matrix_data_.
    cbn [osqp_A_data construct_constraint_vecs_ update_objective_ set_bounds set_objective
         set_guess]. now rewrite Hd. }
  unfold solve_to_convergence. split; [|split].
  - cbn [loop]. now rewrite andb_false_r.
  - intros Hmax. destruct max_iter as [|m]; [lia|].
    cbn [loop Nat.eqb orb andb]. replace (Nat.ltb 0 (S m)) with true by reflexivity.
    now rewrite Hit.
  - cbn [loop Nat.eqb orb andb]. replace (Nat.ltb 0 1) with true by reflexivity.
    now rewrite Hit.
Qed.

(** The residual of a linearization has one entry per state. *)
Definition residual_ok (cfg : config) : Prop :=
  forall z z_next u,
    length (snd (get_linearization (dynamics_object cfg) z z_next u)) = nx cfg.

(** A call of [solve_to_convergence] that numpy and the solver accept: at
    least one state, input, output and stage; cost matrices, output matrix,
    bounds and current state of matching sizes; a linearization that
    returns [A] ([nx] by [nx]), [B] ([nx] by [nu]) and [r] ([nx]); a solver
    that returns one entry per variable; a guess of [N + 1] states and [N]
    inputs, given to an object on which [construct_controller] has run.
    With other shapes an array operation of the first iteration raises. *)
Record call_ok (cfg : config) (st : state) (z : vec) (z_init_0 u_init_0 : matrix)
    : Prop := {
  ok_nx : 0 < nx cfg;
  ok_nu : 0 < nu cfg;
  ok_ns : 0 < ns cfg;
  ok_N : 0 < N cfg;
  ok_costs : MpcObjectiveFacts.cost_shapes cfg;
  ok_umin : length (umin cfg) = nu cfg;
  ok_umax : length (umax cfg) = nu cfg;
  ok_xmin : length (xmin cfg) = ns cfg;
  ok_xmax : length (xmax cfg) = ns cfg;
  ok_z : length z = nx cfg;
  ok_lin : dyn_ok cfg;
  ok_res : residual_ok cfg;
  ok_sol : solver_ok cfg;
  ok_constructed : loop_inv cfg (set_guess st z_init_0 u_init_0)
}.

Lemma float_le_not_gt (x eps : pyfloat) : float_le x eps = true -> float_gt x eps = false.
Proof.
  destruct x as [q| | |], eps as [e| | |]; cbn [float_le float_gt]; intros H;
    try reflexivity; try discriminate H.
  now rewrite H.
Qed.

Lemma nth_madd (k w : nat) (M1 M2 : matrix) (t i : nat) :
  length M1 = k -> rows_of w M1 -> length M2 = k -> rows_of w M2 ->
  t < k -> i < w ->
  nth i (nth t (madd M1 M2) []) 0%Z = (nth i (nth t M1 []) 0 + nth i (nth t M2 []) 0)%Z.
Proof.
  intros L1 R1 L2 R2 Ht Hi. unfold madd.
  rewrite nth_zip_with with (dx := []) (dy := []) by lia.
  unfold rows_of in R1, R2. rewrite Forall_forall in R1, R2.
  apply nth_vadd.
  - rewrite (R1 (nth t M1 [])); [exact Hi|]. apply nth_In. lia.
  - rewrite (R2 (nth t M2 [])); [exact Hi|]. apply nth_In. lia.
Qed.

Section Runs.

Variable norm : matrix -> pyfloat.
Variable cfg : config.
Variable st : state.
Variable z : vec.
Variables z_init_0 u_init_0 : matrix.
Hypothesis ok : call_ok cfg st z z_init_0 u_init_0.

Local Abbreviation s0 := (set_guess st z_init_0 u_init_0).
Local Abbreviation guess j := (guess_after cfg z (set_guess st z_init_0 u_init_0) j).
Local Abbreviation n_var := ((N cfg + 1) * nx cfg + N cfg * nu cfg).

Lemma guess_inv (j : nat) : loop_inv cfg (guess j).
Proof.
  apply (guess_after_inv (ok_nx ok) (ok_nu ok) (ok_N ok) (MpcObjectiveFacts.cs_C_rows (ok_costs ok))
           (ok_lin ok) (ok_sol ok) z j (ok_constructed ok)).
Qed.

Lemma guess_facts (j : nat) :
  iteration cfg z (guess j) = Ok (guess (S j))
  /\ cur_z (guess (S j)) = madd (cur_z (guess j)) (T (dz_of cfg (res_x (guess (S j)))))
  /\ cur_u (guess (S j)) = madd (cur_u (guess j)) (T (du_of cfg (res_x (guess (S j)))))
  /\ (exists p, prob (guess (S j)) = Some p /\ res_x (guess (S j)) = solve cfg p)
  /\ x_iter (guess (S j)) = x_iter (guess j) ++ [T (cur_z (guess (S j)))]
  /\ u_iter (guess (S j)) = u_iter (guess j) ++ [T (cur_u (guess (S j)))].
Proof.
  rewrite guess_after_S.
  apply (@next_facts cfg (ok_nx ok) (ok_nu ok) (ok_N ok) (MpcObjectiveFacts.cs_C_rows (ok_costs ok))
           (ok_lin ok) (ok_sol ok) z (guess j) (guess_inv j)).
Qed.

(** Every iteration runs on arguments of the shapes
    [construct_constraint_vecs_] needs. *)
Lemma every_iteration_well_shaped (j : nat) :
  guess_shapes cfg z (cur_z (guess j)) (cur_u (guess j))
    (first_residuals cfg (cur_z (guess j)) (cur_u (guess j))).
Proof.
  pose proof (guess_inv j) as Hinv.
  constructor; try apply ok; try apply Hinv.
  - unfold first_residuals. rewrite !length_map.
    apply length_stages; apply Hinv.
  - apply Forall_forall. intros r Hr. unfold first_residuals in Hr.
    apply in_map_iff in Hr as (l & <- & Hl).
    apply in_map_iff in Hl as (s & <- & _). apply (ok_res ok).
Qed.

Lemma length_res_x (j : nat) : length (res_x (guess (S j))) = n_var.
Proof.
  destruct (guess_facts j) as (_ & _ & _ & (p & _ & ->) & _). apply (ok_sol ok).
Qed.

(** The new guess, entry by entry. *)
Lemma step_entries (j : nat) :
  (forall t i, t < N cfg + 1 -> i < nx cfg ->
     nth i (nth t (cur_z (guess (S j))) []) 0%Z
       = (nth i (nth t (cur_z (guess j)) []) 0
          + nth (t * nx cfg + i) (res_x (guess (S j))) 0)%Z)
  /\ (forall t i, t < N cfg -> i < nu cfg ->
        nth i (nth t (cur_u (guess (S j))) []) 0%Z
          = (nth i (nth t (cur_u (guess j)) []) 0
             + nth ((N cfg + 1) * nx cfg + t * nu cfg + i) (res_x (guess (S j))) 0)%Z).
Proof.
  destruct (guess_facts j) as (_ & Hz & Hu & _).
  pose proof (length_res_x j) as Lx.
  pose proof (guess_inv j) as Hinv.
  pose proof (ok_nx ok) as Hnx. pose proof (ok_nu ok) as Hnu.
  set (x := res_x (guess (S j))) in *.
  assert (Tz : T (dz_of cfg x)
               = map (fun t => slice (t * nx cfg) ((t + 1) * nx cfg) x) (seq 0 (N cfg + 1))).
  { unfold dz_of. rewrite T_reshape_F by (auto; rewrite length_firstn; nia).
    apply map_ext_in. intros t Ht. apply in_seq in Ht. apply slice_firstn. nia. }
  assert (Tu : T (du_of cfg x)
               = map (fun t => slice ((N cfg + 1) * nx cfg + t * nu cfg)
                                     ((N cfg + 1) * nx cfg + (t + 1) * nu cfg) x)
                     (seq 0 (N cfg))).
  { unfold du_of. rewrite T_reshape_F by (auto; rewrite length_skipn; nia).
    apply map_ext_in. intros t Ht. apply slice_skipn. }
  split; intros t i Ht Hi.
  - rewrite Hz.
    destruct (@shape_T_reshape (nx cfg) (N cfg + 1) (firstn ((N cfg + 1) * nx cfg) x) Hnx)
      as [Ld Rd].
    fold (dz_of cfg x) in Ld, Rd.
    rewrite (@nth_madd (N cfg + 1) (nx cfg)); auto; try apply Hinv.
    f_equal. rewrite Tz, nth_map_seq by exact Ht. cbn [Nat.add].
    apply nth_slice. nia.
  - rewrite Hu.
    destruct (@shape_T_reshape (nu cfg) (N cfg) (skipn ((N cfg + 1) * nx cfg) x) Hnu)
      as [Ld Rd].
    fold (du_of cfg x) in Ld, Rd.
    rewrite (@nth_madd (N cfg) (nu cfg)); auto; try apply Hinv.
    f_equal. rewrite Tu, nth_map_seq by exact Ht. cbn [Nat.add].
    apply nth_slice. nia.
Qed.

Lemma logs_after (j : nat) :
  x_iter (guess j) = x_iter st ++ map (fun i => T (cur_z (guess i))) (seq 1 j)
  /\ u_iter (guess j) = u_iter st ++ map (fun i => T (cur_u (guess i))) (seq 1 j).
Proof.
  induction j as [|j [IHx IHu]].
  - cbn [seq map]. rewrite !app_nil_r. split; reflexivity.
  - destruct (guess_facts j) as (_ & _ & _ & _ & Hx & Hu).
    rewrite Hx, Hu, IHx, IHu, seq_S, !map_app, <- !app_assoc. split; reflexivity.
Qed.

(** The loop of a call: it returns after [k] iterations, the test let each
    of them run, and it failed when the loop stopped short of [max_iter]. *)
Lemma run (eps : pyfloat) (max_iter : nat) :
  exists k,
    k <= max_iter
    /\ solve_to_convergence norm cfg st z z_init_0 u_init_0 (Some eps) (Some max_iter)
       = Some (Ok (guess k, k))
    /\ (1 <= max_iter -> 1 <= k)
    /\ (forall j, 1 <= j < k -> float_gt (change norm cfg z s0 j) eps = true)
    /\ (1 <= k < max_iter -> float_gt (change norm cfg z s0 k) eps = false).
Proof.
  destruct (@loop_run norm cfg (ok_nx ok) (ok_nu ok) (ok_N ok)
              (MpcObjectiveFacts.cs_C_rows (ok_costs ok)) (ok_lin ok) (ok_sol ok)
              z eps max_iter max_iter
              0 (map (fun r => zeros (length r)) u_init_0) s0 (ok_constructed ok) eq_refl)
    as (k & Hk & Hrun & Hgo & Hstop).
  cbn [Nat.add] in Hrun, Hgo, Hstop.
  exists k. split; [exact Hk|]. split; [exact Hrun|]. split; [|split].
  - intros Hmax. destruct k as [|k]; [|lia].
    specialize (Hstop ltac:(lia)). discriminate Hstop.
  - intros j Hj. specialize (Hgo j ltac:(lia)).
    destruct j as [|j]; [lia|]. unfold keeps_going in Hgo. cbn [Nat.eqb orb] in Hgo.
    unfold change. now replace (S j - 1) with j by lia.
  - intros Hlt. specialize (Hstop ltac:(lia)).
    destruct k as [|k]; [lia|]. unfold keeps_going in Hstop. cbn [Nat.eqb orb] in Hstop.
    unfold change. now replace (S k - 1) with k by lia.
Qed.


(** C7. [solve_to_convergence] returns the guess reached after the [k]
    iterations it performs ([k <= max_iter], and [1 <= k] when
    [1 <= max_iter]), starting from the guess it is given.  Iteration [j]
    turns guess [j] into guess [j + 1], and the new guess is the old guess
    plus the step the solver returned for that iteration:
    [cur_z = z_init + dz.T] and [cur_u = u_init + du.T], where [dz] and [du]
    are the two parts of the solution [res.x] of that iteration's solve;
    entry by entry, state [i] of stage [t] grows by [res.x[t * nx + i]] and
    input [i] of stage [t] by [res.x[(N + 1) * nx + t * nu + i]]. *)
Theorem guess_updated_additively (eps : pyfloat) (max_iter : nat) :
  exists k,
    solve_to_convergence norm cfg st z z_init_0 u_init_0 (Some eps) (Some max_iter)
      = Some (Ok (guess k, k))
    /\ k <= max_iter /\ (1 <= max_iter -> 1 <= k)
    /\ cur_z (guess 0) = z_init_0 /\ cur_u (guess 0) = u_init_0
    /\ forall j,
         iteration cfg z (guess j) = Ok (guess (S j))
         /\ (exists p, prob (guess (S j)) = Some p /\ res_x (guess (S j)) = solve cfg p)
         /\ cur_z (guess (S j))
              = madd (cur_z (guess j)) (T (dz_of cfg (res_x (guess (S j)))))
         /\ cur_u (guess (S j))
              = madd (cur_u (guess j)) (T (du_of cfg (res_x (guess (S j)))))
         /\ (forall t i, t < N cfg + 1 -> i < nx cfg ->
               nth i (nth t (cur_z (guess (S j))) []) 0%Z
                 = (nth i (nth t (cur_z (guess j)) []) 0
                    + nth (t * nx cfg + i) (res_x (guess (S j))) 0)%Z)
         /\ (forall t i, t < N cfg -> i < nu cfg ->
               nth i (nth t (cur_u (guess (S j))) []) 0%Z
                 = (nth i (nth t (cur_u (guess j)) []) 0
                    + nth ((N cfg + 1) * nx cfg + t * nu cfg + i) (res_x (guess (S j))) 0)%Z).
Proof.
  destruct (run eps max_iter) as (k & Hk & Hrun & Hk1 & _).
  exists k. split; [exact Hrun|]. split; [exact Hk|]. split; [exact Hk1|].
  split; [reflexivity|]. split; [reflexivity|].
  intros j. destruct (guess_facts j) as (E & Hz & Hu & Hp & _).
  destruct (step_entries j) as (Ez & Eu).
  split; [exact E|]. split; [exact Hp|]. split; [exact Hz|]. split; [exact Hu|].
  split; [exact Ez|exact Eu].
Qed.

(** X7. The logs record the run: on a constructed controller and arguments
    of the right shapes, a call that makes [k] iterations appends the
    transposed guesses [1 .. k] to [x_iter] and [u_iter] (entries of
    earlier calls stay), so after at least one iteration the last entries
    are the transposes of what [get_state_prediction] and
    [get_control_prediction] return. *)
Theorem logs_follow_the_guesses (eps : pyfloat) (max_iter : nat) :
  exists k st',
    solve_to_convergence norm cfg st z z_init_0 u_init_0 (Some eps) (Some max_iter)
      = Some (Ok (st', k))
    /\ st' = guess k
    /\ x_iter st' = x_iter st ++ map (fun i => T (cur_z (guess i))) (seq 1 k)
    /\ u_iter st' = u_iter st ++ map (fun i => T (cur_u (guess i))) (seq 1 k)
    /\ (0 < k ->
        last (x_iter st') [] = T (get_state_prediction st')
        /\ last (u_iter st') [] = T (get_control_prediction st')).
Proof.
  destruct (run eps max_iter) as (k & _ & Hrun & _).
  exists k, (guess k). split; [exact Hrun|]. split; [reflexivity|].
  destruct (logs_after k) as [Hx Hu]. split; [exact Hx|]. split; [exact Hu|].
  intros Hk. destruct k as [|k]; [lia|].
  destruct (guess_facts k) as (_ & _ & _ & _ & Hx' & Hu').
  rewrite Hx', Hu', !last_last. split; reflexivity.
Qed.

(** X8. A zero step is a fixed point: on a constructed controller and
    arguments of the right shapes, when the first solution is the zero
    vector and the norm of a zero array is within [eps], the loop stops
    after that iteration and the guess is the one the call was given. *)
Theorem zero_step_stops_the_loop (eps : pyfloat) (max_iter : nat) :
  1 <= max_iter ->
  (forall M, all_zero M -> float_le (norm M) eps = true) ->
  res_x (guess 1) = zeros ((N cfg + 1) * nx cfg + N cfg * nu cfg) ->
  solve_to_convergence norm cfg st z z_init_0 u_init_0 (Some eps) (Some max_iter)
    = Some (Ok (guess 1, 1))
  /\ get_state_prediction (guess 1) = z_init_0
  /\ get_control_prediction (guess 1) = u_init_0.
Proof.
  intros Hmax Hnorm Hres.
  destruct (guess_facts 0) as (_ & Hz & Hu & _). rewrite Hres in Hz, Hu.
  change (cur_z (guess 0)) with z_init_0 in Hz.
  change (cur_u (guess 0)) with u_init_0 in Hu.
  pose proof (inv_z_len (ok_constructed ok)) as Lz.
  pose proof (inv_z_rows (ok_constructed ok)) as Rz.
  pose proof (inv_u_len (ok_constructed ok)) as Lu.
  pose proof (inv_u_rows (ok_constructed ok)) as Ru.
  cbn [cur_z cur_u set_guess] in Lz, Rz, Lu, Ru.
  assert (Ez : cur_z (guess 1) = z_init_0).
  { rewrite Hz, (@T_dz_zeros cfg (ok_nx ok)), <- Lz. apply madd_zeros, Rz. }
  assert (Eu : cur_u (guess 1) = u_init_0).
  { rewrite Hu, (@T_du_zeros cfg (ok_nu ok)), <- Lu. apply madd_zeros, Ru. }
  split; [|split; assumption].
  destruct (run eps max_iter) as (k & Hk & Hrun & Hk1 & Hgo & Hstop).
  specialize (Hk1 Hmax).
  assert (Hself : float_gt (change norm cfg z s0 1) eps = false).
  { apply float_le_not_gt. unfold change. cbn [Nat.sub].
    change (cur_u (guess 0)) with u_init_0.
    rewrite Eu. apply Hnorm, msub_self_zero. }
  destruct k as [|[|k]].
  - lia.
  - exact Hrun.
  - specialize (Hgo 1 ltac:(lia)). congruence.
Qed.

End Runs.


End MpcRunFacts.

(** ** The small controller: workspace, logs and fixed point *)

Module MpcRunWitnesses.
Import Np NonlinearMPC MpcVecFacts MpcDataFacts MpcIterationFacts MpcLoopFacts MpcExample
  MpcRunExample MpcSolveFacts MpcRunFacts.

Definition started : state := set_guess constructed_state z_guess u_guess.

Definition setup_workspace : Osqp :=
  match prob started with
  | Some p => p
  | None => {| problem := {| setup_P := []; setup_q := []; setup_A := [];
                             setup_l := []; setup_u := [] |};
               updates := [] |}
  end.

Definition ones_data : vec :=
  match osqp_A_data started with Some d => d | None => [] end.

Lemma solve_mpc_splits_solution_witness :
  exists st' dz du,
    solve_mpc_ cfg started = Ok (st', dz, du)
    /\ flatten_F dz ++ flatten_F du = [1; 0; 1; 0; 1; 0; 1; 1]%Z
    /\ dz = [[1; 1; 1]; [0; 0; 0]]%Z /\ du = [[1; 1]]%Z.
Proof.
  destruct (proj1 (@solve_mpc_splits_solution cfg started setup_workspace ones_data
                     ltac:(cbv; lia) ltac:(cbv; lia) eq_refl eq_refl) eq_refl)
    as (st' & dz & du & E & Hflat & _).
  exists st', dz, du. split; [exact E|]. split; [exact Hflat|].
  vm_compute in E. injection E as _ <- <-. split; reflexivity.
Defined.

Definition after_two : state :=
  match iterates cfg z_now 2 started with Ok s => s | Raise _ => started end.

Lemma iterations_only_update_the_workspace_witness :
  exists ups,
    length ups = 2
    /\ prob after_two
       = Some {| problem := problem setup_workspace;
                 updates := updates setup_workspace ++ ups |}
    /\ osqp_P after_two = osqp_P started
    /\ osqp_A after_two = osqp_A started.
Proof.
  destruct (@iterations_only_update_the_workspace cfg z_now 2 started after_two
              setup_workspace ltac:(vm_compute; reflexivity) eq_refl)
    as (ups & H1 & H2 & H3 & H4 & _).
  exists ups. auto.
Defined.

Lemma unconstructed_controller_raises_witness :
  solve_to_convergence example_norm cfg init z_now z_guess u_guess None (Some 3)
    = Some (Raise AttributeError).
Proof.
  apply (proj1 (proj2 (@unconstructed_controller_raises example_norm cfg init z_now
                         z_guess u_guess None 3 eq_refl ltac:(cbv; lia) example_dyn_ok
                         MpcObjectiveExample.example_costs
                         ltac:(constructor; try reflexivity; try (cbv; lia);
                               repeat constructor)))).
  lia.
Defined.

(** The small controller, constructed, called on its guess. *)
Lemma example_call_ok : call_ok cfg constructed_state z_now z_guess u_guess.
Proof.
  constructor; try reflexivity; try (cbv; lia).
  - exact MpcObjectiveExample.example_costs.
  - exact example_dyn_ok.
  - exact example_solver_ok.
  - exact example_inv.
Defined.

(** The number of iterations a call reports. *)
Definition iterations_of (r : option (result (state * nat))) : nat :=
  match r with
  | Some (Ok (_, k)) => k
  | _ => 0
  end.

(** The run of the small controller with [max_iter = 5]. *)
Lemma example_run :
  solve_to_convergence example_norm cfg constructed_state z_now z_guess u_guess
      (Some (Num (1 # 1000))) (Some 5)
    = Some (Ok (guess_after cfg z_now started 3, 3)).
Proof. vm_compute. reflexivity. Defined.




Lemma guess_updated_additively_witness :
  solve_to_convergence example_norm cfg constructed_state z_now z_guess u_guess
      (Some (Num (1 # 1000))) (Some 5)
    = Some (Ok (guess_after cfg z_now started 3, 3))
  /\ cur_z (guess_after cfg z_now started 1)
     = madd z_guess (T (dz_of cfg (res_x (guess_after cfg z_now started 1))))
  /\ cur_u (guess_after cfg z_now started 1)
     = madd u_guess (T (du_of cfg (res_x (guess_after cfg z_now started 1))))
  /\ cur_u (guess_after cfg z_now started 3)
     = madd (cur_u (guess_after cfg z_now started 2))
            (T (du_of cfg (res_x (guess_after cfg z_now started 3))))
  /\ nth 0 (nth 1 (cur_z (guess_after cfg z_now started 1)) []) 0%Z
     = (nth 0 (nth 1 z_guess []) 0
        + nth (1 * 2 + 0) (res_x (guess_after cfg z_now started 1)) 0)%Z
  /\ nth 0 (nth 1 (cur_u (guess_after cfg z_now started 2)) []) 0%Z
     = (nth 0 (nth 1 (cur_u (guess_after cfg z_now started 1)) []) 0
        + nth ((2 + 1) * 2 + 1 * 1 + 0) (res_x (guess_after cfg z_now started 2)) 0)%Z.
Proof.
  destruct (@guess_updated_additively example_norm cfg constructed_state z_now
              z_guess u_guess example_call_ok (Num (1 # 1000)) 5)
    as (k & Hrun & _ & _ & _ & _ & Hstep).
  assert (Hk : 3 = k).
  { pose proof (f_equal iterations_of Hrun) as E. rewrite example_run in E. exact E. }
  destruct Hk.
  destruct (Hstep 0) as (_ & _ & Hz & Hu & Ez & _).
  destruct (Hstep 1) as (_ & _ & _ & _ & _ & Eu1).
  destruct (Hstep 2) as (_ & _ & _ & Hu2 & _).
  split; [exact Hrun|]. split; [exact Hz|]. split; [exact Hu|]. split; [exact Hu2|].
  split; [apply (Ez 1 0); cbv; lia|apply (Eu1 1 0); cbv; lia].
Defined.

Lemma logs_follow_the_guesses_witness :
  exists k st',
    solve_to_convergence example_norm cfg constructed_state z_now z_guess u_guess
        (Some (Num (1 # 1000))) (Some 5) = Some (Ok (st', k))
    /\ (0 < k -> last (x_iter st') [] = T (get_state_prediction st')).
Proof.
  destruct (@logs_follow_the_guesses example_norm cfg constructed_state z_now z_guess
              u_guess example_call_ok (Num (1 # 1000)) 5)
    as (k & st' & H1 & _ & _ & _ & H5).
  exists k, st'. split; [exact H1|]. intros Hk. apply (H5 Hk).
Defined.

(** The same controller with a solver that answers with the zero step. *)
Definition still_cfg : config :=
  {| dynamics_object := dyn; N := 2;
     umin := [-5]%Z; umax := [5]%Z; xmin := [-10]%Z; xmax := [10]%Z;
     Q := [[1]]%Z; R := [[1]]%Z; QN := [[1]]%Z;
     xr := [3]%Z; terminal_constraint := true;
     solve := fun _ => zeros 8 |}.

Lemma still_call_ok :
  call_ok still_cfg (construct_controller still_cfg init z_guess u_guess)
          z_now z_guess u_guess.
Proof.
  constructor; try reflexivity; try (cbv; lia).
  - constructor; try reflexivity; repeat constructor.
  - intros z zn u. simpl. repeat constructor.
  - apply MpcConvergence.construct_controller_inv; try reflexivity; repeat constructor.
Defined.

Lemma example_norm_zero (M : matrix) :
  all_zero M -> float_le (example_norm M) (Num (1 # 1000)) = true.
Proof.
  intros H. unfold example_norm.
  assert (E : fold_right Z.add 0%Z (map (fun v => (v * v)%Z) (concat M)) = 0%Z).
  { induction H as [|r M Hr _ IH]; [reflexivity|].
    cbn [concat]. rewrite map_app, fold_right_app, IH.
    clear IH. induction Hr as [|e r He _ IHr]; [reflexivity|].
    subst e. cbn [map fold_right app]. rewrite IHr. reflexivity. }
  rewrite E. reflexivity.
Defined.

Lemma zero_step_stops_the_loop_witness :
  solve_to_convergence example_norm still_cfg
      (construct_controller still_cfg init z_guess u_guess) z_now z_guess u_guess
      (Some (Num (1 # 1000))) (Some 5)
    = Some (Ok (guess_after still_cfg z_now
                  (set_guess (construct_controller still_cfg init z_guess u_guess)
                             z_guess u_guess) 1, 1)).
Proof.
  apply (@zero_step_stops_the_loop example_norm still_cfg
           (construct_controller still_cfg init z_guess u_guess) z_now z_guess u_guess
           still_call_ok
           (Num (1 # 1000)) 5 ltac:(lia) example_norm_zero ltac:(vm_compute; reflexivity)).
Defined.

End MpcRunWitnesses.

(** ** BilinearEdmd.process: the samples are stacked trajectory by trajectory *)

Module EdmdProcessFacts.
Import Np NpFacts BilinearEdmd BilinearEdmdProcess EdmdFacts MpcVecFacts MpcDataFacts MpcQpFacts.












Section Process.

Variable base_lift : matrix -> matrix -> matrix.
Variable differentiate_vec : matrix -> list rational -> matrix.
Variable std_fit : Standardizer -> matrix -> Standardizer.
Variable self : BilinearEdmd.t.
Variables x u : tensor3.
Variable t : list (list rational).
Variable T1 : nat.

Local Abbreviation z := (plain_lift base_lift self x u).
Local Abbreviation z_dot :=
  (map (fun ii => differentiate_vec (nth ii z []) (removelast (nth ii t [])))
       (seq 0 (n_traj self))).
Local Abbreviation width := ((m self + 1) * n_lift self).

Hypothesis x_width : shape2 x = n self.
Hypothesis trajs : 0 < n_traj self.
Hypothesis steps : 0 < T1.
Hypothesis lifted : 0 < n_lift self.
Hypothesis z_shape : forall ii, ii < n_traj self ->
  length (nth ii z []) = T1
  /\ Forall (fun r => length r = n_lift self) (nth ii z []).
Hypothesis u_trajs : length u = n_traj self.
Hypothesis u_shape : forall ii, ii < n_traj self ->
  length (nth ii u []) = T1
  /\ Forall (fun r => m self <= length r) (nth ii u []).
Hypothesis t_trajs : length t = n_traj self.
Hypothesis t_stamps : length (nth 0 t []) = T1 + 1.
Hypothesis z_dot_shape : forall ii, ii < n_traj self ->
  length (nth ii z_dot []) = T1
  /\ Forall (fun r => length r = n_lift self) (nth ii z_dot []).





End Process.

End EdmdProcessFacts.

Module EdmdProcessExample.
Import Np BilinearEdmd BilinearEdmdProcess EdmdFacts EdmdProcessFacts.



End EdmdProcessExample.

(** ** BilinearEdmd: the blocks of the model and the reduction *)

Module EdmdModelFacts.
Import Np NpFacts BilinearEdmd EdmdFacts MpcVecFacts.

Lemma hcat2_map (f g : vec -> vec) (M : matrix) :
  hcat2 (map f M) (map g M) = map (fun r => f r ++ g r) M.
Proof. induction M as [|r M IH]; [reflexivity|]. cbn [map hcat2]. now rewrite IH. Qed.

Lemma slice_join {X : Type} (a b c : nat) (v : list X) :
  a <= b -> b <= c -> slice a b v ++ slice b c v = slice a c v.
Proof.
  intros Hab Hbc. unfold slice.
  replace (c - a) with ((b - a) + (c - b)) by lia.
  replace (skipn b v) with (skipn (b - a) (skipn a v))
    by (rewrite skipn_skipn; f_equal; lia).
  symmetry. apply MpcSolveFacts.firstn_add.
Qed.

Lemma cols_join (a b c : nat) (M : matrix) :
  a <= b -> b <= c -> hcat2 (cols a b M) (cols b c M) = cols a c M.
Proof.
  intros Hab Hbc. unfold cols. rewrite hcat2_map.
  apply map_ext. intros r. now apply slice_join.
Qed.

Lemma cols_all (w : nat) (M : matrix) : rows_of w M -> cols 0 w M = M.
Proof.
  intros H. unfold cols. rewrite <- (map_id M) at 2.
  apply map_ext_in. intros r Hr. unfold rows_of in H. rewrite Forall_forall in H.
  unfold slice. rewrite Nat.sub_0_r. cbn [skipn]. apply firstn_all2. rewrite (H r Hr). lia.
Qed.

(** The blocks cut out of the coefficients, put side by side again. *)
Lemma blocks_join (nl k : nat) (coefs : matrix) :
  fold_left hcat2
    (map (fun ii => cols (nl * (ii + 1)) (nl * (ii + 2)) coefs) (seq 0 k))
    (cols 0 nl coefs)
  = cols 0 (nl * (k + 1)) coefs.
Proof.
  induction k as [|k IH].
  - cbn [seq map fold_left]. f_equal. lia.
  - rewrite seq_S, map_app, fold_left_app, IH. cbn [map fold_left Nat.add].
    replace (nl * (k + 2)) with (nl * (S k + 1)) by lia.
    apply cols_join; nia.
Qed.

(** X13. The learned rows of [A] and of the [m] matrices a call to [fit]
    appends to [B], side by side, are the first [(m + 1) * n_lift] columns
    of the scaled coefficients, all of them when the coefficient matrix
    has that many columns.  With [override_kinematics] the learned rows
    are the ones below the [n/2 + first_obs_const] kinematic rows, and the
    regression sees [y] without its first [n/2 + first_obs_const]
    columns. *)
Theorem fit_blocks_partition_coefficients (self self' : t) (X y : matrix)
    (use_cv ok foc : bool) :
  fit self X y use_cv ok foc = Ok self' ->
  let k0 := if ok then n self / 2 + Nat.b2n foc else 0 in
  let y' := if ok then map (skipn k0) y else y in
  exists raw a new,
    regress self X y' use_cv = Ok raw
    /\ A self' = Some a
    /\ B self' = B self ++ new
    /\ length new = m self
    /\ fold_left hcat2 (map (skipn k0) new) (skipn k0 a)
       = cols 0 (n_lift self * (m self + 1)) (scale_coefs self raw)
    /\ (rows_of (n_lift self * (m self + 1)) (scale_coefs self raw) ->
        fold_left hcat2 (map (skipn k0) new) (skipn k0 a) = scale_coefs self raw).
Proof.
  intros Hfit k0 y'.
  assert (Hraw : exists raw, regress self X y' use_cv = Ok raw
                   /\ self' = assemble self (scale_coefs self raw) ok foc).
  { unfold fit in Hfit. cbv zeta in Hfit. subst y' k0.
    destruct ok; (destruct (regress self X _ use_cv) as [raw|e]; [|discriminate]);
      cbn [bind] in Hfit; exists raw; (split; [reflexivity|]); congruence. }
  destruct Hraw as (raw & Er & ->).
  set (coefs := scale_coefs self raw).
  assert (Hjoin : forall a new,
            skipn k0 a = cols 0 (n_lift self) coefs ->
            map (skipn k0) new
              = map (fun ii => cols (n_lift self * (ii + 1)) (n_lift self * (ii + 2)) coefs)
                    (seq 0 (m self)) ->
            fold_left hcat2 (map (skipn k0) new) (skipn k0 a)
              = cols 0 (n_lift self * (m self + 1)) coefs
            /\ (rows_of (n_lift self * (m self + 1)) coefs ->
                fold_left hcat2 (map (skipn k0) new) (skipn k0 a) = coefs)).
  { intros a new -> ->. rewrite blocks_join. split; [reflexivity|]. apply cols_all. }
  exists raw. destruct ok.
  - eexists _, _. split; [exact Er|].
    split; [unfold assemble; cbn [A set_A_B]; reflexivity|].
    split; [apply assemble_B_override|].
    split; [now rewrite length_map, length_seq|].
    apply Hjoin.
    + subst k0. destruct foc; cbn [Nat.b2n].
      * rewrite app_assoc.
        rewrite skipn_app, skipn_all2
          by (rewrite length_app, length_zeros2, length_kin_dyn; lia).
        rewrite length_app, length_zeros2, length_kin_dyn.
        replace (n self / 2 + 1 - (1 + n self / 2)) with 0 by lia. reflexivity.
      * rewrite skipn_app, skipn_all2 by (rewrite length_kin_dyn; lia).
        rewrite length_kin_dyn.
        replace (n self / 2 + 0 - n self / 2) with 0 by lia. reflexivity.
    + rewrite map_map. apply map_ext. intros ii.
      rewrite skipn_app, skipn_all2 by (rewrite length_zeros2; lia).
      rewrite length_zeros2, Nat.sub_diag. reflexivity.
  - eexists _, _. split; [exact Er|].
    split; [unfold assemble; cbn [A set_A_B]; reflexivity|].
    split; [unfold assemble; cbn [B set_A_B]; apply fold_left_snoc|].
    split; [now rewrite length_map, length_seq|].
    apply Hjoin; subst k0; cbn [skipn]; [reflexivity|].
    rewrite map_map. apply map_ext. reflexivity.
Qed.


(** *** [reduce_mdl] *)

Lemma index_rows_ok (idx : list nat) (M rows : matrix) :
  index_rows idx M = Ok rows -> rows = take_rows idx M.
Proof. unfold index_rows. destruct (forallb _ idx); [|discriminate]. congruence. Qed.

Lemma index_cols_ok (idx : list nat) (M res : matrix) :
  index_cols idx M = Ok res -> res = take_cols idx M.
Proof. unfold index_cols. destruct (forallb _ idx); [|discriminate]. congruence. Qed.

(** What a property of the index set needs to survive the loop. *)
Lemma in_use_loop_preserves (P : list nat -> Prop) (a : matrix) (b : list matrix) (m : nat) :
  (forall iu iu', P iu -> expand_in_use a b m iu = Ok iu' -> P iu') ->
  forall (fuel n_obs_used : nat) (iu r : list nat),
    in_use_loop fuel a b m n_obs_used iu = Some (Ok r) -> P iu -> P r.
Proof.
  intros Hstep. induction fuel as [|fuel IH]; intros n0 iu r Hrun HP; cbn [in_use_loop] in Hrun.
  - destruct (Nat.ltb n0 (length iu)); [discriminate|]. now injection Hrun as <-.
  - destruct (Nat.ltb n0 (length iu)); [|now injection Hrun as <-].
    destruct (expand_in_use a b m iu) as [iu'|e] eqn:E; [|discriminate].
    eapply IH; [exact Hrun|]. eapply Hstep; eauto.
Qed.

(** One pass leaves a sorted list. *)
Lemma expand_in_use_sorted (a : matrix) (b : list matrix) (m : nat) (iu iu' : list nat) :
  expand_in_use a b m iu = Ok iu' -> StronglySorted lt iu'.
Proof.
  unfold expand_in_use, bind.
  destruct (index_rows iu a) as [rows|e]; [|discriminate].
  assert (H0 : forall l, Ok (unique (nonzero_cols rows)) = Ok l -> StronglySorted lt l)
    by (intros l Hl; injection Hl as <-; apply unique_sorted).
  revert H0. generalize (Ok (A := list nat) (unique (nonzero_cols rows))) as acc0.
  generalize (seq 0 m) as iis.
  induction iis as [|ii iis IH]; intros acc0 Hacc H; simpl in H.
  - now apply Hacc.
  - eapply IH; [|exact H]. intros l0 Hl0.
    destruct acc0 as [l|e]; [|discriminate].
    destruct (list_get b ii) as [bi|]; [|discriminate].
    destruct (index_rows l bi) as [rows_b|]; [|discriminate].
    injection Hl0 as <-. apply unique_sorted.
Qed.

Lemma reduce_B_spec (iu : list nat) (k : nat) :
  forall b b',
    reduce_B iu k b = Ok b' ->
    k <= length b
    /\ length b' = length b
    /\ (forall ii, ii < k ->
          nth ii b' [] = take_cols iu (take_rows iu (nth ii b [])))
    /\ skipn k b' = skipn k b.
Proof.
  induction k as [|k IH]; intros b b' H; cbn [reduce_B] in H.
  - injection H as <-. repeat split; try lia.
  - destruct b as [|bi rest]; [discriminate|]. unfold bind in H.
    destruct (index_rows iu bi) as [r|] eqn:Er; [|discriminate].
    destruct (index_cols iu r) as [rc|] eqn:Erc; [|discriminate].
    destruct (reduce_B iu k rest) as [rest'|] eqn:Erest; [|discriminate].
    injection H as <-. destruct (IH _ _ Erest) as (Hk & Hl & Hn & Hs).
    apply index_rows_ok in Er. apply index_cols_ok in Erc. subst r rc.
    cbn [length skipn]. repeat split; try lia; [|exact Hs].
    intros [|ii] Hii; [reflexivity|]. cbn [nth]. apply Hn. lia.
Qed.

Lemma take_shape (iu : list nat) (M : matrix) :
  length (take_cols iu (take_rows iu M)) = length iu
  /\ rows_of (length iu) (take_cols iu (take_rows iu M)).
Proof.
  unfold take_cols, take_rows. split; [now rewrite !length_map|].
  apply Forall_forall. intros r Hr. apply in_map_iff in Hr as (r0 & <- & _).
  apply length_map.
Qed.

Lemma take_entry (iu : list nat) (M : matrix) (i j : nat) :
  i < length iu -> j < length iu ->
  nth j (nth i (take_cols iu (take_rows iu M)) []) 0%Z
    = nth (nth j iu 0) (nth (nth i iu 0) M []) 0%Z.
Proof.
  intros Hi Hj. unfold take_cols, take_rows.
  rewrite nth_map_lt with (dx := []) by (rewrite length_map; exact Hi).
  rewrite nth_map_lt with (dx := 0) by exact Hj.
  now rewrite nth_map_lt with (dx := 0) by exact Hi.
Qed.

(** X15. What [reduce_mdl] stores when it returns: [obs_in_use] is sorted and
    free of duplicates and [n_lift_reduced] is its length; [A] and
    [B[0 .. m-1]] are restricted to the rows and columns in [obs_in_use]
    (entry [(i, j)] is the old entry at the [i]-th and [j]-th index), [C]
    to the columns in [obs_in_use]; [B] keeps its length and the entries
    of [B] from position [m] on are left as they were. *)
Theorem reduce_mdl_restricts_model (self self' : t) (a c : matrix) :
  A self = Some a -> C self = Some c ->
  reduce_mdl self = Some (Ok self') ->
  exists in_use a',
    obs_in_use self' = Some in_use
    /\ n_lift_reduced self' = Some (length in_use)
    /\ StronglySorted lt in_use /\ NoDup in_use
    /\ A self' = Some a'
    /\ a' = take_cols in_use (take_rows in_use a)
    /\ length a' = length in_use /\ rows_of (length in_use) a'
    /\ (forall i j, i < length in_use -> j < length in_use ->
          nth j (nth i a' []) 0%Z = nth (nth j in_use 0) (nth (nth i in_use 0) a []) 0%Z)
    /\ C self' = Some (take_cols in_use c)
    /\ length (B self') = length (B self)
    /\ m self <= length (B self)
    /\ (forall ii, ii < m self ->
          nth ii (B self') [] = take_cols in_use (take_rows in_use (nth ii (B self) [])))
    /\ skipn (m self) (B self') = skipn (m self) (B self).
Proof.
  intros HA HC Hred. unfold reduce_mdl, reduce_mdl_fuel in Hred. rewrite HA, HC in Hred.
  destruct (in_use_loop _ a (B self) (m self) 0 (unique (nonzero_cols c)))
    as [[iu|e]|] eqn:Eloop; try discriminate.
  assert (Hsorted : StronglySorted lt iu).
  { apply (@in_use_loop_preserves (StronglySorted lt) a (B self) (m self)
             ltac:(intros ? ? _ H; exact (expand_in_use_sorted _ _ _ _ H)) _ _ _ _ Eloop).
    apply unique_sorted. }
  injection Hred as Hred. unfold bind in Hred.
  destruct (index_rows iu a) as [ar|] eqn:Ear; [|discriminate].
  destruct (index_cols iu ar) as [arc|] eqn:Earc; [|discriminate].
  destruct (reduce_B iu (m self) (B self)) as [b'|] eqn:Eb; [|discriminate].
  destruct (index_cols iu c) as [c'|] eqn:Ec; [|discriminate].
  injection Hred as <-.
  apply index_rows_ok in Ear. apply index_cols_ok in Earc. apply index_cols_ok in Ec.
  subst ar arc c'. destruct (reduce_B_spec _ _ _ Eb) as (Hk & Hl & Hn & Hs).
  exists iu, (take_cols iu (take_rows iu a)).
  cbn [obs_in_use n_lift_reduced A B C m set_reduced].
  repeat split; auto using sorted_NoDup; try apply take_shape.
  intros i j Hi Hj. now apply take_entry.
Qed.

(** A pass of the loop only adds coordinates that are coupled to the ones
    it holds. *)
Lemma expand_in_use_reachable (a : matrix) (b : list matrix) (m : nat) (c : matrix)
    (iu iu' : list nat) :
  (forall i, In i iu -> in_closure a b m c i) ->
  expand_in_use a b m iu = Ok iu' ->
  forall j, In j iu' -> in_closure a b m c j.
Proof.
  intros Hiu. unfold expand_in_use, bind.
  destruct (index_rows iu a) as [rows|e] eqn:Erows; [|discriminate].
  apply index_rows_ok in Erows. subst rows.
  assert (H0 : forall l, Ok (unique (nonzero_cols (take_rows iu a))) = Ok l ->
                 forall j, In j l -> in_closure a b m c j).
  { intros l Hl j Hj. injection Hl as <-. apply (proj1 (in_unique _ _)) in Hj.
    unfold nonzero_cols, take_rows in Hj. apply in_flat_map in Hj as (row & Hrow & Hj).
    apply in_map_iff in Hrow as (i & <- & Hi).
    apply (@closure_A a b m c i j (Hiu i Hi) Hj). }
  assert (Hm : forall ii, In ii (seq 0 m) -> ii < m) by (intros ii H; apply in_seq in H; lia).
  revert H0 Hm. generalize (Ok (A := list nat) (unique (nonzero_cols (take_rows iu a)))) as acc0.
  generalize (seq 0 m) as iis.
  induction iis as [|ii iis IH]; intros acc0 Hacc Hm H; simpl in H.
  - now apply Hacc.
  - eapply IH; [|intros k Hk; apply Hm; now right|exact H]. intros l0 Hl0.
    destruct acc0 as [l|e]; [|discriminate].
    unfold list_get in Hl0.
    destruct (nth_error b ii) as [bi|] eqn:Ebi; [|discriminate].
    destruct (index_rows l bi) as [rows_b|] eqn:Eb; [|discriminate].
    apply index_rows_ok in Eb. subst rows_b. injection Hl0 as <-.
    intros j Hj. apply (proj1 (in_unique _ _)) in Hj.
    apply in_app_or in Hj as [Hj|Hj]; [now apply (Hacc l eq_refl)|].
    unfold nonzero_cols, take_rows in Hj. apply in_flat_map in Hj as (row & Hrow & Hj).
    apply in_map_iff in Hrow as (i & <- & Hi).
    apply (@closure_B a b m c i j ii (Hacc l eq_refl i Hi) (Hm ii (or_introl eq_refl))).
    now rewrite (nth_error_nth b ii [] Ebi).
Qed.

(** X16. [reduce_mdl] never keeps a coordinate that no output depends on: every
    index in [obs_in_use] is reachable from the support of [C] through
    nonzero entries of rows of [A] and of [B[0 .. m-1]]. *)
Theorem reduce_mdl_keeps_only_reachable (self self' : t) (a c : matrix) :
  A self = Some a -> C self = Some c ->
  reduce_mdl self = Some (Ok self') ->
  exists in_use,
    obs_in_use self' = Some in_use
    /\ forall j, In j in_use -> in_closure a (B self) (m self) c j.
Proof.
  intros HA HC Hred. unfold reduce_mdl, reduce_mdl_fuel in Hred. rewrite HA, HC in Hred.
  destruct (in_use_loop _ a (B self) (m self) 0 (unique (nonzero_cols c)))
    as [[iu|e]|] eqn:Eloop; try discriminate.
  injection Hred as Hred. unfold bind in Hred.
  destruct (index_rows iu a) as [ar|]; [|discriminate].
  destruct (index_cols iu ar) as [arc|]; [|discriminate].
  destruct (reduce_B iu (m self) (B self)) as [b'|]; [|discriminate].
  destruct (index_cols iu c) as [c'|]; [|discriminate].
  injection Hred as <-. exists iu. split; [reflexivity|].
  apply (@in_use_loop_preserves (fun l => forall j, In j l -> in_closure a (B self) (m self) c j)
           a (B self) (m self)
           ltac:(intros iu0 iu1 H0 H1; exact (@expand_in_use_reachable _ _ _ _ iu0 iu1 H0 H1)) _ _ _ _ Eloop).
  intros j Hj. apply closure_C. now apply (proj1 (in_unique _ _)) in Hj.
Qed.

End EdmdModelFacts.

Module EdmdModelExample.
Import Np BilinearEdmd EdmdFacts EdmdModelFacts.

Lemma fit_blocks_partition_coefficients_witness :
  exists a new,
    A damped_model = Some a /\ B damped_model = new
    /\ fold_left hcat2 (map (skipn 2) new) (skipn 2 a) = [[2; 0; 3; 1; 0; 0]]%Z.
Proof.
  destruct (@fit_blocks_partition_coefficients (example_fresh [[2; 0; 3; 1; 0; 0]]%Z)
              damped_model [] [] false true true eq_refl)
    as (raw & a & new & Er & HA & HB & _ & _ & Hall).
  exists a, new. split; [exact HA|]. split; [exact HB|].
  injection Er as <-. apply Hall. repeat constructor.
Defined.

Lemma reduce_mdl_returns_witness : reduce_mdl damped_model <> None.
Proof.
  apply (@reduce_mdl_returns damped_model
           [[0; 0; 0]; [0; 0; 1]; [2; 0; 3]]%Z [[0; 1; 0]; [0; 0; 1]]%Z eq_refl eq_refl);
    repeat constructor.
Defined.

Definition damped_reduced : t :=
  match reduce_mdl damped_model with
  | Some (Ok s) => s
  | _ => damped_model
  end.

Lemma reduce_mdl_restricts_model_witness :
  exists in_use a',
    obs_in_use damped_reduced = Some in_use /\ A damped_reduced = Some a'
    /\ length a' = length in_use /\ NoDup in_use.
Proof.
  destruct (@reduce_mdl_restricts_model damped_model damped_reduced
              [[0; 0; 0]; [0; 0; 1]; [2; 0; 3]]%Z [[0; 1; 0]; [0; 0; 1]]%Z
              eq_refl eq_refl ltac:(vm_compute; reflexivity))
    as (iu & a' & H1 & _ & _ & H4 & H5 & _ & H7 & _).
  exists iu, a'. auto.
Defined.

Lemma reduce_mdl_keeps_only_reachable_witness :
  in_closure [[0; 0; 0]; [0; 0; 1]; [2; 0; 3]]%Z (B damped_model) 1
             [[0; 1; 0]; [0; 0; 1]]%Z 0.
Proof.
  destruct (@reduce_mdl_keeps_only_reachable damped_model damped_reduced
              [[0; 0; 0]; [0; 0; 1]; [2; 0; 3]]%Z [[0; 1; 0]; [0; 0; 1]]%Z
              eq_refl eq_refl ltac:(vm_compute; reflexivity))
    as (iu & Hiu & Hreach).
  apply Hreach. vm_compute in Hiu. injection Hiu as <-. now left.
Defined.

End EdmdModelExample.

(** ** BilinearMpcController: successive calls *)

Module BilinearMpcCallFacts.
Import Np BilinearMpc BilinearMpcFacts.

(** What a call leaves behind, whatever its outcome. *)
Lemma eval_state (cfg : config) (st : state) (x : vec) (t : rational)
    (history : list params) :
  mpc_prob st = Some history ->
  mpc_prob (snd (eval cfg st x t)) = Some (history ++ [qp_params cfg st x t])
  /\ u_prev (snd (eval cfg st x t))
     = match fst (eval cfg st x t) with Ok u => u | Raise _ => u_prev st end.
Proof.
  intros Hp. unfold eval. rewrite Hp. cbv zeta. fold (qp_params cfg st x t).
  destruct (solve_qp cfg (history ++ [qp_params cfg st x t])) as [stat value].
  destruct (String.eqb stat "optimal"); [|split; reflexivity].
  destruct (linalg_solve cfg _ _); split; reflexivity.
Qed.

(** X18. Before [construct_controller] a call raises [AttributeError] and
    changes nothing.  Afterwards every call adds its parameter values to the
    problem, whether or not it succeeds, and the next call differentiates
    the lifted state with the control returned by the last call that
    succeeded (the [u_prev] it started with if none did); the reference
    parameters [zd], [zd_dot], [zd_ddot] and [eta_z_d] are the same at
    every call. *)
Theorem eval_feeds_back_last_control (cfg : config) (st : state) (x1 x2 : vec)
    (t1 t2 : rational) :
  (mpc_prob st = None -> eval cfg st x1 t1 = (Raise AttributeError, st))
  /\ forall history,
       mpc_prob st = Some history ->
       let st1 := snd (eval cfg st x1 t1) in
       let u_fed := match fst (eval cfg st x1 t1) with Ok u => u | Raise _ => u_prev st end in
       let p1 := qp_params cfg st x1 t1 in
       let p2 := qp_params cfg st1 x2 t2 in
       let dyn := bilinear_dynamics cfg in
       mpc_prob (snd (eval cfg st1 x2 t2)) = Some (history ++ [p1; p2])
       /\ eta_z_init p2
          = vsub (phi_fun dyn x2) (phi_fun dyn (set_pt cfg))
              ++ vsub (eval_dot dyn (phi_fun dyn x2) u_fed t2) (zeros (n_lift cfg))
       /\ zd p2 = zd p1 /\ zd_dot p2 = zd_dot p1 /\ zd_ddot p2 = zd_ddot p1
       /\ eta_z_d p2 = eta_z_d p1.
Proof.
  split.
  - intros Hp. unfold eval. now rewrite Hp.
  - intros history Hp st1 u_fed p1 p2 dyn.
    destruct (eval_state cfg st x1 t1 Hp) as [Hp1 Hu1]. fold st1 in Hp1, Hu1.
    destruct (eval_state cfg st1 x2 t2 Hp1) as [Hp2 _].
    split; [rewrite Hp2, <- app_assoc; reflexivity|].
    split; [|repeat split].
    subst p2. unfold qp_params. cbn [eta_z_init]. now rewrite Hu1.
Qed.

Lemma eval_feeds_back_last_control_witness :
  let cfg := example_cfg "optimal" in
  let st := construct_controller (init 1) in
  mpc_prob (snd (eval cfg (snd (eval cfg st [1; 2]%Z 0%Q)) [5; 6]%Z 1%Q))
    = Some [qp_params cfg st [1; 2]%Z 0%Q;
            qp_params cfg (snd (eval cfg st [1; 2]%Z 0%Q)) [5; 6]%Z 1%Q].
Proof.
  intros cfg st.
  exact (proj1 (proj2 (@eval_feeds_back_last_control cfg st [1; 2]%Z [5; 6]%Z 0%Q 1%Q)
                  [] eq_refl)).
Defined.

End BilinearMpcCallFacts.

(** ** util.KoopPdOutput: position and velocity errors *)

Module UtilFacts.
Import Np NpFacts Util.

(** X19. For a state as long as the set point, whatever [n] is, the two outputs
    are defined and, one after the other, are the error [x - xd]: the
    first [n/2] entries are the position error, the rest the velocity
    error. *)
Theorem pd_outputs_split_the_error (self : KoopPdOutput) (x : vec) (t : rational) :
  length x = length (xd self) ->
  exists p d,
    proportional self x t = Ok p
    /\ derivative self x t = Ok d
    /\ p ++ d = vsub x (xd self)
    /\ length p = Nat.min (n self / 2) (length x)
    /\ length d = length x - n self / 2.
Proof.
  intros Hl. unfold proportional, derivative, np_sub. cbv zeta.
  rewrite !length_firstn, !length_skipn, <- Hl, !Nat.eqb_refl.
  eexists _, _. split; [reflexivity|]. split; [reflexivity|].
  split; [|split].
  - unfold vsub. rewrite <- zip_with_app by (rewrite !length_firstn; lia).
    now rewrite !firstn_skipn.
  - rewrite length_vsub, !length_firstn. lia.
  - rewrite length_vsub, !length_skipn. lia.
Qed.

Lemma pd_outputs_split_the_error_witness :
  exists p d,
    proportional {| xd := [1; 1; 0; 0]%Z; n := 4 |} [3; 5; 7; 9]%Z 0%Q = Ok p
    /\ derivative {| xd := [1; 1; 0; 0]%Z; n := 4 |} [3; 5; 7; 9]%Z 0%Q = Ok d
    /\ p ++ d = [2; 4; 7; 9]%Z.
Proof.
  destruct (@pd_outputs_split_the_error {| xd := [1; 1; 0; 0]%Z; n := 4 |}
              [3; 5; 7; 9]%Z 0%Q eq_refl)
    as (p & d & H1 & H2 & H3 & _).
  exists p, d. auto.
Defined.

End UtilFacts.
